(** * Asset dependency analysis of the Yii2 project inspector

    A shallow embedding of the asset-bundle dependency analysis of
    [Yii2Manager] (cycle detection, topological registration order, the
    single-bundle report and the extraction of the [$depends] list from a
    bundle's source text), together with the properties the specification
    states about them.

    JavaScript [Set<string>] values are finite sets of strings ([gset string]),
    arrays are lists, an optional field is an [option].  The two recursive
    closures [dfs] and [visit] recurse on a depth budget; the budget the
    top-level functions hand them is shown to be always sufficient. *)

From Stdlib Require Import Ascii.
From stdpp Require Import gmap strings list relations.

#[local] Set Warnings "-clear-no-such-hyp,-register-all".

Open Scope string_scope.
Open Scope list_scope.
Open Scope nat_scope.

(** ** Data model *)

(** [interface AssetInfo]; the untyped [publishOptions?: any] field is never
    read or written by the analysis and is left out. *)
Record AssetInfo := mkAssetInfo {
  name : string;
  path : string;
  module : option string;
  basePath : option string;
  baseUrl : option string;
  css : list string;
  js : list string;
  depends : list string;
  sourcePath : option string
}.

#[global] Instance AssetInfo_eq_dec : EqDecision AssetInfo.
Proof. solve_decision. Defined.

(** [for (const x of xs) body] / [xs.forEach(body)] over a state, where the
    body may run out of budget. *)
Fixpoint forEachM {A S : Type} (body : A → S → option S) (xs : list A) (s : S)
  : option S :=
  match xs with
  | [] => Some s
  | x :: rest =>
      match body x s with
      | Some s' => forEachM body rest s'
      | None => None
      end
  end.

(** [assets.find(a => a.name === assetName)]: the first match, if any. *)
Definition findAsset (assets : list AssetInfo) (assetName : string)
  : option AssetInfo :=
  List.find (λ a, String.eqb (name a) assetName) assets.

(** [path.indexOf(assetName)], with [None] for [-1]. *)
Fixpoint indexOf (x : string) (l : list string) : option nat :=
  match l with
  | [] => None
  | y :: l' => if String.eqb y x then Some 0 else S <$> indexOf x l'
  end.

(** ** Cycle detector *)

(** The three variables captured by the [dfs] closure. *)
Record DfsState := mkDfsState {
  cycles : list (list string);
  visited : gset string;
  recursionStack : gset string
}.

Definition dfsInit : DfsState :=
  {| cycles := []; visited := ∅; recursionStack := ∅ |}.

Section CycleDetector.
Variable assets : list AssetInfo.

Fixpoint dfs (fuel : nat) (assetName : string) (path : list string)
    (st : DfsState) : option DfsState :=
  match fuel with
  | O => None
  | S fuel' =>
      if decide (assetName ∈ recursionStack st) then
        match indexOf assetName path with
        | Some cycleStart =>
            Some {| cycles := cycles st ++ [drop cycleStart path ++ [assetName]];
                    visited := visited st;
                    recursionStack := recursionStack st |}
        | None => Some st
        end
      else if decide (assetName ∈ visited st) then Some st
      else
        let st1 := {| cycles := cycles st;
                      visited := {[assetName]} ∪ visited st;
                      recursionStack := {[assetName]} ∪ recursionStack st |} in
        match
          match findAsset assets assetName with
          | Some asset =>
              forEachM (λ dependency s, dfs fuel' dependency (path ++ [assetName]) s)
                       (depends asset) st1
          | None => Some st1
          end
        with
        | Some st2 =>
            Some {| cycles := cycles st2;
                    visited := visited st2;
                    recursionStack := recursionStack st2 ∖ {[assetName]} |}
        | None => None
        end
  end.

Definition findCircularDependenciesFuel (fuel : nat)
  : option (list (list string)) :=
  cycles <$>
    forEachM (λ asset s,
                if decide (name asset ∈ visited s) then Some s
                else dfs fuel (name asset) [] s)
             assets dfsInit.

(** The recursion of [dfs] never nests deeper than one call per descriptor
    plus the call that bounces off a visited or absent name. *)
Definition findCircularDependencies : option (list (list string)) :=
  findCircularDependenciesFuel (S (length assets)).
End CycleDetector.

(** ** Topological orderer *)

(** The three variables captured by the [visit] closure; its [visited] is
    [sortVisited] here, the name [visited] being taken by the detector. *)
Record SortState := mkSortState {
  sorted : list AssetInfo;
  sortVisited : gset string;
  temp : gset string
}.

Definition sortInit : SortState :=
  {| sorted := []; sortVisited := ∅; temp := ∅ |}.

Section TopologicalOrderer.
Variable assets : list AssetInfo.

Fixpoint visit (fuel : nat) (assetName : string) (st : SortState)
  : option SortState :=
  match fuel with
  | O => None
  | S fuel' =>
      if decide (assetName ∈ temp st) then Some st
      else if decide (assetName ∈ sortVisited st) then Some st
      else
        let st1 := {| sorted := sorted st;
                      sortVisited := sortVisited st;
                      temp := {[assetName]} ∪ temp st |} in
        match findAsset assets assetName with
        | Some asset =>
            match
              forEachM (λ dep s,
                          match findAsset assets dep with
                          | Some _ => visit fuel' dep s
                          | None => Some s
                          end)
                       (depends asset) st1
            with
            | Some st2 =>
                Some {| sorted := asset :: sorted st2;
                        sortVisited := {[assetName]} ∪ sortVisited st2;
                        temp := temp st2 ∖ {[assetName]} |}
            | None => None
            end
        | None => Some st1
        end
  end.

Definition topologicalSortFuel (fuel : nat) : option (list AssetInfo) :=
  sorted <$>
    forEachM (λ asset s,
                if decide (name asset ∈ sortVisited s) then Some s
                else visit fuel (name asset) s)
             assets sortInit.

Definition topologicalSort : option (list AssetInfo) :=
  topologicalSortFuel (S (length assets)).
End TopologicalOrderer.

(** ** Reachability / usage reporter *)

(** What [analyzeAssetDependencies] hands back.  The source renders its
    findings into one Markdown text; the embedding keeps the values that
    text is rendered from.  [Rejected] is the [Error] the promise rejects
    with, carrying its message. *)
Inductive Analysis :=
| Rejected (message : string)
| AssetReport (asset : AssetInfo) (dependencies : list string)
              (dependents : list AssetInfo)
| TreeReport (rootAssets complexAssets : list AssetInfo)
             (circularDeps : list (list string)) (sortedAssets : list AssetInfo).

(** [analyzeSpecificAsset]: the "Dependencies" and "Used By" sections. *)
Definition analyzeSpecificAsset (asset : AssetInfo) (allAssets : list AssetInfo)
  : Analysis :=
  AssetReport asset (depends asset)
    (List.filter (λ a, bool_decide (name asset ∈ depends a)) allAssets).

(** [if (assetName)] on a [string | undefined]: [undefined] and the empty
    string are falsy. *)
Definition truthy (assetName : option string) : option string :=
  match assetName with
  | Some n => if String.eqb n "" then None else Some n
  | None => None
  end.

(** [analyzeAssetDependencies], given the descriptors [getAllAssets] found.
    The [catch] block rewraps every error with a fixed prefix. *)
Definition analyzeAssetDependencies (assetName : option string)
    (assets : list AssetInfo) : option Analysis :=
  match truthy assetName with
  | Some n =>
      match findAsset assets n with
      | None =>
          Some (Rejected ("Failed to analyze asset dependencies: "
                            +:+ ("Asset '" +:+ n +:+ "' not found")))
      | Some asset => Some (analyzeSpecificAsset asset assets)
      end
  | None =>
      let rootAssets :=
        List.filter (λ asset, Nat.eqb (length (depends asset)) 0
                              || forallb (String.prefix "yii\") (depends asset))
                    assets in
      let complexAssets :=
        List.filter (λ asset, Nat.ltb 2 (length (depends asset))) assets in
      match findCircularDependencies assets with
      | Some circularDeps =>
          match topologicalSort assets with
          | Some sortedAssets =>
              Some (TreeReport rootAssets complexAssets circularDeps sortedAssets)
          | None => None
          end
      | None => None
      end
  end.

(** ** Descriptor extractor: the [$depends] field *)

(** Source text is a string of code units; the embedding covers code units
    below 256. *)

(** [\w] *)
Definition isWordChar (c : ascii) : bool :=
  let n := nat_of_ascii c in
  (Nat.leb 97 n && Nat.leb n 122) || (Nat.leb 65 n && Nat.leb n 90)
  || (Nat.leb 48 n && Nat.leb n 57) || Nat.eqb n 95.

(** [\s] on code units below 256: tab, line feed, vertical tab, form feed,
    carriage return, space and no-break space. *)
Definition isSpaceChar (c : ascii) : bool :=
  let n := nat_of_ascii c in
  (Nat.leb 9 n && Nat.leb n 13) || Nat.eqb n 32 || Nat.eqb n 160.

(** [[^']] *)
Definition notQuote (c : ascii) : bool := negb (Ascii.eqb c "'").

(** The longest prefix of characters in a class, and what follows it: how a
    greedy [c+] or [c*] matches when the next thing the pattern wants lies
    outside the class. *)
Fixpoint span (p : ascii → bool) (s : string) : string * string :=
  match s with
  | EmptyString => (EmptyString, EmptyString)
  | String c s' =>
      if p c then let '(a, b) := span p s' in (String c a, b)
      else (EmptyString, s)
  end.

(** ['([^']+)'] anchored at the start of [s]: the matched text and the rest. *)
Definition matchQuoted (s : string) : option (string * string) :=
  match s with
  | String c s1 =>
      if Ascii.eqb c "'" then
        match span notQuote s1 with
        | (String b body, String _ rest) =>
            Some ("'" +:+ String b body +:+ "'", rest)
        | _ => None
        end
      else None
  | EmptyString => None
  end.

(** [(\w+::\w+)] anchored at the start of [s]. *)
Definition matchScoped (s : string) : option (string * string) :=
  match span isWordChar s with
  | (String a scope, String c1 (String c2 s1)) =>
      if Ascii.eqb c1 ":" && Ascii.eqb c2 ":" then
        match span isWordChar s1 with
        | (String b const, rest) =>
            Some (String a scope +:+ "::" +:+ String b const, rest)
        | _ => None
        end
      else None
  | _ => None
  end.

(** The alternation ['([^']+)'|(\w+::\w+)] at one position: left branch first. *)
Definition matchAt (s : string) : option (string * string) :=
  match matchQuoted s with
  | Some r => Some r
  | None => matchScoped s
  end.

(** [dependsContent.match(/.../g)]: the successive leftmost matches.  Every
    step consumes at least one character, which [fuel] counts. *)
Fixpoint matchAll (fuel : nat) (s : string) : option (list string) :=
  match s with
  | EmptyString => Some []
  | String _ s' =>
      match fuel with
      | O => None
      | S fuel' =>
          match matchAt s with
          | Some (m, rest) => cons m <$> matchAll fuel' rest
          | None => matchAll fuel' s'
          end
      end
  end.

(** [dep.replace(/'/g, '')] *)
Fixpoint stripQuotes (s : string) : string :=
  match s with
  | EmptyString => EmptyString
  | String c s' => if notQuote c then String c (stripQuotes s') else stripQuotes s'
  end.

(** Lines 1153-1157 of [parseAssetFile]: from the text between the brackets
    to [asset.depends] ([match] yielding [null] leaves the empty list). *)
Definition extractDependencies (dependsContent : string) : option (list string) :=
  fmap (M:=list) stripQuotes <$> matchAll (String.length dependsContent) dependsContent.

(** [/\$depends\s*=\s*\[(.*?)\]/s]: the capture group of the first match. *)
Fixpoint stripPrefix (p s : string) : option string :=
  match p, s with
  | EmptyString, _ => Some s
  | String a p', String b s' => if Ascii.eqb a b then stripPrefix p' s' else None
  | String _ _, EmptyString => None
  end.

Fixpoint upTo (stop : ascii) (s : string) : option string :=
  match s with
  | EmptyString => None
  | String c s' => if Ascii.eqb c stop then Some EmptyString
                   else String c <$> upTo stop s'
  end.

Definition matchDependsAt (s : string) : option string :=
  match stripPrefix "$depends" s with
  | Some r1 =>
      match snd (span isSpaceChar r1) with
      | String c2 r2 =>
          if Ascii.eqb c2 "=" then
            match snd (span isSpaceChar r2) with
            | String c3 r3 => if Ascii.eqb c3 "[" then upTo "]" r3 else None
            | EmptyString => None
            end
          else None
      | EmptyString => None
      end
  | None => None
  end.

Fixpoint dependsMatch (content : string) : option string :=
  match matchDependsAt content with
  | Some dependsContent => Some dependsContent
  | None =>
      match content with
      | EmptyString => None
      | String _ content' => dependsMatch content'
      end
  end.

(** The [// Parse dependencies] block of [parseAssetFile]: the value of
    [asset.depends] for a file with the given content. *)
Definition parseDepends (content : string) : option (list string) :=
  match dependsMatch content with
  | Some dependsContent => extractDependencies dependsContent
  | None => Some []
  end.

(** A bundle of the application that declares nothing but dependencies. *)
Definition bundle (n : string) (deps : list string) : AssetInfo :=
  {| name := n; path := "assets/" +:+ n +:+ ".php"; module := None;
     basePath := None; baseUrl := None; css := []; js := [];
     depends := deps; sourcePath := None |}.

(** ** The dependency graph *)

(** A name is a node when some descriptor carries it. *)
Definition isNode (assets : list AssetInfo) (x : string) : Prop :=
  x ∈ name <$> assets.

(** [edge assets x y]: some descriptor named [x] declares the dependency [y]. *)
Definition edge (assets : list AssetInfo) (x y : string) : Prop :=
  ∃ a, a ∈ assets ∧ name a = x ∧ y ∈ depends a.

Definition acyclic (assets : list AssetInfo) : Prop :=
  ∀ x, ¬ tc (edge assets) x x.

(** [resolvedEdge assets x y]: the descriptor that the lookup resolves [x]
    to declares the dependency [y]. *)
Definition resolvedEdge (assets : list AssetInfo) (x y : string) : Prop :=
  ∃ a, findAsset assets x = Some a ∧ y ∈ depends a.

(** A list of names in which every element is related to the next one. *)
Definition walk (R : relation string) (l : list string) : Prop :=
  ∀ i x y, l !! i = Some x → l !! S i = Some y → R x y.

(** ** Invariants of the cycle detector *)

(** What every reported cycle looks like: at least two names, the same name
    at both ends, only names of descriptors, each one declaring the next. *)
Definition goodCycle (assets : list AssetInfo) (c : list string) : Prop :=
  2 ≤ length c ∧ head c = last c ∧ (∀ n, n ∈ c → isNode assets n) ∧
  walk (resolvedEdge assets) c.

(** Every name that was visited to completion has had all its declared
    dependencies visited. *)
Definition closed (assets : list AssetInfo) (st : DfsState) : Prop :=
  ∀ x a d, x ∈ visited st → x ∉ recursionStack st →
           findAsset assets x = Some a → d ∈ depends a → d ∈ visited st.

(** The state of the detector while the calls for the names in [path] are
    open. *)
Record dfsInv (assets : list AssetInfo) (path : list string) (st : DfsState)
  : Prop := mkDfsInv {
  inv_stack : ∀ x, x ∈ recursionStack st ↔ x ∈ path;
  inv_visited : recursionStack st ⊆ visited st;
  inv_nodes : ∀ x, x ∈ path → isNode assets x;
  inv_closed : closed assets st;
  inv_walk : walk (resolvedEdge assets) path;
  inv_cycles : Forall (goodCycle assets) (cycles st)
}.

(** What a completed call leaves of the state it started from. *)
Record grows (st st' : DfsState) : Prop := mkGrows {
  grows_stack : recursionStack st' = recursionStack st;
  grows_visited : visited st ⊆ visited st';
  grows_cycles : cycles st `prefix_of` cycles st'
}.

(** The state right after [visited.add] and [recursionStack.add]. *)
Definition enterState (x : string) (st : DfsState) : DfsState :=
  {| cycles := cycles st;
     visited := {[x]} ∪ visited st;
     recursionStack := {[x]} ∪ recursionStack st |}.

(** The state right after [recursionStack.delete]. *)
Definition leaveState (x : string) (st : DfsState) : DfsState :=
  {| cycles := cycles st;
     visited := visited st;
     recursionStack := recursionStack st ∖ {[x]} |}.

(** The names of the descriptors, as a set. *)
Definition nodeSet (assets : list AssetInfo) : gset string :=
  list_to_set (name <$> assets).

(** The body of the [assets.forEach] that starts a traversal at every
    descriptor not reached so far. *)
Definition dfsRoot (assets : list AssetInfo) (fuel : nat) (asset : AssetInfo)
    (s : DfsState) : option DfsState :=
  if decide (name asset ∈ visited s) then Some s
  else dfs assets fuel (name asset) [] s.

(** A reported cycle that starts and ends with the same name and passes
    through both [u] and [v]. *)
Definition through (u v : string) (st : DfsState) : Prop :=
  ∃ c, c ∈ cycles st ∧ is_Some (head c) ∧ head c = last c ∧ u ∈ c ∧ v ∈ c.

(** ** Invariants of the topological orderer *)

(** In [l], every descriptor stands before the descriptors of those of its
    declared dependencies that are nodes. *)
Fixpoint dependentsFirst (assets : list AssetInfo) (l : list AssetInfo) : Prop :=
  match l with
  | [] => True
  | a :: l' =>
      (∀ r, r ∈ depends a → isNode assets r → r ∈ name <$> l') ∧
      dependentsFirst assets l'
  end.

Record sortInv (assets : list AssetInfo) (st : SortState) : Prop := mkSortInv {
  sinv_visited : ∀ x, x ∈ sortVisited st ↔ x ∈ name <$> sorted st;
  sinv_nodup : NoDup (name <$> sorted st);
  sinv_resolved : ∀ a, a ∈ sorted st → findAsset assets (name a) = Some a;
  sinv_order : dependentsFirst assets (sorted st);
  sinv_temp : temp st ## sortVisited st
}.

(** The body of the [forEach] inside [visit]. *)
Definition visitDep (assets : list AssetInfo) (fuel : nat) (dep : string)
    (s : SortState) : option SortState :=
  match findAsset assets dep with
  | Some _ => visit assets fuel dep s
  | None => Some s
  end.

(** The body of the [assets.forEach] of [topologicalSort]. *)
Definition sortRoot (assets : list AssetInfo) (fuel : nat) (asset : AssetInfo)
    (s : SortState) : option SortState :=
  if decide (name asset ∈ sortVisited s) then Some s
  else visit assets fuel (name asset) s.

(** What a call of [dfs] achieves: it keeps the invariant, hands the stack
    back, only adds marks and cycles, and leaves its name marked. *)
Definition dfsPost (assets : list AssetInfo) (fuel : nat) : Prop :=
  ∀ x path st st',
    dfs assets fuel x path st = Some st' →
    dfsInv assets path st → walk (resolvedEdge assets) (path ++ [x]) →
    dfsInv assets path st' ∧ grows st st' ∧ x ∈ visited st'.

(** What a call of [visit] on a node achieves when every name in [temp]
    reaches that node along declared dependencies. *)
Definition visitPost (assets : list AssetInfo) (fuel : nat) : Prop :=
  ∀ x st st',
    visit assets fuel x st = Some st' → isNode assets x →
    sortInv assets st → (∀ t, t ∈ temp st → tc (edge assets) t x) →
    sortInv assets st' ∧ temp st' = temp st ∧
    sortVisited st ⊆ sortVisited st' ∧ x ∈ sortVisited st'.

(** [X] has a strictly smaller index than [Y] in [out]. *)
Definition precedes (out : list AssetInfo) (X Y : AssetInfo) : Prop :=
  ∃ i j, out !! i = Some X ∧ out !! j = Some Y ∧ i < j.

(** ** Descriptor sets of the specification's scenarios *)

(** [{A: deps=[]}, {B: deps=[A]}, {C: deps=[A,B]}] *)
Definition chainABC : list AssetInfo :=
  [bundle "A" []; bundle "B" ["A"]; bundle "C" ["A"; "B"]].

(** [{X: deps=[Y]}, {Y: deps=[X]}] *)
Definition cycleXY : list AssetInfo :=
  [bundle "X" ["Y"]; bundle "Y" ["X"]].

Definition rankABC (x : string) : nat :=
  if String.eqb x "C" then 2 else if String.eqb x "B" then 1 else 0.

(** Two bundles that share the class name [A]: one of the application, one
    of a module, the second depending on its own name. *)
Definition appA : AssetInfo :=
  {| name := "A"; path := "assets/A.php"; module := None;
     basePath := None; baseUrl := None; css := []; js := [];
     depends := []; sourcePath := None |}.

Definition shopA : AssetInfo :=
  {| name := "A"; path := "modules/shop/assets/A.php"; module := Some "shop";
     basePath := None; baseUrl := None; css := []; js := ["shop.js"];
     depends := ["A"]; sourcePath := None |}.

(** ** The two shapes of a dependency identifier *)

(** Every character of [s] is in the class [p]. *)
Fixpoint allChars (p : ascii → bool) (s : string) : bool :=
  match s with
  | EmptyString => true
  | String c s' => p c && allChars p s'
  end.

(** [s] does not begin with a character of the class [p]. *)
Definition stopsAt (p : ascii → bool) (s : string) : Prop :=
  match s with
  | EmptyString => True
  | String c _ => p c = false
  end.

(** [m] is the text of a quoted string literal with the content [body]. *)
Definition isQuotedLiteral (m body : string) : Prop :=
  m = "'" +:+ body +:+ "'" ∧ body ≠ "" ∧ allChars notQuote body = true.

(** [m] is the text of a [Scope::Constant] reference. *)
Definition isScopedConstant (m : string) : Prop :=
  ∃ scope const,
    m = scope +:+ "::" +:+ const ∧ scope ≠ "" ∧ const ≠ "" ∧
    allChars isWordChar scope = true ∧ allChars isWordChar const = true.

(** [m] occurs in [s]. *)
Definition occursIn (m s : string) : Prop :=
  ∃ before after, s = before +:+ m +:+ after.

(** ** Invariants of the orderer on arbitrary input *)

(** In [l], every descriptor stands before the descriptors of its declared
    dependencies, except for dependencies that lead back to it. *)
Fixpoint orderedUpToCycles (assets : list AssetInfo) (l : list AssetInfo)
  : Prop :=
  match l with
  | [] => True
  | a :: l' =>
      (∀ r, r ∈ depends a → isNode assets r →
            r ∈ name <$> l' ∨ tc (resolvedEdge assets) r (name a)) ∧
      orderedUpToCycles assets l'
  end.

Record sortInvAny (assets : list AssetInfo) (st : SortState) : Prop :=
  mkSortInvAny {
  any_visited : ∀ x, x ∈ sortVisited st ↔ x ∈ name <$> sorted st;
  any_nodup : NoDup (name <$> sorted st);
  any_resolved : ∀ a, a ∈ sorted st → findAsset assets (name a) = Some a;
  any_order : orderedUpToCycles assets (sorted st);
  any_temp : temp st ## sortVisited st
}.

(** What a call of [visit] on a node achieves on any input, when every name
    in [temp] reaches that node along declared dependencies. *)
Definition visitPostAny (assets : list AssetInfo) (fuel : nat) : Prop :=
  ∀ x st st',
    visit assets fuel x st = Some st' → isNode assets x →
    sortInvAny assets st →
    (∀ t, t ∈ temp st → tc (resolvedEdge assets) t x) →
    sortInvAny assets st' ∧ temp st' = temp st ∧
    sortVisited st ⊆ sortVisited st' ∧
    (x ∈ sortVisited st' ∨ x ∈ temp st).

(** ** Cycles of the dependency graph *)

(** A sequence that closes on its first name and repeats no other name. *)
Definition simpleCycle (c : list string) : Prop :=
  ∃ x l, c = x :: l ++ [x] ∧ NoDup (x :: l).

(** A set of names in which every name has a predecessor that it reaches
    without leaving the set: the names of a cycle. *)
Definition knot (R : relation string) (L : list string) : Prop :=
  ∀ a, a ∈ L → ∃ b, b ∈ L ∧ R b a ∧ rtc (λ u v, R u v ∧ v ∈ L) a b.

(** ** Descriptor extractor: the other fields *)

(** A first-match search: the result of the leftmost position at which the
    anchored matcher [at] succeeds. *)
Fixpoint firstMatch {A : Type} (at_ : string → option A) (content : string)
  : option A :=
  match at_ content with
  | Some r => Some r
  | None =>
      match content with
      | EmptyString => None
      | String _ content' => firstMatch at_ content'
      end
  end.

(** [/\$css\s*=\s*\[(.*?)\]/s] and [/\$js\s*=\s*\[(.*?)\]/s] anchored at the
    start of [s], for the variable text [variable] (["$css"], ["$js"]): the
    capture group. *)
Definition matchArrayAt (variable : string) (s : string) : option string :=
  match stripPrefix variable s with
  | Some r1 =>
      match snd (span isSpaceChar r1) with
      | String c2 r2 =>
          if Ascii.eqb c2 "=" then
            match snd (span isSpaceChar r2) with
            | String c3 r3 => if Ascii.eqb c3 "[" then upTo "]" r3 else None
            | EmptyString => None
            end
          else None
      | EmptyString => None
      end
  | None => None
  end.

Definition arrayMatch (variable content : string) : option string :=
  firstMatch (matchArrayAt variable) content.

(** [cssContent.match(/'([^']+)'/g)]: the successive leftmost matches. *)
Fixpoint matchAllQuoted (fuel : nat) (s : string) : option (list string) :=
  match s with
  | EmptyString => Some []
  | String _ s' =>
      match fuel with
      | O => None
      | S fuel' =>
          match matchQuoted s with
          | Some (m, rest) => cons m <$> matchAllQuoted fuel' rest
          | None => matchAllQuoted fuel' s'
          end
      end
  end.

(** From the text between the brackets to [asset.css] or [asset.js]. *)
Definition extractFiles (listContent : string) : option (list string) :=
  fmap (M:=list) stripQuotes <$> matchAllQuoted (String.length listContent) listContent.

(** The [// Parse CSS files] and [// Parse JS files] blocks. *)
Definition parseFiles (variable content : string) : option (list string) :=
  match arrayMatch variable content with
  | Some listContent => extractFiles listContent
  | None => Some []
  end.

(** The double quote character. *)
Definition doubleQuote : ascii := ascii_of_nat 34.

(** The character class of the regular expressions for scalar fields: the
    single and the double quote. *)
Definition isQuoteChar (c : ascii) : bool :=
  Ascii.eqb c "'" || Ascii.eqb c doubleQuote.

(** The regular expression for [$basePath], and its siblings for [$baseUrl]
    and [$sourcePath], anchored at the start of [s]: the variable, white
    space, an equals sign, white space, a quote of either kind, one or more
    characters that are no quote of either kind (the capture group), and a
    quote of either kind. *)
Definition matchScalarAt (variable : string) (s : string) : option string :=
  match stripPrefix variable s with
  | Some r1 =>
      match snd (span isSpaceChar r1) with
      | String c2 r2 =>
          if Ascii.eqb c2 "=" then
            match snd (span isSpaceChar r2) with
            | String c3 r3 =>
                if isQuoteChar c3 then
                  match span (λ c, negb (isQuoteChar c)) r3 with
                  | (String v0 v, String _ _) => Some (String v0 v)
                  | _ => None
                  end
                else None
            | EmptyString => None
            end
          else None
      | EmptyString => None
      end
  | None => None
  end.

Definition scalarMatch (variable content : string) : option string :=
  firstMatch (matchScalarAt variable) content.

(** [parseAssetFile], given the class name that [basename(filePath, '.php')]
    yields and the file's content, [None] when [readFileSync] throws; the
    result is [None] for the [null] of the [catch] block. *)
Definition parseAssetFile (className filePath : string) (module : option string)
    (content : option string) : option AssetInfo :=
  content ← content;
  cssFiles ← parseFiles "$css" content;
  jsFiles ← parseFiles "$js" content;
  dependencies ← parseDepends content;
  Some {| name := className; path := filePath; module := module;
          basePath := scalarMatch "$basePath" content;
          baseUrl := scalarMatch "$baseUrl" content;
          css := cssFiles; js := jsFiles; depends := dependencies;
          sourcePath := scalarMatch "$sourcePath" content |}.

(** ** Array texts as they are conventionally written *)

(** An entry of a PHP array of dependencies. *)
Inductive Item :=
| Literal (text : string)
| Reference (scope const : string).

Definition itemText (i : Item) : string :=
  match i with
  | Literal text => "'" +:+ text +:+ "'"
  | Reference scope const => scope +:+ "::" +:+ const
  end.

Definition itemName (i : Item) : string :=
  match i with
  | Literal text => text
  | Reference scope const => scope +:+ "::" +:+ const
  end.

(** Entries, each after its separator, and what follows the last one. *)
Fixpoint renderItems (items : list (string * Item)) (trailer : string) : string :=
  match items with
  | [] => trailer
  | (sep, i) :: rest => sep +:+ itemText i +:+ renderItems rest trailer
  end.

(** Commas, white space and the like: neither a quote nor a word character. *)
Definition isSeparatorChar (c : ascii) : bool :=
  notQuote c && negb (isWordChar c).

Fixpoint wellSeparated (items : list (string * Item)) (trailer : string) : Prop :=
  match items with
  | [] => allChars isSeparatorChar trailer = true
  | (sep, i) :: rest =>
      allChars isSeparatorChar sep = true ∧
      match i with
      | Literal text => text ≠ "" ∧ allChars notQuote text = true
      | Reference scope const =>
          scope ≠ "" ∧ const ≠ "" ∧
          allChars isWordChar scope = true ∧ allChars isWordChar const = true ∧
          stopsAt isWordChar (renderItems rest trailer)
      end ∧
      wellSeparated rest trailer
  end.

(** File names, each after a separator without quotes. *)
Fixpoint renderFiles (files : list (string * string)) (trailer : string) : string :=
  match files with
  | [] => trailer
  | (sep, file) :: rest => sep +:+ "'" +:+ file +:+ "'" +:+ renderFiles rest trailer
  end.

(** Nothing in [before] can begin an assignment to [variable], when
    [variable] follows [before]: wherever [variable] occurs in [before] it is
    directly followed there by a character that is neither white space nor
    an equals sign (as in [$cssOptions] for [$css]), and no occurrence
    begins in [before] and ends beyond it. *)
Fixpoint noEarlierAssignment (variable before : string) : bool :=
  match before with
  | EmptyString => true
  | String _ before' =>
      match stripPrefix variable before with
      | Some (String c _) => negb (isSpaceChar c) && negb (Ascii.eqb c "=")
      | Some EmptyString => false
      | None =>
          match stripPrefix variable (before +:+ variable) with
          | Some _ => false
          | None => true
          end
      end && noEarlierAssignment variable before'
  end.

Definition notBracket (c : ascii) : bool := negb (Ascii.eqb c "]").

(** The text of a file whose first [$depends] assignment holds the list
    text [listContent]. *)
Definition dependsFile (before ws1 ws2 listContent post : string) : string :=
  before +:+ "$depends" +:+ ws1 +:+ "=" +:+ ws2
         +:+ "[" +:+ listContent +:+ "]" +:+ post.

(** ** A bundle class as it is conventionally written *)

Definition sampleItems : list (string * Item) :=
  [(" ", Literal "yii\web\YiiAsset"); (", ", Reference "JqueryAsset" "class")].

Definition sampleFiles : list (string * string) :=
  [(" ", "css/site.css"); (", ", "css/print.css")].

(** ** Bundle listing *)

(** [asset.module || 'app']: an absent or empty module counts as the
    application. *)
Definition moduleLabel (a : AssetInfo) : string :=
  match module a with
  | Some m => if String.eqb m "" then "app" else m
  | None => "app"
  end.

(** [if (!byModule.has(module)) byModule.set(module, []);
    byModule.get(module)!.push(asset)] on a [Map], which keeps its keys in
    the order of their first insertion. *)
Fixpoint pushGroup (key : string) (a : AssetInfo)
    (byModule : list (string * list AssetInfo)) : list (string * list AssetInfo) :=
  match byModule with
  | [] => [(key, [a])]
  | (k, members) :: rest =>
      if String.eqb k key then (k, members ++ [a]) :: rest
      else (k, members) :: pushGroup key a rest
  end.

(** What [listAssetBundles] renders: the module named in the headline, if
    any, the count of the headline, and the groups listed below it. *)
Record BundleListing := mkBundleListing {
  headlineModule : option string;
  headlineCount : nat;
  byModule : list (string * list AssetInfo)
}.

(** [listAssetBundles], given the descriptors its scan found. *)
Definition listAssetBundles (moduleFilter : option string)
    (assets : list AssetInfo) : BundleListing :=
  {| headlineModule := truthy moduleFilter;
     headlineCount :=
       match truthy moduleFilter with
       | Some f =>
           length (List.filter (λ a, bool_decide (module a = Some f)) assets)
       | None => length assets
       end;
     byModule :=
       foldl (λ groups asset,
                match truthy moduleFilter with
                | Some f =>
                    if String.eqb (moduleLabel asset) f
                    then pushGroup (moduleLabel asset) asset groups
                    else groups
                | None => pushGroup (moduleLabel asset) asset groups
                end)
             [] assets |}.

(** The body of the [assets.forEach] that fills the map. *)
Definition groupStep (moduleFilter : option string)
    (groups : list (string * list AssetInfo)) (asset : AssetInfo)
  : list (string * list AssetInfo) :=
  match truthy moduleFilter with
  | Some f =>
      if String.eqb (moduleLabel asset) f
      then pushGroup (moduleLabel asset) asset groups
      else groups
  | None => pushGroup (moduleLabel asset) asset groups
  end.

(** The bundles that the listing shows for a filter. *)
Definition shownBundles (moduleFilter : option string) (assets : list AssetInfo)
  : list AssetInfo :=
  match truthy moduleFilter with
  | Some f => List.filter (λ a, String.eqb (moduleLabel a) f) assets
  | None => assets
  end.

(** The members listed under a key. *)
Fixpoint groupOf (key : string) (groups : list (string * list AssetInfo))
  : list AssetInfo :=
  match groups with
  | [] => []
  | (k, members) :: rest =>
      if String.eqb k key then members else groupOf key rest
  end.

(** ** Console commands *)

(** [s.includes(sub)] *)
Fixpoint includes (s sub : string) : bool :=
  match stripPrefix sub s with
  | Some _ => true
  | None =>
      match s with
      | EmptyString => false
      | String _ s' => includes s' sub
      end
  end.

(** [s.endsWith(suffix)] *)
Fixpoint endsWith (s suffix : string) : bool :=
  String.eqb s suffix ||
  match s with
  | EmptyString => false
  | String _ s' => endsWith s' suffix
  end.

(** [args.join(' ')] *)
Fixpoint joinWith (sep : string) (parts : list string) : string :=
  match parts with
  | [] => ""
  | [part] => part
  | part :: rest => part +:+ sep +:+ joinWith sep rest
  end.

(** [.trim()] on code units below 256, where white space and line
    terminators are the characters of [isSpaceChar]. *)
Fixpoint trimEnd (s : string) : string :=
  match s with
  | EmptyString => EmptyString
  | String c s' =>
      match trimEnd s' with
      | EmptyString => if isSpaceChar c then EmptyString else String c EmptyString
      | t => String c t
      end
  end.

Definition trim (s : string) : string := trimEnd (snd (span isSpaceChar s)).

Definition dangerousCommands : list string :=
  ["migrate/fresh"; "migrate/down"; "cache/flush-all"].

(** What [executeCommand] does with a request: refuse it, hand the command
    line back for the user to run, or pass the command line to the shell. *)
Inductive CommandOutcome :=
| Blocked (command : string)
| RunManually (fullCommand : string)
| Run (fullCommand : string).

(** [executeCommand] up to the call of [execAsync]. *)
Definition executeCommand (yiiScript command : string) (args : list string)
    (interactive : bool) : CommandOutcome :=
  if existsb (includes command) dangerousCommands then Blocked command
  else
    let fullCommand :=
      trim ("php " +:+ String doubleQuote yiiScript +:+ String doubleQuote " "
              +:+ command +:+ " " +:+ joinWith " " args) in
    if interactive then RunManually fullCommand else Run fullCommand.

(** ** The scan for bundle classes *)

(** A directory tree as the scan meets it: a file with its content ([None]
    when it cannot be read), a directory with its entries in the order
    [readdirSync] lists them ([readable] is false when [readdirSync]
    throws), or an entry on which [statSync] throws. *)
Inductive FsNode :=
| FsFile (content : option string)
| FsDir (readable : bool) (entries : list (string * FsNode))
| FsBroken.

(** [existsSync(join(dir, name))] and the node it finds. *)
Definition child (entryName : string) (dir : FsNode) : option FsNode :=
  match dir with
  | FsDir _ entries =>
      match List.find (λ e, String.eqb e.1 entryName) entries with
      | Some (_, FsBroken) => None
      | Some (_, node) => Some node
      | None => None
      end
  | _ => None
  end.

Section Scan.
(** [path.join] and [path.basename] of the platform. *)
Variable join : string → string → string.
Variable basename : string → string → string.

(** [findAssets]: the [try] block covers the whole loop, so the first
    entry on which [statSync] throws ends the scan of its directory. *)
Fixpoint findAssets (dir : FsNode) (dirPath : string) (module : option string)
  : list AssetInfo :=
  match dir with
  | FsDir true files =>
      (fix scan (files : list (string * FsNode)) : list AssetInfo :=
         match files with
         | [] => []
         | (file, node) :: rest =>
             let filePath := join dirPath file in
             match node with
             | FsBroken => []
             | FsDir _ _ => findAssets node filePath module ++ scan rest
             | FsFile content =>
                 if endsWith file "Asset.php" || endsWith file "Bundle.php"
                 then
                   match parseAssetFile (basename filePath ".php") filePath
                                        module content with
                   | Some assetInfo => assetInfo :: scan rest
                   | None => scan rest
                   end
                 else scan rest
             end
         end) files
  | _ => []
  end.

(** [findModuleAssets] *)
Definition findModuleAssets (moduleDir : FsNode) (modulePath moduleName : string)
  : list AssetInfo :=
  findAssets moduleDir modulePath (Some moduleName) ++
  match child "widgets" moduleDir with
  | Some widgetsDir =>
      findAssets widgetsDir (join modulePath "widgets") (Some moduleName)
  | None => []
  end.

(** [getAllAssets]; [None] when the unguarded [readdirSync(modulesPath)]
    throws. *)
Definition getAllAssets (project : FsNode) (projectPath : string)
  : option (list AssetInfo) :=
  let mainAssets :=
    match child "assets" project with
    | Some dir => findAssets dir (join projectPath "assets") None
    | None => []
    end in
  let modulesPath := join projectPath "modules" in
  moduleAssets ←
    match child "modules" project with
    | Some (FsDir true moduleNames) =>
        Some (concat
                ((λ e, match e.2 with
                       | FsBroken => []
                       | moduleDir =>
                           findModuleAssets moduleDir (join modulesPath e.1) e.1
                       end) <$> moduleNames))
    | Some _ => None
    | None => Some []
    end;
  let widgetAssets :=
    match child "widgets" project with
    | Some dir => findAssets dir (join projectPath "widgets") (Some "widgets")
    | None => []
    end in
  Some (mainAssets ++ moduleAssets ++ widgetAssets).
End Scan.

(** The scan of the entries of a readable directory. *)
Definition scanFiles (join basename : string → string → string)
    (files : list (string * FsNode)) (dirPath : string) (module : option string)
  : list AssetInfo :=
  findAssets join basename (FsDir true files) dirPath module.

(** No entry of the list makes [statSync] throw. *)
Definition allStatable (files : list (string * FsNode)) : Prop :=
  ∀ e, e ∈ files → e.2 ≠ FsBroken.

(** Path functions for a tree below a normal directory path. *)
Definition slashJoin (dir file : string) : string := dir +:+ "/" +:+ file.

Fixpoint lastOfPath (p : string) : string :=
  match p with
  | EmptyString => EmptyString
  | String c p' =>
      if includes p' "/" then lastOfPath p'
      else if Ascii.eqb c "/" then p' else p
  end.

Fixpoint dropSuffix (s suffix : string) : string :=
  if String.eqb s suffix then EmptyString
  else match s with
       | EmptyString => EmptyString
       | String c s' => if endsWith s' suffix then String c (dropSuffix s' suffix)
                        else s
       end.

Definition simpleBasename (p ext : string) : string :=
  dropSuffix (lastOfPath p) ext.

Definition sampleWidgets : FsNode :=
  FsDir true
    [("CartAsset.php", FsFile (Some "class CartAsset { public $js = ['cart.js']; }"));
     ("notes.txt", FsFile (Some "$depends = ['ignored']"))].

Definition sampleModule : FsNode :=
  FsDir true
    [("ShopAsset.php", FsFile (Some "class ShopAsset { public $depends = ['A']; }"));
     ("widgets", sampleWidgets);
     ("x-stale-link", FsBroken);
     ("zoneBundle.php", FsFile (Some "class zoneBundle {}"))].

(** A file named [file] with content [content] lies at path [p] in the tree
    [dir] found at [dirPath]. *)
Inductive fileAt (join : string → string → string)
  : FsNode → string → string → string → option string → Prop :=
| fileHere r files dirPath file content :
    (file, FsFile content) ∈ files →
    fileAt join (FsDir r files) dirPath file (join dirPath file) content
| fileBelow r files dirPath sub subDir file p content :
    (sub, subDir) ∈ files →
    fileAt join subDir (join dirPath sub) file p content →
    fileAt join (FsDir r files) dirPath file p content.

(** Every directory of the tree can be listed and [statSync] succeeds on
    every entry. *)
Fixpoint healthy (node : FsNode) : bool :=
  match node with
  | FsFile _ => true
  | FsDir readable files =>
      readable &&
      (fix all (files : list (string * FsNode)) : bool :=
         match files with
         | [] => true
         | (_, node') :: rest => healthy node' && all rest
         end) files
  | FsBroken => false
  end.

(** The file name marks a bundle class. *)
Definition isBundleFile (file : string) : bool :=
  endsWith file "Asset.php" || endsWith file "Bundle.php".

Definition sampleProject : FsNode :=
  FsDir true
    [("assets", FsDir true [("AppAsset.php", FsFile (Some "class AppAsset {}"))]);
     ("modules", FsDir true [("shop", sampleModule)]);
     ("widgets", FsDir true [("MenuBundle.php", FsFile (Some "class MenuBundle {}"))])].

(** * Properties *)

(** ** Generic facts *)

Lemma forEachM_app {A S} (body : A → S → option S) xs ys s :
  forEachM body (xs ++ ys) s =
  match forEachM body xs s with
  | Some s' => forEachM body ys s'
  | None => None
  end.
Proof.
  revert s. induction xs as [|x xs IH]; intros s; simpl; [done|].
  destruct (body x s); [apply IH|done].
Qed.

(** Loop invariant rule: [P] is kept and the pre/post relation [R] composes. *)
Lemma forEachM_inv {A S} (body : A → S → option S) (P : S → Prop)
    (R : S → S → Prop) xs :
  (∀ s, R s s) →
  (∀ s1 s2 s3, R s1 s2 → R s2 s3 → R s1 s3) →
  (∀ x s s', x ∈ xs → P s → body x s = Some s' → P s' ∧ R s s') →
  ∀ s s', P s → forEachM body xs s = Some s' → P s' ∧ R s s'.
Proof.
  intros Hrefl Htrans. induction xs as [|x xs IH]; intros Hstep s s' HP Hrun.
  - simpl in Hrun. injection Hrun as <-. auto.
  - simpl in Hrun. destruct (body x s) as [s1|] eqn:Hx; [|done].
    destruct (Hstep x s s1) as [HP1 HR1]; [left|done|done|].
    destruct (IH (λ y t t' Hy, Hstep y t t' (list_elem_of_further _ _ _ Hy)) s1 s' HP1 Hrun)
      as [HP' HR'].
    eauto.
Qed.

(** Every element of the list has its own iteration. *)
Lemma forEachM_split {A S} (body : A → S → option S) xs s s' x :
  forEachM body xs s = Some s' → x ∈ xs →
  ∃ xs1 xs2 s1 s2, xs = xs1 ++ x :: xs2 ∧ forEachM body xs1 s = Some s1 ∧
                   body x s1 = Some s2 ∧ forEachM body xs2 s2 = Some s'.
Proof.
  intros Hrun Hin. apply list_elem_of_split in Hin as (xs1 & xs2 & ->).
  rewrite forEachM_app in Hrun.
  destruct (forEachM body xs1 s) as [s1|] eqn:H1; [|done].
  simpl in Hrun. destruct (body x s1) as [s2|] eqn:H2; [|done].
  by exists xs1, xs2, s1, s2.
Qed.

(** A loop whose every iteration returns, returns. *)
Lemma forEachM_total {A S} (body : A → S → option S) (P : S → Prop) xs :
  (∀ x s, x ∈ xs → P s → ∃ s', body x s = Some s' ∧ P s') →
  ∀ s, P s → ∃ s', forEachM body xs s = Some s' ∧ P s'.
Proof.
  induction xs as [|x xs IH]; intros Hstep s HP; simpl; [eauto|].
  destruct (Hstep x s) as (s1 & -> & HP1); [left|done|].
  apply IH; [|done]. intros y t Hy. apply Hstep. by right.
Qed.

Lemma forEachM_mono {A S} (f g : A → S → option S) xs :
  (∀ x s s', x ∈ xs → f x s = Some s' → g x s = Some s') →
  ∀ s s', forEachM f xs s = Some s' → forEachM g xs s = Some s'.
Proof.
  induction xs as [|x xs IH]; intros Hfg s s' Hrun; simpl in *; [done|].
  destruct (f x s) as [s1|] eqn:Hx; [|done].
  rewrite (Hfg x s s1); [|left|done].
  apply IH; [|done]. intros y t t' Hy. apply Hfg. by right.
Qed.

(** ** The name lookup *)

Lemma findAsset_Some assets n a :
  findAsset assets n = Some a → a ∈ assets ∧ name a = n.
Proof.
  unfold findAsset. intros H. apply find_some in H as [Hin Heq].
  split; [by apply list_elem_of_In|by apply String.eqb_eq].
Qed.

Lemma findAsset_None assets n :
  findAsset assets n = None ↔ ¬ isNode assets n.
Proof.
  unfold findAsset, isNode. induction assets as [|a assets IH]; simpl.
  - split; [intros _ H; by apply elem_of_nil in H|done].
  - rewrite ?fmap_cons, elem_of_cons. destruct (String.eqb_spec (name a) n) as [->|Hne].
    + split; [done|]. intros H. destruct H. by left.
    + rewrite IH. split; [intros H [?|?]; [congruence|done] | intros H ?; apply H; by right].
Qed.

Lemma findAsset_isNode assets n a :
  findAsset assets n = Some a → isNode assets n.
Proof.
  intros H. apply findAsset_Some in H as [Hin <-].
  unfold isNode. apply list_elem_of_fmap. eauto.
Qed.

Lemma isNode_findAsset assets n :
  isNode assets n → ∃ a, findAsset assets n = Some a.
Proof.
  intros H. destruct (findAsset assets n) as [a|] eqn:Hf; [eauto|].
  by apply findAsset_None in Hf.
Qed.

(** The lookup resolves a name to the first descriptor that carries it. *)
Lemma findAsset_first pre a post :
  ¬ isNode pre (name a) → findAsset (pre ++ a :: post) (name a) = Some a.
Proof.
  unfold findAsset, isNode. induction pre as [|b pre IH]; simpl; intros Hpre.
  - by rewrite String.eqb_refl.
  - rewrite ?fmap_cons, elem_of_cons in Hpre.
    destruct (String.eqb_spec (name b) (name a)) as [Heq|Hne].
    + destruct Hpre. by left.
    + apply IH. intros H. apply Hpre. by right.
Qed.

Lemma findAsset_NoDup assets a :
  NoDup (name <$> assets) → a ∈ assets → findAsset assets (name a) = Some a.
Proof.
  intros Hnd Hin. apply list_elem_of_split in Hin as (pre & post & ->).
  apply findAsset_first. unfold isNode.
  rewrite fmap_app, fmap_cons in Hnd. apply NoDup_app in Hnd as (_ & Hdisj & _).
  intros Hpre. apply (Hdisj _ Hpre). by left.
Qed.

Lemma findAsset_edge assets x a d :
  findAsset assets x = Some a → d ∈ depends a → edge assets x d.
Proof. intros [Hin Hn]%findAsset_Some Hd. by exists a. Qed.

Lemma findAsset_resolved assets x a d :
  findAsset assets x = Some a → d ∈ depends a → resolvedEdge assets x d.
Proof. intros Ha Hd. by exists a. Qed.

(** ** Walks *)

Lemma walk_nil R : walk R [].
Proof. intros i x y H. by rewrite lookup_nil in H. Qed.

Lemma walk_singleton R x : walk R [x].
Proof. intros [|i] a b H1 H2; simpl in *; by rewrite ?lookup_nil in *. Qed.

Lemma walk_snoc R l x d :
  walk R (l ++ [x]) → R x d → walk R ((l ++ [x]) ++ [d]).
Proof.
  intros Hw He i a b Ha Hb.
  destruct (decide (S i < length (l ++ [x]))) as [Hlt|Hge].
  - rewrite lookup_app_l in Ha by lia. rewrite lookup_app_l in Hb by lia. eauto.
  - assert (S i = length (l ++ [x])) as Hi.
    { apply lookup_lt_Some in Hb. rewrite length_app in Hb. simpl in Hb. lia. }
    rewrite lookup_app_r, Hi, Nat.sub_diag in Hb by lia. simpl in Hb.
    injection Hb as <-.
    rewrite lookup_app_l in Ha by lia.
    rewrite length_app in Hi. simpl in Hi.
    rewrite lookup_app_r in Ha by lia.
    replace (i - length l) with 0 in Ha by lia. simpl in Ha. by injection Ha as <-.
Qed.

Lemma walk_drop R l n : walk R l → walk R (drop n l).
Proof.
  intros Hw i x y Hx Hy. rewrite lookup_drop in Hx, Hy.
  apply (Hw (n + i)); [done|]. by rewrite <- Nat.add_succ_r.
Qed.

Lemma walk_prefix R l x : walk R (l ++ [x]) → walk R l.
Proof.
  intros Hw i a b Ha Hb. apply (Hw i); by apply lookup_app_l_Some.
Qed.

(** A walk from [x] to [y] with at least one step witnesses [tc edge x y]. *)
Lemma walk_tc R l x y :
  walk R (x :: l ++ [y]) → tc R x y.
Proof.
  revert x. induction l as [|z l IH]; intros x Hw.
  - apply tc_once. by apply (Hw 0).
  - eapply tc_l; [by apply (Hw 0)|]. apply IH.
    intros i a b Ha Hb. by apply (Hw (S i)).
Qed.

Lemma indexOf_Some x l i : indexOf x l = Some i → l !! i = Some x.
Proof.
  revert i. induction l as [|y l IH]; intros i; simpl; [done|].
  destruct (String.eqb_spec y x) as [->|Hne].
  - by intros [= <-].
  - destruct (indexOf x l) as [j|]; [|done]. intros [= <-]. by apply IH.
Qed.

Lemma indexOf_elem x l : x ∈ l → is_Some (indexOf x l).
Proof.
  induction l as [|y l IH]; simpl; [by intros ?%elem_of_nil|].
  intros [->|Hin]%elem_of_cons.
  - by rewrite String.eqb_refl.
  - destruct (String.eqb y x); [done|]. destruct (IH Hin) as [j ->]. by eexists.
Qed.

(** The slice that [dfs] records when it meets a name that is on the stack. *)
Lemma cycle_slice_shape (x : string) (path : list string) i :
  path !! i = Some x →
  drop i path ++ [x] = x :: drop (S i) path ++ [x].
Proof. intros H. by rewrite (drop_S _ _ _ H). Qed.

Lemma tc_weaken {A} (R R' : relation A) x y :
  (∀ u v, R u v → R' u v) → tc R x y → tc R' x y.
Proof.
  intros Hsub. induction 1 as [x y H|x y z H _ IH].
  - apply tc_once. auto.
  - eapply tc_l; eauto.
Qed.

Lemma resolvedEdge_edge assets x y : resolvedEdge assets x y → edge assets x y.
Proof. intros (a & [Hin Hn]%findAsset_Some & Hy). by exists a. Qed.

Lemma goodCycle_tc assets c : goodCycle assets c → ∃ x, tc (edge assets) x x.
Proof.
  intros (Hlen & Hends & _ & Hw).
  destruct c as [|x c]; [simpl in Hlen; lia|].
  destruct (decide (c = [])) as [->|Hne]; [simpl in Hlen; lia|].
  destruct (exists_last Hne) as (l & y & ->).
  simpl in Hends.
  assert (last (x :: l ++ [y]) = Some y) as Hlast.
  { rewrite app_comm_cons. apply last_snoc. }
  rewrite Hlast in Hends. injection Hends as ->.
  exists y. eapply tc_weaken; [apply resolvedEdge_edge|by eapply walk_tc].
Qed.

(** ** The cycle detector keeps its invariant *)

#[global] Instance grows_refl : Reflexive grows.
Proof. intros st. by split. Qed.

#[global] Instance grows_trans : Transitive grows.
Proof.
  intros s1 s2 s3 H1 H2. split.
  - rewrite (grows_stack _ _ H2). apply H1.
  - etrans; [apply H1|apply H2].
  - etrans; [apply H1|apply H2].
Qed.

Section CycleDetectorInvariant.
Variable assets : list AssetInfo.

Lemma dfs_unfold fuel x path st :
  dfs assets (S fuel) x path st =
  if decide (x ∈ recursionStack st) then
    match indexOf x path with
    | Some cycleStart =>
        Some {| cycles := cycles st ++ [drop cycleStart path ++ [x]];
                visited := visited st;
                recursionStack := recursionStack st |}
    | None => Some st
    end
  else if decide (x ∈ visited st) then Some st
  else
    leaveState x <$>
      match findAsset assets x with
      | Some asset =>
          forEachM (λ d s, dfs assets fuel d (path ++ [x]) s)
                   (depends asset) (enterState x st)
      | None => Some (enterState x st)
      end.
Proof.
  simpl. by repeat case_decide.
Qed.

Lemma dfs_loop fuel deps path st st' :
  dfsPost assets fuel →
  forEachM (λ d s, dfs assets fuel d path s) deps st = Some st' →
  dfsInv assets path st → (∀ d, d ∈ deps → walk (resolvedEdge assets) (path ++ [d])) →
  dfsInv assets path st' ∧ grows st st' ∧ ∀ d, d ∈ deps → d ∈ visited st'.
Proof.
  intros IH. revert st. induction deps as [|d deps IHd]; intros st Hrun Hinv Hw.
  - simpl in Hrun. injection Hrun as <-. split_and!; [done|done|].
    intros d Hd. by apply elem_of_nil in Hd.
  - simpl in Hrun. destruct (dfs assets fuel d path st) as [s1|] eqn:Hd; [|done].
    destruct (IH _ _ _ _ Hd Hinv) as (Hinv1 & Hg1 & Hv1); [apply Hw; by left|].
    destruct (IHd s1 Hrun Hinv1) as (Hinv' & Hg' & Hv'); [intros; apply Hw; by right|].
    split_and!; [done|by etrans|].
    intros e [->|He]%elem_of_cons; [|by auto].
    by apply (grows_visited _ _ Hg').
Qed.

Lemma enterState_inv x a path st :
  dfsInv assets path st → walk (resolvedEdge assets) (path ++ [x]) →
  x ∉ recursionStack st → findAsset assets x = Some a →
  dfsInv assets (path ++ [x]) (enterState x st).
Proof.
  intros [Hs Hv Hn Hc Hw Hcy] Hwx Hx Ha. split; simpl.
  - intros y. rewrite elem_of_app, list_elem_of_singleton, <- Hs. set_solver.
  - set_solver.
  - intros y [Hy| ->%list_elem_of_singleton]%elem_of_app; [by auto|].
    by eapply findAsset_isNode.
  - intros y b d Hy Hys Hb Hd. simpl in *.
    assert (y ≠ x) by set_solver.
    assert (d ∈ visited st); [|set_solver].
    apply (Hc y b d); [set_solver|set_solver|done|done].
  - done.
  - done.
Qed.

Lemma leaveState_inv x path st0 st :
  dfsInv assets path st0 → x ∉ recursionStack st0 →
  grows (enterState x st0) st →
  recursionStack st ⊆ visited st →
  (∀ y a d, y ∈ visited st → y ∉ recursionStack st ∨ y = x →
            findAsset assets y = Some a → d ∈ depends a → d ∈ visited st) →
  Forall (goodCycle assets) (cycles st) →
  dfsInv assets path (leaveState x st) ∧ grows st0 (leaveState x st) ∧ x ∈ visited (leaveState x st).
Proof.
  intros [Hs Hv Hn Hc Hw Hcy] Hx [Gs Gv Gc] Hsv Hcl Hgood. simpl in *.
  split_and!.
  - split; simpl; try done.
    + intros y. rewrite <- Hs, Gs. set_solver.
    + set_solver.
    + intros y a d Hy Hys Ha Hd. simpl in *. apply (Hcl y a d); try done.
      destruct (decide (y = x)); [by right|left]. set_solver.
  - split; simpl.
    + rewrite Gs. set_solver.
    + set_solver.
    + done.
  - simpl. set_solver.
Qed.

Lemma dfs_post fuel : dfsPost assets fuel.
Proof.
  induction fuel as [|fuel IH]; intros x path st st' Hrun Hinv Hwx; [done|].
  rewrite dfs_unfold in Hrun.
  destruct (decide (x ∈ recursionStack st)) as [Hstack|Hstack].
  { pose proof Hinv as [Hs Hv Hn Hc Hw Hcy].
    destruct (indexOf x path) as [i|] eqn:Hi; injection Hrun as <-.
    - apply indexOf_Some in Hi. split_and!.
      + split; simpl; try done.
        apply Forall_app; split; [done|]. apply Forall_singleton.
        split_and!.
        * rewrite (cycle_slice_shape _ _ _ Hi). simpl. rewrite length_app. simpl. lia.
        * rewrite (cycle_slice_shape _ _ _ Hi). rewrite app_comm_cons, last_snoc. done.
        * intros n [Hin| ->%list_elem_of_singleton]%elem_of_app.
          -- apply Hn. apply list_elem_of_lookup in Hin as [j Hj].
             rewrite lookup_drop in Hj. by eapply list_elem_of_lookup_2.
          -- apply Hn. by eapply list_elem_of_lookup_2.
        * rewrite <- drop_app_le by (apply lookup_lt_Some in Hi; lia).
          by apply walk_drop.
      + split; simpl; [done|done|]. by apply prefix_app_r.
      + simpl. set_solver.
    - split_and!; [done|done|set_solver]. }
  destruct (decide (x ∈ visited st)) as [Hvis|Hvis].
  { injection Hrun as <-. done. }
  destruct (findAsset assets x) as [a|] eqn:Ha.
  - destruct (forEachM _ _ _) as [st2|] eqn:Hloop; [|done]. injection Hrun as <-.
    pose proof (enterState_inv x a path st Hinv Hwx Hstack Ha) as Hinv1.
    destruct (dfs_loop _ _ _ _ _ IH Hloop Hinv1) as (Hinv2 & Hg2 & Hdeps).
    { intros d Hd. apply walk_snoc; [done|]. by eapply findAsset_resolved. }
    apply leaveState_inv; try done.
    + by destruct Hinv2.
    + intros y b d Hy [Hys| ->] Hb Hd.
      * by apply (inv_closed _ _ _ Hinv2 y b d).
      * apply Hdeps. congruence.
    + by destruct Hinv2.
  - injection Hrun as <-.
    pose proof Hinv as [Hs Hv Hn Hc Hw Hcy].
    apply leaveState_inv; try done; simpl.
    + set_solver.
    + intros y b d Hy [Hys| ->] Hb Hd; [|congruence].
      assert (y ≠ x) by set_solver.
      assert (d ∈ visited st); [|set_solver].
      apply (Hc y b d); [set_solver|set_solver|done|done].
Qed.
End CycleDetectorInvariant.

(** ** The cycle detector returns *)

Lemma size_nodeSet assets : size (nodeSet assets) ≤ length assets.
Proof.
  unfold nodeSet. induction assets as [|a assets IH].
  - change (size (∅ : gset string) ≤ 0). by rewrite size_empty.
  - rewrite fmap_cons, list_to_set_cons, size_union_alt, size_singleton.
    rewrite length_cons.
    assert (size ((list_to_set (name <$> assets) : gset string) ∖ {[name a]})
            ≤ size (list_to_set (name <$> assets) : gset string)) as Hle.
    { apply subseteq_size. set_solver. }
    lia.
Qed.

Lemma elem_of_nodeSet assets x : x ∈ nodeSet assets ↔ isNode assets x.
Proof. unfold nodeSet, isNode. apply elem_of_list_to_set. Qed.

Section CycleDetectorTotal.
Variable assets : list AssetInfo.

(** A budget larger than the number of descriptors not on the stack is
    enough, and the call hands the stack back as it found it. *)
Lemma dfs_total fuel : ∀ x path st,
  recursionStack st ⊆ nodeSet assets →
  length assets < fuel + size (recursionStack st) →
  ∃ st', dfs assets fuel x path st = Some st' ∧
         recursionStack st' = recursionStack st.
Proof.
  induction fuel as [|fuel IH]; intros x path st Hsub Hfuel.
  { pose proof (subseteq_size _ _ Hsub). pose proof (size_nodeSet assets). lia. }
  rewrite dfs_unfold.
  destruct (decide (x ∈ recursionStack st)) as [Hstack|Hstack].
  { destruct (indexOf x path); eauto. }
  destruct (decide (x ∈ visited st)) as [Hvis|Hvis]; [eauto|].
  destruct (findAsset assets x) as [a|] eqn:Ha.
  - destruct (forEachM_total (λ d s, dfs assets fuel d (path ++ [x]) s)
                (λ s, recursionStack s = {[x]} ∪ recursionStack st)
                (depends a)) with (s := enterState x st) as (st2 & -> & Hst2).
    + intros d s _ Hs. destruct (IH d (path ++ [x]) s) as (s' & Hrun & Hs').
      * rewrite Hs. apply findAsset_isNode, elem_of_nodeSet in Ha. set_solver.
      * rewrite Hs, size_union, size_singleton by set_solver. lia.
      * exists s'. split; [done|congruence].
    + done.
    + simpl. eexists; split; [done|]. simpl. rewrite Hst2. set_solver.
  - simpl. eexists; split; [done|]. simpl. set_solver.
Qed.

Lemma dfs_fuel_mono fuel : ∀ fuel' x path st st',
  dfs assets fuel x path st = Some st' → fuel ≤ fuel' →
  dfs assets fuel' x path st = Some st'.
Proof.
  induction fuel as [|fuel IH]; intros [|fuel'] x path st st' Hrun Hle;
    [done|done|lia|].
  rewrite dfs_unfold in *.
  repeat case_decide; try done.
  destruct (findAsset assets x) as [a|]; [|done].
  destruct (forEachM _ _ _) as [st2|] eqn:Hloop; [|done].
  erewrite forEachM_mono; [done| |done].
  intros d s s' _ Hd. simpl in Hd. apply IH; [done|lia].
Qed.

(** Marks are never taken back, and a completed call leaves its name
    marked (a name found on the stack was marked when it was pushed). *)
Lemma dfs_marks fuel : ∀ x path st st',
  dfs assets fuel x path st = Some st' →
  visited st ⊆ visited st' ∧ (x ∈ visited st' ∨ x ∈ recursionStack st).
Proof.
  induction fuel as [|fuel IH]; intros x path st st' Hrun; [done|].
  rewrite dfs_unfold in Hrun.
  destruct (decide (x ∈ recursionStack st)) as [Hstack|Hstack].
  { destruct (indexOf x path); injection Hrun as <-; simpl; auto. }
  destruct (decide (x ∈ visited st)) as [Hvis|Hvis].
  { injection Hrun as <-. auto. }
  assert (∃ st2, st' = leaveState x st2 ∧ {[x]} ∪ visited st ⊆ visited st2)
    as (st2 & -> & Hsub).
  { destruct (findAsset assets x) as [a|].
    - destruct (forEachM _ _ _) as [st2|] eqn:Hloop; [|done]. injection Hrun as <-.
      exists st2. split; [done|].
      destruct (forEachM_inv (λ d s, dfs assets fuel d (path ++ [x]) s)
                  (λ _, True) (λ s s', visited s ⊆ visited s') (depends a))
        with (s := enterState x st) (s' := st2) as [_ H]; try done.
      + intros s1 s2 s3 ??. by etrans.
      + intros d s s' _ _ Hd. split; [done|]. by apply (IH _ _ _ _ Hd).
    - injection Hrun as <-. by exists (enterState x st). }
  simpl. set_solver.
Qed.

Lemma dfsRoot_total s :
  recursionStack s = ∅ →
  ∀ asset fuel, length assets < fuel →
  ∃ s', dfsRoot assets fuel asset s = Some s' ∧ recursionStack s' = ∅.
Proof.
  intros Hs asset fuel Hfuel. unfold dfsRoot. case_decide; [eauto|].
  destruct (dfs_total fuel (name asset) [] s) as (s' & Hrun & Hs').
  - rewrite Hs. set_solver.
  - lia.
  - exists s'. split; [done|congruence].
Qed.

Lemma findCircularDependenciesFuel_total fuel :
  length assets < fuel →
  findCircularDependenciesFuel assets fuel = findCircularDependencies assets ∧
  is_Some (findCircularDependencies assets).
Proof.
  intros Hfuel. unfold findCircularDependencies, findCircularDependenciesFuel.
  change (λ asset s, if decide (name asset ∈ visited s) then Some s
                     else dfs assets ?f (name asset) [] s)
    with (dfsRoot assets f).
  destruct (forEachM_total (dfsRoot assets (S (length assets)))
              (λ s, recursionStack s = ∅) assets) with (s := dfsInit)
    as (st & Hrun & _).
  { intros a s _ Hs. by apply dfsRoot_total; [|lia]. }
  { done. }
  rewrite Hrun. split; [|by eexists].
  erewrite forEachM_mono; [done| |exact Hrun].
  intros a s s' _. unfold dfsRoot. case_decide; [done|].
  intros Hd. eapply dfs_fuel_mono; [done|lia].
Qed.
End CycleDetectorTotal.

(** ** What the detector has established when it is done *)

Section CycleDetectorResult.
Variable assets : list AssetInfo.

Lemma dfsInit_inv : dfsInv assets [] dfsInit.
Proof.
  split; simpl.
  - intros x. set_solver.
  - set_solver.
  - intros x Hx. by apply elem_of_nil in Hx.
  - intros x a d Hx. set_solver.
  - apply walk_nil.
  - constructor.
Qed.

Lemma dfsRoot_post fuel asset s s' :
  dfsRoot assets fuel asset s = Some s' → dfsInv assets [] s →
  dfsInv assets [] s' ∧ grows s s' ∧ name asset ∈ visited s'.
Proof.
  unfold dfsRoot. case_decide as Hvis.
  - intros [= <-] Hinv. done.
  - intros Hrun Hinv. eapply dfs_post; [done|done|]. apply walk_singleton.
Qed.

Lemma dfsRoot_loop fuel xs s s' :
  forEachM (dfsRoot assets fuel) xs s = Some s' → dfsInv assets [] s →
  dfsInv assets [] s' ∧ grows s s' ∧ ∀ a, a ∈ xs → name a ∈ visited s'.
Proof.
  revert s. induction xs as [|x xs IH]; intros s Hrun Hinv.
  - simpl in Hrun. injection Hrun as <-. split_and!; [done|done|].
    intros a Ha. by apply elem_of_nil in Ha.
  - simpl in Hrun. destruct (dfsRoot assets fuel x s) as [s1|] eqn:Hx; [|done].
    destruct (dfsRoot_post _ _ _ _ Hx Hinv) as (Hinv1 & Hg1 & Hv1).
    destruct (IH s1 Hrun Hinv1) as (Hinv' & Hg' & Hv').
    split_and!; [done|by etrans|].
    intros a [->|Ha]%elem_of_cons; [|by auto].
    by apply (grows_visited _ _ Hg').
Qed.

Lemma findCircularDependenciesFuel_run fuel found :
  findCircularDependenciesFuel assets fuel = Some found →
  ∃ st, forEachM (dfsRoot assets fuel) assets dfsInit = Some st ∧
        found = cycles st.
Proof.
  unfold findCircularDependenciesFuel.
  change (λ asset s, if decide (name asset ∈ visited s) then Some s
                     else dfs assets fuel (name asset) [] s)
    with (dfsRoot assets fuel).
  destruct (forEachM _ _ _) as [st|]; [|done]. intros [= <-]. by exists st.
Qed.

Lemma findCircularDependencies_good found :
  findCircularDependencies assets = Some found →
  Forall (goodCycle assets) found.
Proof.
  intros (st & Hrun & ->)%findCircularDependenciesFuel_run.
  destruct (dfsRoot_loop _ _ _ _ Hrun dfsInit_inv) as (Hinv & _ & _).
  by destruct Hinv.
Qed.
End CycleDetectorResult.

(** ** Claims about the cycle detector *)

(** C5. Every cycle the detector reports is a sequence of at least two names
    whose first and last elements are equal; on an acyclic dependency graph
    it reports no cycle at all; the report is an ordinary return value (the
    function always returns one). *)
Theorem cycles_are_closed_sequences (assets : list AssetInfo) :
  ∃ found,
    findCircularDependencies assets = Some found ∧
    (∀ c, c ∈ found → 2 ≤ length c ∧ is_Some (head c) ∧ head c = last c) ∧
    (acyclic assets → found = []).
Proof.
  destruct (findCircularDependenciesFuel_total assets (S (length assets)))
    as [_ [found Hfound]]; [lia|].
  exists found. split; [done|].
  pose proof (findCircularDependencies_good _ _ Hfound) as Hgood.
  split.
  - intros c Hc. rewrite Forall_forall in Hgood.
    destruct (Hgood c Hc) as (Hlen & Hends & _).
    split_and!; [done| |done].
    destruct c; [simpl in Hlen; lia|by eexists].
  - intros Hacyclic. destruct found as [|c found]; [done|].
    apply Forall_cons in Hgood as [Hc _].
    apply goodCycle_tc in Hc as [x Hx]. by destruct (Hacyclic x).
Qed.

(** C6. The cycle detector is total: on every finite list of descriptors,
    self-referential and mutually referential ones included, it returns; any
    depth budget above the number of descriptors gives the same result.  The
    reason is the [visited] mark: a completed call leaves its name marked,
    marks are never removed, and a call on a marked name that is not on the
    stack returns at once without touching the state. *)
Theorem cycle_detector_total (assets : list AssetInfo) :
  (∃ found, findCircularDependencies assets = Some found ∧
            ∀ fuel, length assets < fuel →
                    findCircularDependenciesFuel assets fuel = Some found) ∧
  (∀ fuel x path st st',
     dfs assets fuel x path st = Some st' →
     visited st ⊆ visited st' ∧ (x ∈ visited st' ∨ x ∈ recursionStack st)) ∧
  (∀ fuel x path st,
     x ∈ visited st → x ∉ recursionStack st →
     dfs assets (S fuel) x path st = Some st).
Proof.
  split_and!.
  - destruct (findCircularDependenciesFuel_total assets (S (length assets)))
      as [_ [found Hfound]]; [lia|].
    exists found. split; [done|]. intros fuel Hfuel.
    destruct (findCircularDependenciesFuel_total assets fuel Hfuel) as [-> _]. done.
  - apply dfs_marks.
  - intros fuel x path st Hvis Hstack. rewrite dfs_unfold.
    by rewrite decide_False, decide_True.
Qed.

(** C9. A dependency name without a descriptor ends the traversal on the
    spot: the call marks the name visited and returns, leaving the reported
    cycles and the stack as they were; and no reported cycle contains such a
    name, at its start or anywhere else. *)
Theorem absent_names_never_cycle (assets : list AssetInfo) :
  (∀ fuel x path st,
     ¬ isNode assets x → (∀ y, y ∈ recursionStack st → isNode assets y) →
     ∃ st', dfs assets (S fuel) x path st = Some st' ∧
            cycles st' = cycles st ∧ recursionStack st' = recursionStack st ∧
            visited st' = {[x]} ∪ visited st) ∧
  (∃ found, findCircularDependencies assets = Some found ∧
            ∀ c n, c ∈ found → n ∈ c → isNode assets n).
Proof.
  split.
  - intros fuel x path st Hx Hstack. rewrite dfs_unfold.
    rewrite decide_False by (intros H; by apply Hx, Hstack).
    destruct (decide (x ∈ visited st)) as [Hvis|Hvis].
    + exists st. split_and!; [done|done|done|set_solver].
    + apply findAsset_None in Hx. rewrite Hx. simpl.
      eexists. split_and!; [done|done| |done].
      simpl. assert (x ∉ recursionStack st) by (intros H; by apply findAsset_None in Hx; apply Hx, Hstack).
      set_solver.
  - destruct (findCircularDependenciesFuel_total assets (S (length assets)))
      as [_ [found Hfound]]; [lia|].
    exists found. split; [done|]. intros c n Hc Hn.
    pose proof (findCircularDependencies_good _ _ Hfound) as Hgood.
    rewrite Forall_forall in Hgood. destruct (Hgood c Hc) as (_ & _ & Hnodes & _).
    by apply Hnodes.
Qed.

(** ** Mutual dependencies are reported *)

(** In a loop that takes a decidable property from false to true, some
    iteration is the one that does it. *)
Lemma forEachM_transition {A S} (body : A → S → option S) (Q : S → Prop)
    `{!∀ s, Decision (Q s)} xs :
  ∀ s s', forEachM body xs s = Some s' → ¬ Q s → Q s' →
  ∃ xs1 x xs2 s1 s2,
    xs = xs1 ++ x :: xs2 ∧ forEachM body xs1 s = Some s1 ∧
    body x s1 = Some s2 ∧ forEachM body xs2 s2 = Some s' ∧ ¬ Q s1 ∧ Q s2.
Proof.
  induction xs as [|x xs IH]; intros s s' Hrun Hn Hq.
  - simpl in Hrun. injection Hrun as <-. done.
  - simpl in Hrun. destruct (body x s) as [t|] eqn:Hx; [|done].
    destruct (decide (Q t)) as [Ht|Ht].
    + by exists [], x, xs, s, t.
    + destruct (IH t s' Hrun Ht Hq) as (xs1 & y & xs2 & s1 & s2 & -> & H1 & Hy & H2 & ?).
      exists (x :: xs1), y, xs2, s1, s2. simpl. rewrite Hx. done.
Qed.

Lemma grows_elem st st' c : grows st st' → c ∈ cycles st → c ∈ cycles st'.
Proof.
  intros [_ _ [new ->]] Hc. apply elem_of_app. by left.
Qed.

Lemma leaveState_cycles x st : cycles (leaveState x st) = cycles st.
Proof. done. Qed.

Section MutualDependency.
Variable assets : list AssetInfo.

Lemma through_grows u v st st' : grows st st' → through u v st → through u v st'.
Proof. intros Hg (c & Hc & ?). exists c. split; [by eapply grows_elem|done]. Qed.

Lemma through_sym u v st : through u v st → through v u st.
Proof. intros (c & ? & ? & ? & ? & ?). by exists c. Qed.

(** The call that enters [v] while [u] is open (or is [v] itself) meets [u]
    among the dependencies of [v] and records the cycle. *)
Lemma dfs_closes_cycle fuel u v bv path st st' :
  findAsset assets v = Some bv → u ∈ depends bv →
  dfs assets fuel v path st = Some st' →
  dfsInv assets path st → walk (resolvedEdge assets) (path ++ [v]) →
  v ∉ visited st → u ∈ path ++ [v] →
  through u v st'.
Proof.
  intros Hv Hu Hrun Hinv Hwv Hvis Hpath.
  destruct fuel as [|fuel]; [done|]. rewrite dfs_unfold in Hrun.
  assert (v ∉ recursionStack st) as Hstack.
  { intros H. by apply Hvis, (inv_visited _ _ _ Hinv). }
  rewrite decide_False, decide_False, Hv in Hrun by done.
  destruct (forEachM _ _ _) as [st2|] eqn:Hloop; [|done]. injection Hrun as <-.
  pose proof (enterState_inv _ v bv path st Hinv Hwv Hstack Hv) as Hinv0.
  assert (∀ d, d ∈ depends bv → walk (resolvedEdge assets) ((path ++ [v]) ++ [d])) as Hwd.
  { intros d Hd. apply walk_snoc; [done|]. by eapply findAsset_resolved. }
  destruct (forEachM_split _ _ _ _ _ Hloop Hu)
    as (xs1 & xs2 & s1 & s2 & Hxs & H1 & Hcall & H2).
  destruct (dfs_loop _ _ _ _ _ _ (dfs_post assets fuel) H1 Hinv0) as (Hinv1 & _).
  { intros d Hd. apply Hwd. rewrite Hxs. apply elem_of_app. by left. }
  destruct (dfs_post _ _ _ _ _ _ Hcall Hinv1) as (Hinv2 & _); [by apply Hwd|].
  destruct (dfs_loop _ _ _ _ _ _ (dfs_post assets fuel) H2 Hinv2) as (_ & Hg2 & _).
  { intros d Hd. apply Hwd. rewrite Hxs. apply elem_of_app. right. by right. }
  unfold through. setoid_rewrite leaveState_cycles.
  apply (through_grows _ _ s2); [done|].
  destruct fuel as [|fuel]; [done|]. rewrite dfs_unfold in Hcall.
  rewrite decide_True in Hcall by (by apply (inv_stack _ _ _ Hinv1)).
  destruct (indexOf_elem _ _ Hpath) as [i Hi]. rewrite Hi in Hcall.
  injection Hcall as <-. apply indexOf_Some in Hi.
  eexists. split; [apply elem_of_app; right; by apply list_elem_of_singleton|].
  rewrite (cycle_slice_shape _ _ _ Hi). split_and!.
  - by eexists.
  - by rewrite app_comm_cons, last_snoc.
  - by left.
  - rewrite app_comm_cons, <- (drop_S _ _ _ Hi). apply elem_of_app. left.
    apply (list_elem_of_lookup_2 _ (length path - i)).
    rewrite lookup_drop.
    assert (i ≤ length path).
    { apply lookup_lt_Some in Hi. rewrite length_app in Hi. simpl in Hi. lia. }
    replace (i + (length path - i)) with (length path) by lia.
    by rewrite lookup_app_r, Nat.sub_diag.
Qed.

(** While [u] is open, whichever call first marks a name [v] that depends
    on [u] reports a cycle through both. *)
Lemma dfs_marks_below fuel u v bv :
  findAsset assets v = Some bv → u ∈ depends bv →
  ∀ x path st st',
    dfs assets fuel x path st = Some st' →
    dfsInv assets path st → walk (resolvedEdge assets) (path ++ [x]) →
    u ∈ path → v ∉ visited st → v ∈ visited st' →
    through u v st'.
Proof.
  intros Hv Hu. induction fuel as [|fuel IH];
    intros x path st st' Hrun Hinv Hwx Hpath Hvis Hvis'; [done|].
  destruct (decide (x = v)) as [->|Hxv].
  { eapply dfs_closes_cycle; try done. apply elem_of_app. by left. }
  rewrite dfs_unfold in Hrun.
  destruct (decide (x ∈ recursionStack st)) as [Hstack|Hstack].
  { destruct (indexOf x path); injection Hrun as <-; done. }
  destruct (decide (x ∈ visited st)) as [Hxvis|Hxvis].
  { injection Hrun as <-. done. }
  destruct (findAsset assets x) as [a|] eqn:Ha.
  - destruct (forEachM _ _ _) as [st2|] eqn:Hloop; [|done]. injection Hrun as <-.
    simpl in Hvis'.
    pose proof (enterState_inv _ x a path st Hinv Hwx Hstack Ha) as Hinv0.
    assert (∀ d, d ∈ depends a → walk (resolvedEdge assets) ((path ++ [x]) ++ [d])) as Hwd.
    { intros d Hd. apply walk_snoc; [done|]. by eapply findAsset_resolved. }
    destruct (forEachM_transition _ (λ s, v ∈ visited s) _ _ _ Hloop)
      as (xs1 & d & xs2 & s1 & s2 & Hxs & H1 & Hcall & H2 & Hn1 & Hq2);
      [simpl; set_solver|done|].
    destruct (dfs_loop _ _ _ _ _ _ (dfs_post assets fuel) H1 Hinv0) as (Hinv1 & _).
    { intros e He. apply Hwd. rewrite Hxs. apply elem_of_app. by left. }
    assert (d ∈ depends a) as Hd.
    { rewrite Hxs. apply elem_of_app. right. by left. }
    destruct (dfs_post _ _ _ _ _ _ Hcall Hinv1) as (Hinv2 & _); [by apply Hwd|].
    destruct (dfs_loop _ _ _ _ _ _ (dfs_post assets fuel) H2 Hinv2) as (_ & Hg2 & _).
    { intros e He. apply Hwd. rewrite Hxs. apply elem_of_app. right. by right. }
    unfold through. setoid_rewrite leaveState_cycles.
    apply (through_grows _ _ s2); [done|].
    eapply IH; try done; [by apply Hwd|]. apply elem_of_app. by left.
  - injection Hrun as <-. simpl in Hvis'. set_solver.
Qed.
End MutualDependency.

Section MutualDependencyReported.
Variable assets : list AssetInfo.
Variables (A B : string) (a b : AssetInfo).
Hypothesis HA : findAsset assets A = Some a.
Hypothesis HAB : B ∈ depends a.
Hypothesis HB : findAsset assets B = Some b.
Hypothesis HBA : A ∈ depends b.

(** Whichever call marks [A] reports a cycle through [A] and [B]. *)
Lemma dfs_marks_pair fuel : ∀ x path st st',
  dfs assets fuel x path st = Some st' →
  dfsInv assets path st → walk (resolvedEdge assets) (path ++ [x]) →
  A ∉ visited st → A ∈ visited st' →
  through A B st'.
Proof.
  induction fuel as [|fuel IH];
    intros x path st st' Hrun Hinv Hwx Hvis Hvis'; [done|].
  destruct (decide (x = A)) as [->|HxA].
  { destruct (decide (B ∈ path ++ [A])) as [Hopen|Hopen].
    { apply through_sym. by eapply dfs_closes_cycle. }
    assert (B ≠ A ∧ B ∉ path) as [HBne HBpath].
    { split; intros H; apply Hopen, elem_of_app; [right|by left].
      by apply list_elem_of_singleton. }
    destruct (decide (B ∈ visited st)) as [HBvis|HBvis].
    { destruct Hvis. apply (inv_closed _ _ _ Hinv B b A); try done.
      by rewrite (inv_stack _ _ _ Hinv). }
    rewrite dfs_unfold in Hrun.
    assert (A ∉ recursionStack st) as Hstack.
    { intros H. by apply Hvis, (inv_visited _ _ _ Hinv). }
    rewrite decide_False, decide_False, HA in Hrun by done.
    destruct (forEachM _ _ _) as [st2|] eqn:Hloop; [|done]. injection Hrun as <-.
    pose proof (enterState_inv _ A a path st Hinv Hwx Hstack HA) as Hinv0.
    assert (∀ d, d ∈ depends a → walk (resolvedEdge assets) ((path ++ [A]) ++ [d])) as Hwd.
    { intros d Hd. apply walk_snoc; [done|]. by eapply findAsset_resolved. }
    destruct (dfs_loop _ _ _ _ _ _ (dfs_post assets fuel) Hloop Hinv0 Hwd)
      as (_ & _ & Hdeps).
    destruct (forEachM_transition _ (λ s, B ∈ visited s) _ _ _ Hloop)
      as (xs1 & d & xs2 & s1 & s2 & Hxs & H1 & Hcall & H2 & Hn1 & Hq2);
      [simpl; set_solver|by apply Hdeps|].
    destruct (dfs_loop _ _ _ _ _ _ (dfs_post assets fuel) H1 Hinv0) as (Hinv1 & _).
    { intros e He. apply Hwd. rewrite Hxs. apply elem_of_app. by left. }
    assert (d ∈ depends a) as Hd.
    { rewrite Hxs. apply elem_of_app. right. by left. }
    destruct (dfs_post _ _ _ _ _ _ Hcall Hinv1) as (Hinv2 & _); [by apply Hwd|].
    destruct (dfs_loop _ _ _ _ _ _ (dfs_post assets fuel) H2 Hinv2) as (_ & Hg2 & _).
    { intros e He. apply Hwd. rewrite Hxs. apply elem_of_app. right. by right. }
    unfold through. setoid_rewrite leaveState_cycles.
    apply (through_grows _ _ s2); [done|].
    eapply (dfs_marks_below _ fuel A B b); try done; [by apply Hwd|].
    apply elem_of_app. right. by apply list_elem_of_singleton. }
  rewrite dfs_unfold in Hrun.
  destruct (decide (x ∈ recursionStack st)) as [Hstack|Hstack].
  { destruct (indexOf x path); injection Hrun as <-; done. }
  destruct (decide (x ∈ visited st)) as [Hxvis|Hxvis].
  { injection Hrun as <-. done. }
  destruct (findAsset assets x) as [ax|] eqn:Hax.
  - destruct (forEachM _ _ _) as [st2|] eqn:Hloop; [|done]. injection Hrun as <-.
    simpl in Hvis'.
    pose proof (enterState_inv _ x ax path st Hinv Hwx Hstack Hax) as Hinv0.
    assert (∀ d, d ∈ depends ax → walk (resolvedEdge assets) ((path ++ [x]) ++ [d])) as Hwd.
    { intros d Hd. apply walk_snoc; [done|]. by eapply findAsset_resolved. }
    destruct (forEachM_transition _ (λ s, A ∈ visited s) _ _ _ Hloop)
      as (xs1 & d & xs2 & s1 & s2 & Hxs & H1 & Hcall & H2 & Hn1 & Hq2);
      [simpl; set_solver|done|].
    destruct (dfs_loop _ _ _ _ _ _ (dfs_post assets fuel) H1 Hinv0) as (Hinv1 & _).
    { intros e He. apply Hwd. rewrite Hxs. apply elem_of_app. by left. }
    assert (d ∈ depends ax) as Hd.
    { rewrite Hxs. apply elem_of_app. right. by left. }
    destruct (dfs_post _ _ _ _ _ _ Hcall Hinv1) as (Hinv2 & _); [by apply Hwd|].
    destruct (dfs_loop _ _ _ _ _ _ (dfs_post assets fuel) H2 Hinv2) as (_ & Hg2 & _).
    { intros e He. apply Hwd. rewrite Hxs. apply elem_of_app. right. by right. }
    unfold through. setoid_rewrite leaveState_cycles.
    apply (through_grows _ _ s2); [done|].
    eapply IH; try done. by apply Hwd.
  - injection Hrun as <-. simpl in Hvis'. set_solver.
Qed.

Lemma mutual_dependency_found found :
  findCircularDependencies assets = Some found →
  ∃ c, c ∈ found ∧ is_Some (head c) ∧ head c = last c ∧ A ∈ c ∧ B ∈ c.
Proof.
  intros (st & Hrun & ->)%findCircularDependenciesFuel_run.
  destruct (dfsRoot_loop _ _ _ _ _ Hrun (dfsInit_inv assets)) as (_ & _ & Hall).
  apply findAsset_Some in HA as HA'. destruct HA' as [Hin Hname].
  destruct (forEachM_transition _ (λ s, A ∈ visited s) _ _ _ Hrun)
    as (xs1 & x & xs2 & s1 & s2 & Hxs & H1 & Hcall & H2 & Hn1 & Hq2);
    [simpl; set_solver|rewrite <- Hname; by apply Hall|].
  destruct (dfsRoot_loop _ _ _ _ _ H1 (dfsInit_inv assets)) as (Hinv1 & _).
  destruct (dfsRoot_post _ _ _ _ _ Hcall Hinv1) as (Hinv2 & _).
  destruct (dfsRoot_loop _ _ _ _ _ H2 Hinv2) as (_ & Hg2 & _).
  apply (through_grows _ _ s2); [done|].
  unfold dfsRoot in Hcall. case_decide as Hx.
  - injection Hcall as <-. done.
  - eapply dfs_marks_pair; try done; apply walk_singleton.
Qed.
End MutualDependencyReported.

(** ** The topological orderer *)

Section TopologicalOrdererProofs.
Variable assets : list AssetInfo.

Lemma visit_unfold fuel x st :
  visit assets (S fuel) x st =
  if decide (x ∈ temp st) then Some st
  else if decide (x ∈ sortVisited st) then Some st
  else
    let st1 := {| sorted := sorted st; sortVisited := sortVisited st;
                  temp := {[x]} ∪ temp st |} in
    match findAsset assets x with
    | Some asset =>
        (λ st2, {| sorted := asset :: sorted st2;
                   sortVisited := {[x]} ∪ sortVisited st2;
                   temp := temp st2 ∖ {[x]} |})
          <$> forEachM (visitDep assets fuel) (depends asset) st1
    | None => Some st1
    end.
Proof. simpl. by repeat case_decide. Qed.

(** [visit] returns on every node, and hands [temp] back as it found it. *)
Lemma visit_total fuel : ∀ x st,
  isNode assets x → temp st ⊆ nodeSet assets →
  length assets < fuel + size (temp st) →
  ∃ st', visit assets fuel x st = Some st' ∧ temp st' = temp st.
Proof.
  induction fuel as [|fuel IH]; intros x st Hx Hsub Hfuel.
  { pose proof (subseteq_size _ _ Hsub). pose proof (size_nodeSet assets). lia. }
  rewrite visit_unfold.
  destruct (decide (x ∈ temp st)) as [Htemp|Htemp]; [eauto|].
  destruct (decide (x ∈ sortVisited st)) as [Hvis|Hvis]; [eauto|].
  destruct (isNode_findAsset _ _ Hx) as [a Ha]. rewrite Ha. cbv zeta.
  destruct (forEachM_total (visitDep assets fuel)
              (λ s, temp s = {[x]} ∪ temp st) (depends a))
    with (s := {| sorted := sorted st; sortVisited := sortVisited st;
                  temp := {[x]} ∪ temp st |}) as (st2 & -> & Hst2).
  - intros d s _ Hs. unfold visitDep.
    destruct (findAsset assets d) as [ad|] eqn:Hd; [|eauto].
    destruct (IH d s) as (s' & Hrun & Hs').
    + by eapply findAsset_isNode.
    + rewrite Hs. apply elem_of_nodeSet in Hx. set_solver.
    + rewrite Hs, size_union, size_singleton by set_solver. lia.
    + exists s'. split; [done|congruence].
  - done.
  - simpl. eexists; split; [done|]. simpl. rewrite Hst2. set_solver.
Qed.

Lemma topologicalSort_total : is_Some (topologicalSort assets).
Proof.
  unfold topologicalSort, topologicalSortFuel.
  destruct (forEachM_total (sortRoot assets (S (length assets)))
              (λ s, temp s = ∅) assets) with (s := sortInit) as (st & Hrun & _).
  - intros a s Ha Hs. unfold sortRoot. case_decide; [eauto|].
    destruct (visit_total (S (length assets)) (name a) s) as (s' & Hrun & Hs').
    + unfold isNode. by apply list_elem_of_fmap_2.
    + rewrite Hs. set_solver.
    + lia.
    + exists s'. split; [done|congruence].
  - done.
  - unfold sortRoot in Hrun. rewrite Hrun. by eexists.
Qed.

Lemma visit_fuel_mono fuel : ∀ fuel' x st st',
  visit assets fuel x st = Some st' → fuel ≤ fuel' →
  visit assets fuel' x st = Some st'.
Proof.
  induction fuel as [|fuel IH]; intros [|fuel'] x st st' Hrun Hle;
    [done|done|lia|].
  rewrite visit_unfold in *. repeat case_decide; try done.
  destruct (findAsset assets x) as [a|]; [|done]. cbv zeta in *.
  destruct (forEachM (visitDep assets fuel) _ _) as [st2|] eqn:Hloop; [|done].
  erewrite forEachM_mono; [done| |done].
  intros d s s' _. unfold visitDep.
  destruct (findAsset assets d); [|done]. intros Hd. apply IH; [done|lia].
Qed.

(** Any budget above the number of descriptors gives the same order. *)
Lemma topologicalSortFuel_total fuel :
  length assets < fuel →
  topologicalSortFuel assets fuel = topologicalSort assets.
Proof.
  intros Hfuel. destruct topologicalSort_total as [out Hout]. rewrite Hout.
  unfold topologicalSort, topologicalSortFuel in *.
  change (λ asset s, if decide (name asset ∈ sortVisited s) then Some s
                     else visit assets ?f (name asset) s)
    with (sortRoot assets f) in *.
  destruct (forEachM (sortRoot assets (S (length assets))) assets sortInit)
    as [st|] eqn:Hrun; [|done].
  erewrite forEachM_mono; [done| |exact Hrun].
  intros a s s' _. unfold sortRoot. case_decide; [done|].
  intros Hv. eapply visit_fuel_mono; [done|lia].
Qed.

Lemma topologicalSortFuel_run fuel out :
  topologicalSortFuel assets fuel = Some out →
  ∃ st, forEachM (sortRoot assets fuel) assets sortInit = Some st ∧
        out = sorted st.
Proof.
  unfold topologicalSortFuel.
  change (λ asset s, if decide (name asset ∈ sortVisited s) then Some s
                     else visit assets fuel (name asset) s)
    with (sortRoot assets fuel).
  destruct (forEachM _ _ _) as [st|]; [|done]. intros [= <-]. by exists st.
Qed.
End TopologicalOrdererProofs.

Section TopologicalOrdererAcyclic.
Variable assets : list AssetInfo.
Hypothesis Hacyclic : acyclic assets.

Lemma visit_loop fuel deps x : visitPost assets fuel → ∀ st st',
  forEachM (visitDep assets fuel) deps st = Some st' →
  sortInv assets st → x ∈ temp st →
  (∀ t, t ∈ temp st → t = x ∨ tc (edge assets) t x) →
  (∀ d, d ∈ deps → edge assets x d) →
  sortInv assets st' ∧ temp st' = temp st ∧
  sortVisited st ⊆ sortVisited st' ∧
  ∀ d, d ∈ deps → isNode assets d → d ∈ sortVisited st'.
Proof.
  intros IH. induction deps as [|d deps IHd]; intros st st' Hrun Hinv Hx Htemp Hedge.
  - simpl in Hrun. injection Hrun as <-. split_and!; [done|done|done|].
    intros d Hd. by apply elem_of_nil in Hd.
  - simpl in Hrun. destruct (visitDep assets fuel d st) as [s1|] eqn:Hd; [|done].
    assert (sortInv assets s1 ∧ temp s1 = temp st ∧
            sortVisited st ⊆ sortVisited s1 ∧
            (isNode assets d → d ∈ sortVisited s1)) as (Hinv1 & Ht1 & Hv1 & Hd1).
    { unfold visitDep in Hd. destruct (findAsset assets d) as [ad|] eqn:Had.
      - destruct (IH d st s1 Hd) as (? & ? & ? & ?);
          [by eapply findAsset_isNode|done| |done].
        intros t Ht.
        assert (edge assets x d) as He by (apply Hedge; by left).
        destruct (Htemp t Ht) as [->|Htx]; [by apply tc_once|].
        eapply tc_r; done.
      - injection Hd as <-. split_and!; [done|done|done|].
        intros Hnode. by apply findAsset_None in Had. }
    destruct (IHd s1 st' Hrun Hinv1) as (Hinv' & Ht' & Hv' & Hd').
    + by rewrite Ht1.
    + intros t Ht. apply Htemp. by rewrite <- Ht1.
    + intros e He. apply Hedge. by right.
    + split_and!; [done|congruence|set_solver|].
      intros e [->|He]%elem_of_cons Hnode; [|by auto]. set_solver.
Qed.

Lemma visit_post fuel : visitPost assets fuel.
Proof.
  induction fuel as [|fuel IH]; intros x st st' Hrun Hnode Hinv Htemp; [done|].
  rewrite visit_unfold in Hrun.
  destruct (decide (x ∈ temp st)) as [Hx|Hx].
  { destruct (Hacyclic x). by apply Htemp. }
  destruct (decide (x ∈ sortVisited st)) as [Hvis|Hvis].
  { injection Hrun as <-. done. }
  destruct (findAsset assets x) as [a|] eqn:Ha; cbv zeta in Hrun.
  - destruct (forEachM _ _ _) as [st2|] eqn:Hloop; [|done]. injection Hrun as <-.
    pose proof Hinv as [Hv Hnd Hres Hord Hdisj].
    destruct (visit_loop fuel (depends a) x IH _ _ Hloop) as (Hinv2 & Ht2 & Hv2 & Hd2).
    + split; simpl; try done. set_solver.
    + simpl. set_solver.
    + simpl. intros t [->%elem_of_singleton|Ht]%elem_of_union; auto.
    + intros d Hd. by eapply findAsset_edge.
    + simpl in *. destruct Hinv2 as [Hv' Hnd' Hres' Hord' Hdisj'].
      apply findAsset_Some in Ha as Ha'. destruct Ha' as [Hin Hname].
      assert (x ∉ sortVisited st2) as Hfresh.
      { intros H. apply (Hdisj' x); [rewrite Ht2; set_solver|done]. }
      split_and!.
      * split; simpl.
        -- intros y. rewrite elem_of_cons, elem_of_union,
             elem_of_singleton, Hname, Hv'. done.
        -- rewrite Hname. apply NoDup_cons. by rewrite <- Hv'.
        -- intros e [->|He]%elem_of_cons; [by rewrite Hname|by auto].
        -- split; [|done]. intros r Hr Hr'. rewrite <- Hv'. by apply Hd2.
        -- rewrite Ht2. set_solver.
      * rewrite Ht2. set_solver.
      * set_solver.
      * set_solver.
  - by apply findAsset_None in Ha.
Qed.
End TopologicalOrdererAcyclic.

Section TopologicalOrdererResult.
Variable assets : list AssetInfo.
Hypothesis Hacyclic : acyclic assets.

Lemma sortInit_inv : sortInv assets sortInit.
Proof.
  split; simpl.
  - intros x. set_solver.
  - constructor.
  - intros a Ha. by apply elem_of_nil in Ha.
  - done.
  - set_solver.
Qed.

Lemma sortRoot_loop fuel xs : ∀ s s',
  forEachM (sortRoot assets fuel) xs s = Some s' →
  (∀ a, a ∈ xs → a ∈ assets) → sortInv assets s → temp s = ∅ →
  sortInv assets s' ∧ temp s' = ∅ ∧ sortVisited s ⊆ sortVisited s' ∧
  ∀ a, a ∈ xs → name a ∈ sortVisited s'.
Proof.
  induction xs as [|x xs IH]; intros s s' Hrun Hsub Hinv Htemp.
  - simpl in Hrun. injection Hrun as <-. split_and!; [done|done|done|].
    intros a Ha. by apply elem_of_nil in Ha.
  - simpl in Hrun. destruct (sortRoot assets fuel x s) as [s1|] eqn:Hx; [|done].
    assert (sortInv assets s1 ∧ temp s1 = ∅ ∧
            sortVisited s ⊆ sortVisited s1 ∧ name x ∈ sortVisited s1)
      as (Hinv1 & Ht1 & Hv1 & Hx1).
    { unfold sortRoot in Hx. case_decide as Hvis.
      - injection Hx as <-. done.
      - destruct (visit_post assets Hacyclic fuel _ _ _ Hx) as (? & Ht & ? & ?).
        + unfold isNode. apply list_elem_of_fmap_2, Hsub. by left.
        + done.
        + rewrite Htemp. set_solver.
        + split_and!; [done|congruence|done|done]. }
    destruct (IH s1 s' Hrun) as (Hinv' & Ht' & Hv' & Hall'); [|done|done|].
    { intros a Ha. apply Hsub. by right. }
    split_and!; [done|done|set_solver|].
    intros a [->|Ha]%elem_of_cons; [set_solver|by auto].
Qed.

(** The order [topologicalSort] returns on an acyclic input. *)
Lemma topologicalSort_acyclic out :
  topologicalSort assets = Some out →
  NoDup (name <$> out) ∧
  (∀ a, a ∈ out → findAsset assets (name a) = Some a) ∧
  dependentsFirst assets out ∧
  (∀ a, a ∈ assets → name a ∈ name <$> out).
Proof.
  intros (st & Hrun & ->)%topologicalSortFuel_run.
  destruct (sortRoot_loop _ _ _ _ Hrun) as ([Hv Hnd Hres Hord _] & _ & _ & Hall);
    [done|apply sortInit_inv|done|].
  split_and!; [done|done|done|].
  intros a Ha. rewrite <- Hv. by apply Hall.
Qed.

Hypothesis Hdistinct : NoDup (name <$> assets).

Lemma same_name_same_asset x y :
  x ∈ assets → y ∈ assets → name x = name y → x = y.
Proof.
  intros Hx Hy Hxy.
  pose proof (findAsset_NoDup _ _ Hdistinct Hx) as H1.
  pose proof (findAsset_NoDup _ _ Hdistinct Hy) as H2.
  rewrite Hxy in H1. congruence.
Qed.

Lemma topologicalSort_permutation out :
  topologicalSort assets = Some out → out ≡ₚ assets.
Proof.
  intros (Hnd & Hres & _ & Hall)%topologicalSort_acyclic.
  apply NoDup_Permutation.
  - by apply NoDup_fmap_1 in Hnd.
  - by apply NoDup_fmap_1 in Hdistinct.
  - intros a. split.
    + intros Ha. by apply Hres, findAsset_Some in Ha as [? _].
    + intros Ha. destruct (list_elem_of_fmap_1 _ _ _ (Hall a Ha)) as (a' & Hn & Ha').
      assert (a' = a) as <-; [|done].
      apply same_name_same_asset; [|done|done].
      by apply Hres, findAsset_Some in Ha' as [? _].
Qed.

Lemma dependentsFirst_lookup out : ∀ i D r,
  dependentsFirst assets out → out !! i = Some D →
  r ∈ depends D → isNode assets r →
  ∃ j R, i < j ∧ out !! j = Some R ∧ name R = r.
Proof.
  induction out as [|a out IH]; intros i D r Hord Hi Hr Hnode; [done|].
  destruct Hord as [Hhead Htail]. destruct i as [|i]; simpl in Hi.
  - injection Hi as ->.
    destruct (list_elem_of_fmap_1 _ _ _ (Hhead r Hr Hnode)) as (R & -> & HR).
    apply list_elem_of_lookup in HR as [j Hj].
    exists (S j), R. split_and!; [lia|done|done].
  - destruct (IH i D r Htail Hi Hr Hnode) as (j & R & Hlt & Hj & Hn).
    exists (S j), R. split_and!; [lia|done|done].
Qed.

Lemma topologicalSort_order out D R :
  topologicalSort assets = Some out →
  D ∈ assets → R ∈ assets → name R ∈ depends D → precedes out D R.
Proof.
  intros Hout HD HR Hdep.
  pose proof (topologicalSort_permutation _ Hout) as Hperm.
  destruct (topologicalSort_acyclic _ Hout) as (_ & Hres & Hord & _).
  assert (D ∈ out) as [i Hi]%list_elem_of_lookup by (by rewrite Hperm).
  destruct (dependentsFirst_lookup out i D (name R) Hord Hi Hdep)
    as (j & R' & Hlt & Hj & Hn).
  { unfold isNode. by apply list_elem_of_fmap_2. }
  assert (R' = R) as ->.
  { apply same_name_same_asset; [|done|done].
    rewrite <- Hperm. by eapply list_elem_of_lookup_2. }
  by exists i, j.
Qed.
End TopologicalOrdererResult.

(** The lookup of [visit] is the only source of the descriptors it emits. *)
Lemma visit_resolved assets fuel : ∀ x st st',
  visit assets fuel x st = Some st' →
  (∀ d, d ∈ sorted st → findAsset assets (name d) = Some d) →
  ∀ d, d ∈ sorted st' → findAsset assets (name d) = Some d.
Proof.
  induction fuel as [|fuel IH]; intros x st st' Hrun Hres; [done|].
  rewrite visit_unfold in Hrun. repeat case_decide; try by injection Hrun as <-.
  destruct (findAsset assets x) as [a|] eqn:Ha; cbv zeta in Hrun.
  - destruct (forEachM _ _ _) as [st2|] eqn:Hloop; [|done]. injection Hrun as <-.
    simpl. intros d [->|Hd]%elem_of_cons.
    + apply findAsset_Some in Ha as Ha'. destruct Ha' as [_ ->]. done.
    + destruct (forEachM_inv (visitDep assets fuel)
                  (λ s, ∀ d, d ∈ sorted s → findAsset assets (name d) = Some d)
                  (λ _ _, True) (depends a))
        with (s := {| sorted := sorted st; sortVisited := sortVisited st;
                      temp := {[x]} ∪ temp st |}) (s' := st2) as [H' _];
        [done|done| |done|done|by apply H'].
      intros e s s' _ Hs He. split; [|done]. unfold visitDep in He.
      destruct (findAsset assets e); [by eapply IH|by injection He as <-].
  - by injection Hrun as <-.
Qed.

Lemma topologicalSort_resolved assets out d :
  topologicalSort assets = Some out → d ∈ out →
  findAsset assets (name d) = Some d.
Proof.
  intros (st & Hrun & ->)%topologicalSortFuel_run.
  destruct (forEachM_inv (sortRoot assets (S (length assets)))
              (λ s, ∀ d, d ∈ sorted s → findAsset assets (name d) = Some d)
              (λ _ _, True) assets) with (s := sortInit) (s' := st) as [H' _];
    [done|done| | |done|by apply H'].
  - intros a s s' _ Hs Ha. split; [|done]. unfold sortRoot in Ha.
    case_decide; [by injection Ha as <-|by eapply visit_resolved].
  - intros e He. by apply elem_of_nil in He.
Qed.

Lemma acyclic_rank assets (rank : string → nat) :
  (∀ x y, edge assets x y → rank y < rank x) → acyclic assets.
Proof.
  intros Hrank x Hx.
  assert (∀ u v, tc (edge assets) u v → rank v < rank u) as Htc.
  { induction 1 as [u v H|u v w H _ IH]; [by apply Hrank|].
    apply Hrank in H. lia. }
  apply Htc in Hx. lia.
Qed.

Lemma chainABC_acyclic : acyclic chainABC.
Proof.
  apply (acyclic_rank _ rankABC). intros x y (a & Ha & <- & Hy).
  unfold chainABC in Ha.
  repeat (apply elem_of_cons in Ha as [->|Ha]); [| | |by apply elem_of_nil in Ha];
    simpl in Hy;
    repeat (apply elem_of_cons in Hy as [->|Hy]);
    try (by apply elem_of_nil in Hy); vm_compute; lia.
Qed.

Lemma chainABC_distinct : NoDup (name <$> chainABC).
Proof. apply (bool_decide_unpack _). by vm_compute. Qed.

(** ** Claims about the topological orderer *)

(** C1 fails on the code.  The whole-set report prints the orderer's result
    as its numbered list [Recommended Registration Order].  On the
    specification's scenario [A], [B -> A], [C -> A, B], an acyclic set with
    distinct names, that list is [C; B; A]: every bundle stands before the
    bundles it depends on, so no order with dependencies first is returned. *)
Lemma dependencies_first_fails_on_chain :
  acyclic chainABC ∧ NoDup (name <$> chainABC) ∧
  topologicalSort chainABC = Some [bundle "C" ["A"; "B"]; bundle "B" ["A"]; bundle "A" []] ∧
  (∃ rootAssets complexAssets circularDeps,
     analyzeAssetDependencies None chainABC
     = Some (TreeReport rootAssets complexAssets circularDeps
               [bundle "C" ["A"; "B"]; bundle "B" ["A"]; bundle "A" []])) ∧
  ¬ ∃ out,
      topologicalSort chainABC = Some out ∧ out ≡ₚ chainABC ∧
      ∀ D R, D ∈ chainABC → R ∈ chainABC → name R ∈ depends D → precedes out R D.
Proof.
  split; [exact chainABC_acyclic|].
  split; [exact chainABC_distinct|].
  split; [by vm_compute|].
  split; [eexists _, _, _; by vm_compute|].
  intros (out & Hout & _ & Hord).
  vm_compute in Hout. injection Hout as <-.
  destruct (Hord (bundle "B" ["A"]) (bundle "A" [])) as (i & j & Hi & Hj & Hlt).
  - unfold chainABC. set_solver.
  - unfold chainABC. set_solver.
  - simpl. set_solver.
  - destruct i as [|[|[|i]]]; cbn in Hi; try discriminate.
    destruct j as [|[|[|j]]]; cbn in Hj; try discriminate; lia.
Qed.

(** C10. On an acyclic set of descriptors with pairwise distinct names the
    orderer emits dependents before dependencies: the returned sequence holds
    every descriptor exactly once, and whenever [D] declares the name of a
    descriptor [R] in the set, the position of [D] is strictly smaller than
    the position of [R]. *)
Theorem dependents_precede_dependencies (assets : list AssetInfo) :
  acyclic assets → NoDup (name <$> assets) →
  ∃ out,
    topologicalSort assets = Some out ∧ out ≡ₚ assets ∧ NoDup out ∧
    ∀ D R, D ∈ assets → R ∈ assets → name R ∈ depends D →
           (∃ i j, out !! i = Some D ∧ out !! j = Some R) ∧
           (∀ i j, out !! i = Some D → out !! j = Some R → i < j).
Proof.
  intros Hacyclic Hdistinct.
  destruct (topologicalSort_total assets) as [out Hout].
  pose proof (topologicalSort_permutation assets Hacyclic Hdistinct out Hout)
    as Hperm.
  assert (NoDup out) as Hnd.
  { rewrite Hperm. by apply NoDup_fmap_1 in Hdistinct. }
  exists out. split_and!; [done|done|done|].
  intros D R HD HR Hdep.
  destruct (topologicalSort_order assets Hacyclic Hdistinct out D R Hout HD HR Hdep)
    as (i0 & j0 & Hi0 & Hj0 & Hlt).
  split; [by exists i0, j0|].
  intros i j Hi Hj.
  rewrite (NoDup_lookup out i i0 D Hnd Hi Hi0).
  rewrite (NoDup_lookup out j j0 R Hnd Hj Hj0). done.
Qed.

Lemma dependents_precede_dependencies_witness :
  acyclic chainABC ∧ NoDup (name <$> chainABC) ∧
  ∃ out,
    topologicalSort chainABC = Some out ∧ out ≡ₚ chainABC ∧ NoDup out ∧
    ∀ D R, D ∈ chainABC → R ∈ chainABC → name R ∈ depends D →
           (∃ i j, out !! i = Some D ∧ out !! j = Some R) ∧
           (∀ i j, out !! i = Some D → out !! j = Some R → i < j).
Proof.
  split; [exact chainABC_acyclic|].
  split; [exact chainABC_distinct|].
  apply (dependents_precede_dependencies chainABC);
    [exact chainABC_acyclic|exact chainABC_distinct].
Defined.

(** C2, as the code has it.  On the two descriptors [X] (declaring [Y]) and
    [Y] (declaring [X]) the orderer returns, and its result keeps both:
    [X] first, then [Y]. *)
Theorem mutual_pair_is_ordered_in_full (x y : AssetInfo) :
  name x = "X" → depends x = ["Y"] → name y = "Y" → depends y = ["X"] →
  topologicalSort [x; y] = Some [x; y].
Proof.
  destruct x, y. simpl. intros -> -> -> ->. by vm_compute.
Qed.

Lemma mutual_pair_is_ordered_in_full_witness :
  name (bundle "X" ["Y"]) = "X" ∧ depends (bundle "X" ["Y"]) = ["Y"] ∧
  name (bundle "Y" ["X"]) = "Y" ∧ depends (bundle "Y" ["X"]) = ["X"] ∧
  topologicalSort cycleXY = Some cycleXY.
Proof.
  split_and!; [reflexivity..|].
  apply (mutual_pair_is_ordered_in_full (bundle "X" ["Y"]) (bundle "Y" ["X"]));
    reflexivity.
Defined.

(** C2, as the specification words it, fails: no result of the orderer on
    that input leaves out [X] or [Y]. *)
Lemma mutual_pair_omits_nothing :
  ¬ ∃ out, topologicalSort cycleXY = Some out ∧
           ("X" ∉ name <$> out ∨ "Y" ∉ name <$> out).
Proof.
  intros (out & Hout & Hmiss). vm_compute in Hout. injection Hout as <-.
  destruct Hmiss as [H|H]; apply H; simpl; set_solver.
Qed.

(** ** Claims about duplicate names *)

(** C3, as the code has it.  The analyses resolve a name with
    [assets.find], so of several descriptors that share a name the one that
    occurs first in the input shadows the others: the lookup returns it, the
    single-asset analysis reports it, the orderer emits no other descriptor
    of that name, and the cycle detector follows its dependencies only. *)
Theorem first_descriptor_shadows_later (pre post : list AssetInfo) (a : AssetInfo) :
  ¬ isNode pre (name a) →
  findAsset (pre ++ a :: post) (name a) = Some a ∧
  (name a ≠ "" →
   analyzeAssetDependencies (Some (name a)) (pre ++ a :: post)
   = Some (analyzeSpecificAsset a (pre ++ a :: post))) ∧
  (∃ out, topologicalSort (pre ++ a :: post) = Some out ∧
          ∀ d, d ∈ out → name d = name a → d = a) ∧
  (∃ found, findCircularDependencies (pre ++ a :: post) = Some found ∧
            ∀ c i y, c ∈ found → c !! i = Some (name a) → c !! S i = Some y →
                     y ∈ depends a).
Proof.
  intros Hfirst. pose proof (findAsset_first pre a post Hfirst) as Hfind.
  split_and!.
  - done.
  - intros Hne. unfold analyzeAssetDependencies, truthy.
    apply String.eqb_neq in Hne. by rewrite Hne, Hfind.
  - destruct (topologicalSort_total (pre ++ a :: post)) as [out Hout].
    exists out. split; [done|]. intros d Hd Hn.
    apply (topologicalSort_resolved _ _ _ Hout) in Hd. rewrite Hn in Hd. congruence.
  - destruct (findCircularDependenciesFuel_total (pre ++ a :: post)
                (S (length (pre ++ a :: post)))) as [_ [found Hfound]]; [lia|].
    exists found. split; [done|]. intros c i y Hc Hi Hy.
    pose proof (findCircularDependencies_good _ _ Hfound) as Hgood.
    rewrite Forall_forall in Hgood. destruct (Hgood c Hc) as (_ & _ & _ & Hwalk).
    destruct (Hwalk i _ _ Hi Hy) as (a' & Ha' & Hdep). congruence.
Qed.

Lemma first_descriptor_shadows_later_witness :
  ¬ isNode [] (name appA) ∧
  findAsset ([] ++ appA :: [shopA]) (name appA) = Some appA.
Proof.
  assert (¬ isNode [] (name appA)) as Hfirst.
  { unfold isNode. simpl. apply not_elem_of_nil. }
  split; [exact Hfirst|].
  exact (proj1 (first_descriptor_shadows_later [] [shopA] appA Hfirst)).
Defined.

(** C3, as the specification words it, fails: with two descriptors named
    [A], every analysis works with the first one.  The lookup returns it, the
    orderer emits it alone, the single-asset report describes it (and lists
    the later one as its dependent), and the self-dependency that only the
    later descriptor declares is not reported as a cycle. *)
Lemma later_descriptor_does_not_shadow :
  appA ≠ shopA ∧ name appA = name shopA ∧
  findAsset [appA; shopA] "A" = Some appA ∧
  topologicalSort [appA; shopA] = Some [appA] ∧
  analyzeAssetDependencies (Some "A") [appA; shopA]
  = Some (AssetReport appA [] [shopA]) ∧
  findCircularDependencies [appA; shopA] = Some [] ∧
  findCircularDependencies [shopA] = Some [["A"; "A"]].
Proof. split_and!; [discriminate|by vm_compute..]. Qed.

(** ** Claims about the single-asset query *)

(** C7, as the code has it.  For a requested name that is not the empty
    string: when no descriptor carries the name the query is rejected with a
    message that repeats the name; otherwise it succeeds with the report of
    the first descriptor of that name, made of its declared dependencies as
    they are (possibly none) and of the descriptors that declare the name. *)
Theorem single_asset_query (assets : list AssetInfo) (n : string) :
  n ≠ "" →
  (¬ isNode assets n →
   analyzeAssetDependencies (Some n) assets
   = Some (Rejected ("Failed to analyze asset dependencies: Asset '" +:+ n
                       +:+ "' not found"))) ∧
  (isNode assets n →
   ∃ asset, asset ∈ assets ∧ name asset = n ∧
            analyzeAssetDependencies (Some n) assets
            = Some (AssetReport asset (depends asset)
                      (List.filter (λ a, bool_decide (n ∈ depends a)) assets))).
Proof.
  intros Hne. unfold analyzeAssetDependencies, truthy.
  apply String.eqb_neq in Hne as Hneb. rewrite Hneb. split.
  - intros Habsent. apply findAsset_None in Habsent. by rewrite Habsent.
  - intros Hpresent. destruct (isNode_findAsset _ _ Hpresent) as [asset Hfind].
    rewrite Hfind. apply findAsset_Some in Hfind as [Hin Hname].
    exists asset. split_and!; [done|done|].
    unfold analyzeSpecificAsset. by rewrite Hname.
Qed.

Lemma single_asset_query_witness :
  "Z" ≠ "" ∧ ¬ isNode cycleXY "Z" ∧
  analyzeAssetDependencies (Some "Z") cycleXY
  = Some (Rejected "Failed to analyze asset dependencies: Asset 'Z' not found").
Proof.
  assert ("Z" ≠ "") as Hne by discriminate.
  assert (¬ isNode cycleXY "Z") as Habsent.
  { unfold isNode. apply (bool_decide_unpack _). by vm_compute. }
  split; [exact Hne|]. split; [exact Habsent|].
  exact (proj1 (single_asset_query cycleXY "Z" Hne) Habsent).
Defined.

(** C7, as the specification words it, fails for the empty name: it is the
    name of no descriptor, yet the query is not rejected; the guard
    [if (assetName)] sends it to the analysis of the whole set. *)
Lemma empty_name_is_not_rejected :
  ¬ isNode cycleXY "" ∧
  analyzeAssetDependencies (Some "") cycleXY
  = Some (TreeReport [] [] [["X"; "Y"; "X"]] cycleXY) ∧
  ∀ message, analyzeAssetDependencies (Some "") cycleXY ≠ Some (Rejected message).
Proof.
  split_and!.
  - unfold isNode. apply (bool_decide_unpack _). by vm_compute.
  - by vm_compute.
  - intros message. by vm_compute.
Qed.

(** ** The [$depends] extractor *)

Lemma append_cons x (a b : string) : String x a +:+ b = String x (a +:+ b).
Proof. done. Qed.

Lemma append_nil (b : string) : "" +:+ b = b.
Proof. done. Qed.

Lemma append_assoc (a b c : string) : (a +:+ b) +:+ c = a +:+ b +:+ c.
Proof. induction a as [|x a IH]; [done|]. rewrite !append_cons. by f_equal. Qed.

Ltac string_norm :=
  repeat (rewrite ?append_assoc, ?append_cons, ?append_nil).

Lemma append_length (a b : string) :
  String.length (a +:+ b) = String.length a + String.length b.
Proof. induction a as [|x a IH]; [done|]. rewrite append_cons. simpl. by f_equal. Qed.

Lemma span_spec p s a b :
  span p s = (a, b) → s = a +:+ b ∧ allChars p a = true ∧ stopsAt p b.
Proof.
  revert a b. induction s as [|c s IH]; intros a b; simpl.
  - by intros [= <- <-].
  - destruct (p c) eqn:Hc.
    + destruct (span p s) as [a' b'] eqn:Hs. intros [= <- <-].
      destruct (IH a' b' eq_refl) as (-> & Ha & Hb).
      rewrite append_cons. simpl. by rewrite Hc, Ha.
    + intros [= <- <-]. done.
Qed.

(** A greedy run takes exactly the characters of its class. *)
Lemma span_app p a b :
  allChars p a = true → stopsAt p b → span p (a +:+ b) = (a, b).
Proof.
  intros Ha Hb. induction a as [|c a IH].
  - rewrite append_nil. destruct b as [|c b]; [done|]. simpl in *. by rewrite Hb.
  - simpl in Ha. apply andb_true_iff in Ha as [Hc Ha].
    rewrite append_cons. simpl. by rewrite Hc, (IH Ha).
Qed.

Lemma matchQuoted_spec s m rest :
  matchQuoted s = Some (m, rest) →
  (∃ body, isQuotedLiteral m body) ∧ s = m +:+ rest.
Proof.
  unfold matchQuoted. destruct s as [|c s]; [done|].
  destruct (Ascii.eqb_spec c "'") as [->|]; [|done].
  destruct (span notQuote s) as [body tail] eqn:Hspan.
  apply span_spec in Hspan as (-> & Hbody & Hstop).
  destruct body as [|b body]; [done|]. destruct tail as [|q tail]; [done|].
  intros [= <- <-]. simpl in Hstop. unfold notQuote in Hstop.
  apply negb_false_iff in Hstop. apply Ascii.eqb_eq in Hstop as ->.
  split.
  - exists (String b body). split_and!; [done|done|done].
  - by string_norm.
Qed.

Lemma matchScoped_spec s m rest :
  matchScoped s = Some (m, rest) → isScopedConstant m ∧ s = m +:+ rest.
Proof.
  unfold matchScoped. destruct (span isWordChar s) as [scope tail] eqn:Hspan.
  apply span_spec in Hspan as (-> & Hscope & _).
  destruct scope as [|a scope]; [done|].
  destruct tail as [|c1 [|c2 tail]]; [done|done|].
  destruct (Ascii.eqb_spec c1 ":") as [->|]; [|done].
  destruct (Ascii.eqb_spec c2 ":") as [->|]; [|done]. simpl.
  destruct (span isWordChar tail) as [const rest'] eqn:Hspan.
  apply span_spec in Hspan as (-> & Hconst & _).
  destruct const as [|b const]; [done|]. intros [= <- <-].
  split.
  - exists (String a scope), (String b const). split_and!; done.
  - by string_norm.
Qed.

Lemma matchAt_spec s m rest :
  matchAt s = Some (m, rest) →
  ((∃ body, isQuotedLiteral m body) ∨ isScopedConstant m) ∧ s = m +:+ rest.
Proof.
  unfold matchAt. destruct (matchQuoted s) as [[m' rest']|] eqn:Hq.
  - intros [= <- <-]. apply matchQuoted_spec in Hq as [? ?]. auto.
  - intros [? ?]%matchScoped_spec. auto.
Qed.

Lemma shape_nonempty m :
  (∃ body, isQuotedLiteral m body) ∨ isScopedConstant m → 0 < String.length m.
Proof.
  intros [(body & -> & _)|(scope & const & -> & Hs & _)].
  - rewrite append_cons. simpl. lia.
  - destruct scope; [done|]. rewrite append_cons. simpl. lia.
Qed.

Lemma matchAt_shorter s m rest :
  matchAt s = Some (m, rest) → String.length rest < String.length s.
Proof.
  intros [Hshape ->]%matchAt_spec. apply shape_nonempty in Hshape.
  rewrite append_length. lia.
Qed.

(** The matcher returns: the length of the text is budget enough. *)
Lemma matchAll_total fuel : ∀ s,
  String.length s ≤ fuel → is_Some (matchAll fuel s).
Proof.
  induction fuel as [|fuel IH]; intros [|c s] Hlen; simpl in *;
    [by eexists|lia|by eexists|].
  destruct (matchAt (String c s)) as [[m rest]|] eqn:Hm.
  - apply matchAt_shorter in Hm. simpl in Hm.
    destruct (IH rest) as [ms ->]; [lia|]. by eexists.
  - apply IH. lia.
Qed.

Lemma matchAll_mono fuel : ∀ fuel' s ms,
  matchAll fuel s = Some ms → fuel ≤ fuel' → matchAll fuel' s = Some ms.
Proof.
  induction fuel as [|fuel IH]; intros fuel' [|c s] ms Hrun Hle;
    [by destruct fuel'|done|by destruct fuel'|].
  destruct fuel' as [|fuel']; [lia|]. simpl in *.
  destruct (matchAt (String c s)) as [[m rest]|].
  - destruct (matchAll fuel rest) as [ms'|] eqn:Hrest; [|done].
    by rewrite (IH fuel' rest ms' Hrest) by lia.
  - apply IH; [done|lia].
Qed.

Lemma matchAll_exact fuel s :
  String.length s ≤ fuel → matchAll fuel s = matchAll (String.length s) s.
Proof.
  intros Hlen. destruct (matchAll_total (String.length s) s) as [ms Hms]; [done|].
  rewrite Hms. by apply (matchAll_mono (String.length s)).
Qed.

Lemma occursIn_head m rest : occursIn m (m +:+ rest).
Proof. by exists "", rest. Qed.

Lemma occursIn_after m a s : occursIn m s → occursIn m (a +:+ s).
Proof.
  intros (before & after & ->). exists (a +:+ before), after. by string_norm.
Qed.

(** Every match is an occurrence of one of the two shapes. *)
Lemma matchAll_sound fuel : ∀ s ms,
  matchAll fuel s = Some ms →
  Forall (λ m, occursIn m s ∧
               ((∃ body, isQuotedLiteral m body) ∨ isScopedConstant m)) ms.
Proof.
  induction fuel as [|fuel IH]; intros [|c s] ms Hrun; simpl in Hrun;
    [by injection Hrun as <-|done|by injection Hrun as <-|].
  destruct (matchAt (String c s)) as [[m rest]|] eqn:Hm.
  - destruct (matchAll fuel rest) as [ms'|] eqn:Hrest; [|done].
    injection Hrun as <-. apply matchAt_spec in Hm as [Hshape Hs].
    rewrite Hs. constructor; [split; [apply occursIn_head|done]|].
    eapply Forall_impl; [by apply IH|]. intros m' [Hocc ?].
    split; [by apply occursIn_after|done].
  - eapply Forall_impl; [by apply IH|]. intros m' [Hocc ?].
    split; [|done]. by apply (occursIn_after m' (String c "")).
Qed.

Lemma stripQuotes_app a b :
  stripQuotes (a +:+ b) = stripQuotes a +:+ stripQuotes b.
Proof.
  induction a as [|c a IH]; [done|]. rewrite append_cons. simpl.
  destruct (notQuote c); [by rewrite append_cons, IH|done].
Qed.

Lemma stripQuotes_id s : allChars notQuote s = true → stripQuotes s = s.
Proof.
  induction s as [|c s IH]; simpl; [done|].
  intros [-> Hs]%andb_true_iff. by rewrite IH.
Qed.

Lemma allChars_app p a b :
  allChars p (a +:+ b) = allChars p a && allChars p b.
Proof.
  induction a as [|c a IH]; [done|]. rewrite append_cons. simpl.
  by rewrite IH, andb_assoc.
Qed.

Lemma isWordChar_notQuote c : isWordChar c = true → notQuote c = true.
Proof.
  intros Hc. unfold notQuote. destruct (Ascii.eqb_spec c "'") as [->|]; [|done].
  by vm_compute in Hc.
Qed.

Lemma allChars_word_notQuote s :
  allChars isWordChar s = true → allChars notQuote s = true.
Proof.
  induction s as [|c s IH]; simpl; [done|].
  intros [Hc Hs]%andb_true_iff. by rewrite (isWordChar_notQuote c Hc), IH.
Qed.

(** The recorded identifier of a quoted literal is its content. *)
Lemma stripQuotes_quoted m body : isQuotedLiteral m body → stripQuotes m = body.
Proof.
  intros (-> & _ & Hbody). rewrite !stripQuotes_app, (stripQuotes_id body Hbody).
  change (stripQuotes "'") with "". rewrite append_nil.
  clear. induction body as [|c body IH]; [done|]. rewrite append_cons. by f_equal.
Qed.

(** The recorded identifier of a [Scope::Constant] reference is its text. *)
Lemma stripQuotes_scoped m : isScopedConstant m → stripQuotes m = m.
Proof.
  intros (scope & const & -> & _ & _ & Hs & Hc). apply stripQuotes_id.
  rewrite !allChars_app, (allChars_word_notQuote _ Hs), (allChars_word_notQuote _ Hc).
  done.
Qed.

Lemma matchAt_quoted body rest :
  body ≠ "" → allChars notQuote body = true →
  matchAt ("'" +:+ body +:+ "'" +:+ rest) = Some ("'" +:+ body +:+ "'", rest).
Proof.
  intros Hne Hbody. unfold matchAt, matchQuoted. rewrite append_cons, append_nil.
  change (Ascii.eqb "'" "'") with true. cbv iota.
  rewrite (span_app notQuote body ("'" +:+ rest) Hbody) by done.
  destruct body as [|b body]; [done|]. by rewrite append_cons, append_nil.
Qed.

Lemma matchAt_scoped scope const rest :
  scope ≠ "" → const ≠ "" →
  allChars isWordChar scope = true → allChars isWordChar const = true →
  stopsAt isWordChar rest →
  matchAt (scope +:+ "::" +:+ const +:+ rest)
  = Some (scope +:+ "::" +:+ const, rest).
Proof.
  intros Hs Hc Hscope Hconst Hrest.
  destruct scope as [|a scope]; [done|]. destruct const as [|b const]; [done|].
  unfold matchAt, matchQuoted. rewrite append_cons.
  simpl in Hscope. apply andb_true_iff in Hscope as [Ha Hscope].
  pose proof (isWordChar_notQuote a Ha) as Hq. unfold notQuote in Hq.
  apply negb_true_iff in Hq. rewrite Hq.
  unfold matchScoped. rewrite <- append_cons.
  rewrite (span_app isWordChar (String a scope) ("::" +:+ String b const +:+ rest));
    [|by simpl; rewrite Ha, Hscope|done].
  change ("::" +:+ String b const +:+ rest)
    with (String ":" (String ":" (String b const +:+ rest))).
  cbv beta iota. change (Ascii.eqb ":" ":") with true. cbv beta iota delta [andb].
  by rewrite (span_app isWordChar (String b const) rest Hconst Hrest).
Qed.

Lemma extractDependencies_match s m rest :
  matchAt s = Some (m, rest) →
  extractDependencies s = cons (stripQuotes m) <$> extractDependencies rest.
Proof.
  intros Hm. pose proof (matchAt_shorter _ _ _ Hm) as Hlen.
  unfold extractDependencies. destruct s as [|c s]; [done|].
  simpl String.length in *. simpl matchAll. rewrite Hm.
  rewrite (matchAll_exact (String.length s) rest) by lia.
  by destruct (matchAll (String.length rest) rest).
Qed.

Lemma extractDependencies_skip c s :
  matchAt (String c s) = None →
  extractDependencies (String c s) = extractDependencies s.
Proof.
  intros Hm. unfold extractDependencies. simpl String.length. simpl matchAll.
  by rewrite Hm.
Qed.

Lemma extractDependencies_sound dependsContent :
  ∃ matches,
    extractDependencies dependsContent = Some (stripQuotes <$> matches) ∧
    Forall (λ m, occursIn m dependsContent ∧
                 ((∃ body, isQuotedLiteral m body ∧ stripQuotes m = body) ∨
                  (isScopedConstant m ∧ stripQuotes m = m))) matches.
Proof.
  unfold extractDependencies.
  destruct (matchAll_total (String.length dependsContent) dependsContent)
    as [ms Hms]; [done|].
  exists ms. rewrite Hms. split; [done|].
  eapply Forall_impl; [by eapply matchAll_sound|].
  intros m [Hocc [[body Hq]|Hs]]; (split; [done|]).
  - left. exists body. split; [done|by apply stripQuotes_quoted].
  - right. split; [done|by apply stripQuotes_scoped].
Qed.

(** ** The claims at the specification's scenarios *)

Lemma cycles_are_closed_sequences_witness :
  acyclic chainABC ∧ findCircularDependencies chainABC = Some [].
Proof.
  split; [exact chainABC_acyclic|].
  destruct (cycles_are_closed_sequences chainABC) as (found & Hfound & _ & Hnone).
  rewrite Hfound. f_equal. exact (Hnone chainABC_acyclic).
Defined.

Lemma cycle_detector_total_witness :
  length cycleXY < 7 ∧
  findCircularDependenciesFuel cycleXY 7 = findCircularDependencies cycleXY.
Proof.
  assert (length cycleXY < 7) as Hfuel by (simpl; lia).
  split; [exact Hfuel|].
  destruct (proj1 (cycle_detector_total cycleXY)) as (found & Hfound & Hany).
  rewrite Hfound. exact (Hany 7 Hfuel).
Defined.

Lemma absent_names_never_cycle_witness :
  ¬ isNode cycleXY "yii\web\JqueryAsset" ∧
  (∀ y, y ∈ recursionStack dfsInit → isNode cycleXY y) ∧
  ∃ st', dfs cycleXY 1 "yii\web\JqueryAsset" [] dfsInit = Some st' ∧
         cycles st' = cycles dfsInit ∧
         recursionStack st' = recursionStack dfsInit ∧
         visited st' = {["yii\web\JqueryAsset"]} ∪ visited dfsInit.
Proof.
  assert (¬ isNode cycleXY "yii\web\JqueryAsset") as Habsent.
  { unfold isNode. apply (bool_decide_unpack _). by vm_compute. }
  assert (∀ y, y ∈ recursionStack dfsInit → isNode cycleXY y) as Hstack.
  { intros y Hy. simpl in Hy. by apply not_elem_of_empty in Hy. }
  split; [exact Habsent|]. split; [exact Hstack|].
  exact (proj1 (absent_names_never_cycle cycleXY) 0 _ [] dfsInit Habsent Hstack).
Defined.

(** The scenarios of the specification, evaluated. *)

Example scenario_chain_has_no_cycle :
  findCircularDependencies chainABC = Some [].
Proof. by vm_compute. Qed.

Example scenario_mutual_pair_cycle :
  findCircularDependencies cycleXY = Some [["X"; "Y"; "X"]].
Proof. by vm_compute. Qed.

Example scenario_external_dependency :
  topologicalSort [bundle "A" ["yii\web\JqueryAsset"]]
  = Some [bundle "A" ["yii\web\JqueryAsset"]].
Proof. by vm_compute. Qed.

Example scenario_three_cycle :
  findCircularDependencies
    [bundle "A" ["B"; "C"]; bundle "B" ["C"]; bundle "C" ["A"]]
  = Some [["A"; "B"; "C"; "A"]].
Proof. by vm_compute. Qed.

Example scenario_bundle_source :
  parseDepends "class AppAsset extends AssetBundle
{
    public $css = ['css/site.css'];
    public $depends = [
        'yii\web\YiiAsset',
        JqueryAsset::class,
    ];
}"
  = Some ["yii\web\YiiAsset"; "JqueryAsset::class"].
Proof. by vm_compute. Qed.

(** * Further properties of the analysis *)

(** ** The orderer on arbitrary input, cycles included *)

Section TopologicalOrdererAny.
Variable assets : list AssetInfo.

Lemma visit_loop_any fuel deps x : visitPostAny assets fuel → ∀ st st',
  forEachM (visitDep assets fuel) deps st = Some st' →
  sortInvAny assets st →
  (∀ t, t ∈ temp st → t = x ∨ tc (resolvedEdge assets) t x) →
  (∀ d, d ∈ deps → resolvedEdge assets x d) →
  sortInvAny assets st' ∧ temp st' = temp st ∧
  sortVisited st ⊆ sortVisited st' ∧
  ∀ d, d ∈ deps → isNode assets d → d ∈ sortVisited st' ∨ d ∈ temp st.
Proof.
  intros IH. induction deps as [|d deps IHd]; intros st st' Hrun Hinv Htemp Hedge.
  - simpl in Hrun. injection Hrun as <-. split_and!; [done|done|done|].
    intros d Hd. by apply elem_of_nil in Hd.
  - simpl in Hrun. destruct (visitDep assets fuel d st) as [s1|] eqn:Hd; [|done].
    assert (sortInvAny assets s1 ∧ temp s1 = temp st ∧
            sortVisited st ⊆ sortVisited s1 ∧
            (isNode assets d → d ∈ sortVisited s1 ∨ d ∈ temp st))
      as (Hinv1 & Ht1 & Hv1 & Hd1).
    { unfold visitDep in Hd. destruct (findAsset assets d) as [ad|] eqn:Had.
      - destruct (IH d st s1 Hd) as (? & ? & ? & ?);
          [by eapply findAsset_isNode|done| |done].
        intros t Ht.
        assert (resolvedEdge assets x d) as He by (apply Hedge; by left).
        destruct (Htemp t Ht) as [->|Htx]; [by apply tc_once|].
        eapply tc_r; done.
      - injection Hd as <-. split_and!; [done|done|done|].
        intros Hnode. by apply findAsset_None in Had. }
    destruct (IHd s1 st' Hrun Hinv1) as (Hinv' & Ht' & Hv' & Hd').
    + intros t Ht. apply Htemp. by rewrite <- Ht1.
    + intros e He. apply Hedge. by right.
    + split_and!; [done|congruence|set_solver|].
      intros e [->|He]%elem_of_cons Hnode.
      * destruct (Hd1 Hnode); [left; set_solver|by right].
      * rewrite <- Ht1. by apply Hd'.
Qed.

Lemma visit_post_any fuel : visitPostAny assets fuel.
Proof.
  induction fuel as [|fuel IH]; intros x st st' Hrun Hnode Hinv Htemp; [done|].
  rewrite visit_unfold in Hrun.
  destruct (decide (x ∈ temp st)) as [Hx|Hx].
  { injection Hrun as <-. split_and!; [done|done|done|by right]. }
  destruct (decide (x ∈ sortVisited st)) as [Hvis|Hvis].
  { injection Hrun as <-. split_and!; [done|done|done|by left]. }
  destruct (findAsset assets x) as [a|] eqn:Ha; cbv zeta in Hrun.
  - destruct (forEachM _ _ _) as [st2|] eqn:Hloop; [|done]. injection Hrun as <-.
    pose proof Hinv as [Hv Hnd Hres Hord Hdisj].
    destruct (visit_loop_any fuel (depends a) x IH _ _ Hloop)
      as (Hinv2 & Ht2 & Hv2 & Hd2).
    + split; simpl; try done. set_solver.
    + simpl. intros t [->%elem_of_singleton|Ht]%elem_of_union; auto.
    + intros d Hd. by eapply findAsset_resolved.
    + simpl in *. destruct Hinv2 as [Hv' Hnd' Hres' Hord' Hdisj'].
      apply findAsset_Some in Ha as Ha'. destruct Ha' as [Hin Hname].
      assert (x ∉ sortVisited st2) as Hfresh.
      { intros H. apply (Hdisj' x); [rewrite Ht2; set_solver|done]. }
      split_and!.
      * split; simpl.
        -- intros y. rewrite elem_of_cons, elem_of_union,
             elem_of_singleton, Hname, Hv'. done.
        -- rewrite Hname. apply NoDup_cons. by rewrite <- Hv'.
        -- intros e [->|He]%elem_of_cons; [by rewrite Hname|by auto].
        -- split; [|done]. intros r Hr Hr'. rewrite Hname.
           destruct (Hd2 r Hr Hr') as [Hdone|[->%elem_of_singleton|Hopen]%elem_of_union].
           ++ left. by rewrite <- Hv'.
           ++ right. apply tc_once. by eapply findAsset_resolved.
           ++ right. by apply Htemp.
        -- rewrite Ht2. set_solver.
      * rewrite Ht2. set_solver.
      * set_solver.
      * left. set_solver.
  - by apply findAsset_None in Ha.
Qed.

Lemma sortInit_inv_any : sortInvAny assets sortInit.
Proof.
  split; simpl.
  - intros x. set_solver.
  - constructor.
  - intros a Ha. by apply elem_of_nil in Ha.
  - done.
  - set_solver.
Qed.

Lemma sortRoot_loop_any fuel xs : ∀ s s',
  forEachM (sortRoot assets fuel) xs s = Some s' →
  (∀ a, a ∈ xs → a ∈ assets) → sortInvAny assets s → temp s = ∅ →
  sortInvAny assets s' ∧ temp s' = ∅ ∧ sortVisited s ⊆ sortVisited s' ∧
  ∀ a, a ∈ xs → name a ∈ sortVisited s'.
Proof.
  induction xs as [|x xs IH]; intros s s' Hrun Hsub Hinv Htemp.
  - simpl in Hrun. injection Hrun as <-. split_and!; [done|done|done|].
    intros a Ha. by apply elem_of_nil in Ha.
  - simpl in Hrun. destruct (sortRoot assets fuel x s) as [s1|] eqn:Hx; [|done].
    assert (sortInvAny assets s1 ∧ temp s1 = ∅ ∧
            sortVisited s ⊆ sortVisited s1 ∧ name x ∈ sortVisited s1)
      as (Hinv1 & Ht1 & Hv1 & Hx1).
    { unfold sortRoot in Hx. case_decide as Hvis.
      - injection Hx as <-. done.
      - destruct (visit_post_any fuel _ _ _ Hx) as (? & Ht & ? & Hdone).
        + unfold isNode. apply list_elem_of_fmap_2, Hsub. by left.
        + done.
        + rewrite Htemp. set_solver.
        + split_and!; [done|congruence|done|].
          destruct Hdone as [?|Hopen]; [done|]. rewrite Htemp in Hopen. set_solver. }
    destruct (IH s1 s' Hrun) as (Hinv' & Ht' & Hv' & Hall'); [|done|done|].
    { intros a Ha. apply Hsub. by right. }
    split_and!; [done|done|set_solver|].
    intros a [->|Ha]%elem_of_cons; [set_solver|by auto].
Qed.

Lemma orderedUpToCycles_lookup out : ∀ i D r,
  orderedUpToCycles assets out → out !! i = Some D →
  r ∈ depends D → isNode assets r →
  (∃ j R, i < j ∧ out !! j = Some R ∧ name R = r) ∨
  tc (resolvedEdge assets) r (name D).
Proof.
  induction out as [|a out IH]; intros i D r Hord Hi Hr Hnode; [done|].
  destruct Hord as [Hhead Htail]. destruct i as [|i]; simpl in Hi.
  - injection Hi as ->. destruct (Hhead r Hr Hnode) as [Hlater|Hback]; [|by right].
    left. destruct (list_elem_of_fmap_1 _ _ _ Hlater) as (R & -> & HR).
    apply list_elem_of_lookup in HR as [j Hj].
    exists (S j), R. split_and!; [lia|done|done].
  - destruct (IH i D r Htail Hi Hr Hnode) as [(j & R & Hlt & Hj & Hn)|Hback];
      [|by right].
    left. exists (S j), R. split_and!; [lia|done|done].
Qed.

Lemma topologicalSort_any out :
  topologicalSort assets = Some out →
  sortInvAny assets {| sorted := out; sortVisited := nodeSet assets; temp := ∅ |}.
Proof.
  intros (st & Hrun & ->)%topologicalSortFuel_run.
  destruct (sortRoot_loop_any _ _ _ _ Hrun)
    as ([Hv Hnd Hres Hord Hdisj] & Htemp & _ & Hall);
    [done|apply sortInit_inv_any|done|].
  split; simpl; [|done|done|done|set_solver].
  intros n. rewrite elem_of_nodeSet. split.
  - intros (a & -> & Ha)%list_elem_of_fmap_1. rewrite <- Hv. by apply Hall.
  - intros (d & -> & Hd)%list_elem_of_fmap_1. by eapply findAsset_isNode, Hres.
Qed.
End TopologicalOrdererAny.

(** X1. On every input, cyclic or not, the orderer returns, and its result
    holds exactly one descriptor for every name of the input: the first one
    that carries the name.  When the names are pairwise distinct the result
    is therefore a rearrangement of the input: no descriptor is dropped. *)
Theorem order_keeps_every_name (assets : list AssetInfo) :
  ∃ out,
    topologicalSort assets = Some out ∧
    NoDup (name <$> out) ∧
    (∀ n, n ∈ name <$> out ↔ isNode assets n) ∧
    (∀ d, d ∈ out → findAsset assets (name d) = Some d) ∧
    (NoDup (name <$> assets) → out ≡ₚ assets).
Proof.
  destruct (topologicalSort_total assets) as [out Hout]. exists out.
  split; [done|].
  destruct (topologicalSort_any assets out Hout) as [Hv Hnd Hres _ _].
  simpl in *. setoid_rewrite elem_of_nodeSet in Hv.
  split_and!; [done|by intros n; rewrite Hv|done|].
  intros Hdistinct. apply NoDup_Permutation.
  - by apply NoDup_fmap_1 in Hnd.
  - by apply NoDup_fmap_1 in Hdistinct.
  - intros a. split.
    + intros Ha. by apply Hres, findAsset_Some in Ha as [? _].
    + intros Ha.
      assert (name a ∈ name <$> out) as (a' & Hn & Ha')%list_elem_of_fmap_1.
      { apply Hv. unfold isNode. by apply list_elem_of_fmap_2. }
      pose proof (Hres a' Ha') as Hfind.
      rewrite <- Hn, (findAsset_NoDup _ _ Hdistinct Ha) in Hfind.
      by injection Hfind as ->.
Qed.

(** X2. In the order returned for any input, a descriptor stands before the
    descriptor of each dependency it declares, unless that dependency leads
    back to it along declared dependencies: only members of a common cycle
    can be out of order. *)
Theorem order_violations_lie_on_cycles (assets : list AssetInfo)
    (out : list AssetInfo) (i : nat) (D : AssetInfo) (r : string) :
  topologicalSort assets = Some out →
  out !! i = Some D → r ∈ depends D → isNode assets r →
  (∃ j R, i < j ∧ out !! j = Some R ∧ name R = r) ∨
  tc (resolvedEdge assets) r (name D).
Proof.
  intros Hout Hi Hr Hnode.
  destruct (topologicalSort_any assets out Hout) as [_ _ _ Hord _].
  by eapply orderedUpToCycles_lookup.
Qed.

Lemma order_violations_lie_on_cycles_witness :
  topologicalSort cycleXY = Some cycleXY ∧
  cycleXY !! 1 = Some (bundle "Y" ["X"]) ∧
  "X" ∈ depends (bundle "Y" ["X"]) ∧ isNode cycleXY "X" ∧
  ((∃ j R, 1 < j ∧ cycleXY !! j = Some R ∧ name R = "X") ∨
   tc (resolvedEdge cycleXY) "X" (name (bundle "Y" ["X"]))).
Proof.
  assert (topologicalSort cycleXY = Some cycleXY) as Hout by (by vm_compute).
  assert ("X" ∈ depends (bundle "Y" ["X"])) as Hdep by (simpl; left).
  assert (isNode cycleXY "X") as Hnode by (unfold isNode; simpl; left).
  split; [exact Hout|]. split; [reflexivity|]. split; [exact Hdep|].
  split; [exact Hnode|].
  exact (order_violations_lie_on_cycles cycleXY cycleXY 1 _ "X" Hout eq_refl Hdep Hnode).
Defined.

(** ** The detector reports simple cycles only *)

Section CycleDetectorSimple.
Variable assets : list AssetInfo.

Lemma dfs_simple_loop fuel deps path :
  (∀ x st st', dfs assets fuel x path st = Some st' →
               dfsInv assets path st → walk (resolvedEdge assets) (path ++ [x]) →
               Forall simpleCycle (cycles st) → Forall simpleCycle (cycles st')) →
  ∀ st st',
    forEachM (λ d s, dfs assets fuel d path s) deps st = Some st' →
    dfsInv assets path st →
    (∀ d, d ∈ deps → walk (resolvedEdge assets) (path ++ [d])) →
    Forall simpleCycle (cycles st) → Forall simpleCycle (cycles st').
Proof.
  intros IH. induction deps as [|d deps IHd]; intros st st' Hrun Hinv Hw Hsimple.
  - simpl in Hrun. by injection Hrun as <-.
  - simpl in Hrun. destruct (dfs assets fuel d path st) as [s1|] eqn:Hd; [|done].
    destruct (dfs_post assets fuel _ _ _ _ Hd Hinv) as (Hinv1 & _); [apply Hw; by left|].
    apply (IHd s1 st' Hrun Hinv1); [intros; apply Hw; by right|].
    eapply IH; [done|done|apply Hw; by left|done].
Qed.

Lemma dfs_simple fuel : ∀ x path st st',
  dfs assets fuel x path st = Some st' →
  dfsInv assets path st → walk (resolvedEdge assets) (path ++ [x]) →
  NoDup path →
  Forall simpleCycle (cycles st) → Forall simpleCycle (cycles st').
Proof.
  induction fuel as [|fuel IH]; intros x path st st' Hrun Hinv Hwx Hnd Hsimple;
    [done|].
  rewrite dfs_unfold in Hrun.
  destruct (decide (x ∈ recursionStack st)) as [Hstack|Hstack].
  { destruct (indexOf x path) as [i|] eqn:Hi; injection Hrun as <-; [|done].
    simpl. apply Forall_app. split; [done|]. apply Forall_singleton.
    apply indexOf_Some in Hi. exists x, (drop (S i) path).
    split; [by apply cycle_slice_shape|].
    rewrite <- (drop_S _ _ _ Hi). eapply sublist_NoDup; [exact Hnd|]. apply sublist_drop. }
  destruct (decide (x ∈ visited st)) as [Hvis|Hvis].
  { by injection Hrun as <-. }
  destruct (findAsset assets x) as [a|] eqn:Ha.
  - destruct (forEachM _ _ _) as [st2|] eqn:Hloop; [|done]. injection Hrun as <-.
    simpl.
    eapply (dfs_simple_loop fuel (depends a) (path ++ [x])); [|exact Hloop| | |done].
    + intros d s s' Hd Hs Hwd. eapply IH; [done|done|done|].
      apply NoDup_app. split_and!; [done| |apply NoDup_singleton].
      intros y Hy ->%list_elem_of_singleton.
      by apply Hstack, (inv_stack _ _ _ Hinv).
    + by eapply enterState_inv.
    + intros d Hd. apply walk_snoc; [done|]. by eapply findAsset_resolved.
  - by injection Hrun as <-.
Qed.

Lemma findCircularDependencies_simple found :
  findCircularDependencies assets = Some found → Forall simpleCycle found.
Proof.
  intros (st & Hrun & ->)%findCircularDependenciesFuel_run.
  assert (∀ xs s s',
            forEachM (dfsRoot assets (S (length assets))) xs s = Some s' →
            dfsInv assets [] s → Forall simpleCycle (cycles s) →
            Forall simpleCycle (cycles s')) as Hloop.
  { induction xs as [|x xs IH]; intros s s' Hxs Hinv Hsimple; simpl in Hxs.
    - by injection Hxs as <-.
    - destruct (dfsRoot assets _ x s) as [s1|] eqn:Hx; [|done].
      destruct (dfsRoot_post _ _ _ _ _ Hx Hinv) as (Hinv1 & _).
      apply (IH s1 s' Hxs Hinv1). unfold dfsRoot in Hx. case_decide.
      + by injection Hx as <-.
      + eapply dfs_simple; [done|done|apply walk_singleton|constructor|done]. }
  eapply Hloop; [done|apply dfsInit_inv|constructor].
Qed.
End CycleDetectorSimple.

(** C4. When [A] and [B] are names of descriptors such that the descriptor of
    [A] declares [B] and the descriptor of [B] declares [A], the detector
    reports a cycle of the dependency graph that begins and ends with the
    same name and contains both [A] and [B]: in the reported sequence every
    name is followed by a dependency that its descriptor declares, and no
    name but the closing one is repeated. *)
Theorem mutual_dependency_reported (assets : list AssetInfo)
    (A B : string) (a b : AssetInfo) :
  findAsset assets A = Some a → B ∈ depends a →
  findAsset assets B = Some b → A ∈ depends b →
  ∃ found c,
    findCircularDependencies assets = Some found ∧ c ∈ found ∧
    is_Some (head c) ∧ head c = last c ∧ A ∈ c ∧ B ∈ c ∧
    (∃ x l, c = x :: l ++ [x] ∧ NoDup (x :: l)) ∧
    (∀ i u v, c !! i = Some u → c !! S i = Some v →
              ∃ d, findAsset assets u = Some d ∧ v ∈ depends d).
Proof.
  intros HA HAB HB HBA.
  destruct (findCircularDependenciesFuel_total assets (S (length assets)))
    as [_ [found Hfound]]; [lia|].
  destruct (mutual_dependency_found assets A B a b HA HAB HB HBA found Hfound)
    as (c & Hc & Hhead & Hends & HAc & HBc).
  exists found, c. split_and!; try done.
  - pose proof (findCircularDependencies_simple _ _ Hfound) as Hsimple.
    rewrite Forall_forall in Hsimple. by apply Hsimple.
  - pose proof (findCircularDependencies_good _ _ Hfound) as Hgood.
    rewrite Forall_forall in Hgood. destruct (Hgood c Hc) as (_ & _ & _ & Hwalk).
    intros i u v Hu Hv. exact (Hwalk i u v Hu Hv).
Qed.

Lemma mutual_dependency_reported_witness :
  findAsset cycleXY "X" = Some (bundle "X" ["Y"]) ∧
  "Y" ∈ depends (bundle "X" ["Y"]) ∧
  findAsset cycleXY "Y" = Some (bundle "Y" ["X"]) ∧
  "X" ∈ depends (bundle "Y" ["X"]) ∧
  ∃ found c,
    findCircularDependencies cycleXY = Some found ∧ c ∈ found ∧
    is_Some (head c) ∧ head c = last c ∧ "X" ∈ c ∧ "Y" ∈ c ∧
    (∃ x l, c = x :: l ++ [x] ∧ NoDup (x :: l)) ∧
    (∀ i u v, c !! i = Some u → c !! S i = Some v →
              ∃ d, findAsset cycleXY u = Some d ∧ v ∈ depends d).
Proof.
  assert ("Y" ∈ depends (bundle "X" ["Y"])) as HXY by (simpl; left).
  assert ("X" ∈ depends (bundle "Y" ["X"])) as HYX by (simpl; left).
  split; [reflexivity|]. split; [exact HXY|].
  split; [reflexivity|]. split; [exact HYX|].
  exact (mutual_dependency_reported cycleXY "X" "Y" _ _ eq_refl HXY eq_refl HYX).
Defined.

(** X3. Every cycle the detector reports is a genuine, simple cycle of the
    dependency graph: it closes on its first name, names no other
    descriptor twice, and the descriptor each name resolves to declares the
    name that follows it. *)
Theorem reported_cycles_follow_declared_dependencies (assets : list AssetInfo)
    (found : list (list string)) (c : list string) :
  findCircularDependencies assets = Some found → c ∈ found →
  (∃ x l, c = x :: l ++ [x] ∧ NoDup (x :: l)) ∧
  ∀ i a b, c !! i = Some a → c !! S i = Some b →
           ∃ asset, findAsset assets a = Some asset ∧ b ∈ depends asset.
Proof.
  intros Hfound Hc. split.
  - pose proof (findCircularDependencies_simple _ _ Hfound) as Hsimple.
    rewrite Forall_forall in Hsimple. by apply Hsimple.
  - pose proof (findCircularDependencies_good _ _ Hfound) as Hgood.
    rewrite Forall_forall in Hgood. destruct (Hgood c Hc) as (_ & _ & _ & Hwalk).
    intros i a b Ha Hb. exact (Hwalk i a b Ha Hb).
Qed.

Lemma reported_cycles_follow_declared_dependencies_witness :
  findCircularDependencies cycleXY = Some [["X"; "Y"; "X"]] ∧
  ["X"; "Y"; "X"] ∈ [["X"; "Y"; "X"]] ∧
  ∃ x l, ["X"; "Y"; "X"] = x :: l ++ [x] ∧ NoDup (x :: l).
Proof.
  assert (findCircularDependencies cycleXY = Some [["X"; "Y"; "X"]]) as Hfound
    by (by vm_compute).
  assert (["X"; "Y"; "X"] ∈ [["X"; "Y"; "X"]]) as Hc by left.
  split; [exact Hfound|]. split; [exact Hc|].
  exact (proj1 (reported_cycles_follow_declared_dependencies cycleXY _ _ Hfound Hc)).
Defined.

(** ** The detector misses no cycle *)

Lemma walk_cons R x y l :
  R x y → walk R (y :: l) → walk R (x :: y :: l).
Proof.
  intros Hxy Hw [|i] a b Ha Hb; simpl in *.
  - by injection Ha as <-; injection Hb as <-.
  - by apply (Hw i).
Qed.

Lemma tc_walk R (x y : string) : tc R x y → ∃ l, walk R (x :: l ++ [y]).
Proof.
  induction 1 as [x y H|x z y H _ [l IH]].
  - exists []. apply walk_cons; [done|apply walk_singleton].
  - exists (z :: l). by apply walk_cons.
Qed.

(** The names of a closed walk form a knot. *)
Lemma walk_knot R (x : string) l : walk R (x :: l ++ [x]) → knot R (x :: l).
Proof.
  intros Hw.
  set (L := x :: l). set (W := x :: l ++ [x]) in *.
  assert (∀ i a, i < length L → (W !! i = Some a ↔ L !! i = Some a)) as HWL.
  { intros i a Hi. unfold W. rewrite app_comm_cons. fold L.
    by rewrite lookup_app_l. }
  assert (W !! length L = Some x) as Hclose.
  { unfold W. rewrite app_comm_cons. fold L.
    by rewrite lookup_app_r, Nat.sub_diag. }
  assert (∀ i a, i ≤ length L → W !! i = Some a → a ∈ L) as Hin.
  { intros i a Hi Ha. destruct (decide (i = length L)) as [->|].
    - rewrite Hclose in Ha. injection Ha as <-. by left.
    - apply (list_elem_of_lookup_2 _ i), HWL; [lia|done]. }
  assert (∀ k i a b, i + k ≤ length L → W !! i = Some a → W !! (i + k) = Some b →
                     rtc (λ u v, R u v ∧ v ∈ L) a b) as Hsteps.
  { induction k as [|k IH]; intros i a b Hle Ha Hb.
    - rewrite Nat.add_0_r in Hb. by assert (a = b) as -> by congruence.
    - destruct (lookup_lt_is_Some_2 W (i + k)) as [c Hc].
      { unfold W. simpl. rewrite length_app. simpl. unfold L in Hle. simpl in Hle. lia. }
      eapply rtc_r; [apply (IH i a c); [lia|done|done]|].
      rewrite Nat.add_succ_r in Hb. split; [by apply (Hw (i + k))|].
      apply (Hin (S (i + k))); [lia|done]. }
  intros a [i Hi]%list_elem_of_lookup.
  pose proof (lookup_lt_Some _ _ _ Hi) as Hlt.
  apply HWL in Hi; [|done].
  destruct i as [|i].
  - assert (a = x) as -> by (simpl in Hi; congruence).
    destruct (lookup_lt_is_Some_2 W (length L - 1)) as [b Hb].
    { unfold W. simpl. rewrite length_app. simpl. unfold L. simpl. lia. }
    exists b. split_and!.
    + apply (Hin (length L - 1)); [lia|done].
    + apply (Hw (length L - 1)); [done|].
      by replace (S (length L - 1)) with (length L) by lia.
    + apply (Hsteps (length L - 1) 0); [lia|done|done].
  - destruct (lookup_lt_is_Some_2 W i) as [b Hb].
    { unfold W. simpl. rewrite length_app. simpl. unfold L in Hlt. simpl in Hlt. lia. }
    exists b. split_and!.
    + apply (Hin i); [lia|done].
    + by apply (Hw i).
    + etrans.
      * apply (Hsteps (length L - S i) (S i) a x); [lia|done|].
        by replace (S i + (length L - S i)) with (length L) by lia.
      * apply (Hsteps i 0 x b); [lia|done|done].
Qed.

Lemma through_reported u v st : through u v st → cycles st ≠ [].
Proof. intros (c & Hc & _) Hnil. rewrite Hnil in Hc. by apply elem_of_nil in Hc. Qed.

Lemma grows_reported st st' : grows st st' → cycles st ≠ [] → cycles st' ≠ [].
Proof.
  intros [_ _ [new Hnew]] Hne Hnil. rewrite Hnil in Hnew.
  symmetry in Hnew. by apply app_eq_nil in Hnew as [? _].
Qed.

Section CycleDetectorComplete.
Variable assets : list AssetInfo.

(** The call that marks a name marks everything the name reaches through
    names that were unmarked when the call began. *)
Lemma dfs_white fuel v path st st' :
  dfs assets fuel v path st = Some st' →
  dfsInv assets path st → walk (resolvedEdge assets) (path ++ [v]) →
  v ∉ visited st →
  ∀ u, rtc (λ a b, resolvedEdge assets a b ∧ b ∉ visited st) v u →
       u ∈ visited st'.
Proof.
  intros Hrun Hinv Hwv Hvis.
  destruct (dfs_post assets fuel _ _ _ _ Hrun Hinv Hwv) as (Hinv' & Hg & Hv').
  assert (∀ u, rtc (λ a b, resolvedEdge assets a b ∧ b ∉ visited st) v u →
               u ∈ visited st' ∧ u ∉ visited st) as Hboth.
  { apply rtc_ind_r; [done|].
    intros y z _ [(a & Ha & Hz) Hzwhite] [IH1 IH2].
    split; [|done].
    apply (inv_closed _ _ _ Hinv' y a z); [done| |done|done].
    rewrite (grows_stack _ _ Hg). intros Hy.
    by apply IH2, (inv_visited _ _ _ Hinv). }
  intros u Hu. by apply Hboth.
Qed.

(** The call that marks [x] and, while [x] is open, a name [b] that declares
    [x], reports a cycle through both. *)
Lemma dfs_open_marks fuel x b bv path st st' :
  findAsset assets b = Some bv → x ∈ depends bv →
  dfs assets fuel x path st = Some st' →
  dfsInv assets path st → walk (resolvedEdge assets) (path ++ [x]) →
  x ∉ visited st → b ≠ x → b ∉ visited st → b ∈ visited st' →
  through x b st'.
Proof.
  intros Hb Hbx Hrun Hinv Hwx Hvis Hne Hbvis Hbvis'.
  destruct fuel as [|fuel]; [done|]. rewrite dfs_unfold in Hrun.
  assert (x ∉ recursionStack st) as Hstack.
  { intros H. by apply Hvis, (inv_visited _ _ _ Hinv). }
  rewrite decide_False, decide_False in Hrun by done.
  destruct (findAsset assets x) as [a|] eqn:Ha.
  - destruct (forEachM _ _ _) as [st2|] eqn:Hloop; [|done]. injection Hrun as <-.
    simpl in Hbvis'.
    pose proof (enterState_inv _ x a path st Hinv Hwx Hstack Ha) as Hinv0.
    assert (∀ d, d ∈ depends a → walk (resolvedEdge assets) ((path ++ [x]) ++ [d]))
      as Hwd.
    { intros d Hd. apply walk_snoc; [done|]. by eapply findAsset_resolved. }
    destruct (forEachM_transition _ (λ s, b ∈ visited s) _ _ _ Hloop)
      as (xs1 & d & xs2 & s1 & s2 & Hxs & H1 & Hcall & H2 & Hn1 & Hq2);
      [simpl; set_solver|done|].
    destruct (dfs_loop _ _ _ _ _ _ (dfs_post assets fuel) H1 Hinv0) as (Hinv1 & _).
    { intros e He. apply Hwd. rewrite Hxs. apply elem_of_app. by left. }
    assert (d ∈ depends a) as Hd.
    { rewrite Hxs. apply elem_of_app. right. by left. }
    destruct (dfs_post _ _ _ _ _ _ Hcall Hinv1) as (Hinv2 & _); [by apply Hwd|].
    destruct (dfs_loop _ _ _ _ _ _ (dfs_post assets fuel) H2 Hinv2) as (_ & Hg2 & _).
    { intros e He. apply Hwd. rewrite Hxs. apply elem_of_app. right. by right. }
    unfold through. setoid_rewrite leaveState_cycles.
    apply (through_grows _ _ s2); [done|].
    eapply (dfs_marks_below _ fuel x b bv); try done; [by apply Hwd|].
    apply elem_of_app. right. by apply list_elem_of_singleton.
  - injection Hrun as <-. simpl in Hbvis'. set_solver.
Qed.

Variable L : list string.
Hypothesis HL : knot (resolvedEdge assets) L.

(** Whichever call first marks a name of a knot reports a cycle. *)
Lemma dfs_finds_knot fuel : ∀ x path st st',
  dfs assets fuel x path st = Some st' →
  dfsInv assets path st → walk (resolvedEdge assets) (path ++ [x]) →
  (∀ n, n ∈ L → n ∉ visited st) → Exists (λ n, n ∈ visited st') L →
  cycles st' ≠ [].
Proof.
  induction fuel as [|fuel IH]; intros x path st st' Hrun Hinv Hwx Hwhite Hhit;
    [done|].
  destruct (decide (x ∈ L)) as [HxL|HxL].
  { destruct (HL x HxL) as (b & HbL & (bv & Hb & Hbx) & Hreach).
    assert (b ∈ visited st') as Hbvis'.
    { eapply dfs_white; [done|done|done|by apply Hwhite|].
      eapply rtc_subrel; [|exact Hreach]. intros u v [? ?]. split; [done|].
      by apply Hwhite. }
    destruct (decide (b = x)) as [->|Hne].
    - eapply through_reported, (dfs_closes_cycle assets (S fuel) x x bv);
        try done; [by apply Hwhite|].
      apply elem_of_app. right. by apply list_elem_of_singleton.
    - eapply through_reported, (dfs_open_marks (S fuel) x b bv); try done;
        by apply Hwhite. }
  rewrite dfs_unfold in Hrun.
  apply Exists_exists in Hhit as (n & HnL & Hn).
  destruct (decide (x ∈ recursionStack st)) as [Hstack|Hstack].
  { destruct (indexOf x path); injection Hrun as <-; simpl in Hn;
      by destruct (Hwhite n HnL). }
  destruct (decide (x ∈ visited st)) as [Hxvis|Hxvis].
  { injection Hrun as <-. by destruct (Hwhite n HnL). }
  destruct (findAsset assets x) as [a|] eqn:Ha.
  - destruct (forEachM _ _ _) as [st2|] eqn:Hloop; [|done]. injection Hrun as <-.
    simpl in Hn.
    pose proof (enterState_inv _ x a path st Hinv Hwx Hstack Ha) as Hinv0.
    assert (∀ d, d ∈ depends a → walk (resolvedEdge assets) ((path ++ [x]) ++ [d]))
      as Hwd.
    { intros d Hd. apply walk_snoc; [done|]. by eapply findAsset_resolved. }
    destruct (forEachM_transition _ (λ s, Exists (λ n, n ∈ visited s) L) _ _ _ Hloop)
      as (xs1 & d & xs2 & s1 & s2 & Hxs & H1 & Hcall & H2 & Hn1 & Hq2).
    { rewrite Exists_exists. intros (m & HmL & Hm). simpl in Hm.
      apply elem_of_union in Hm as [->%elem_of_singleton|Hm]; [done|].
      by destruct (Hwhite m HmL). }
    { apply Exists_exists. eauto. }
    destruct (dfs_loop _ _ _ _ _ _ (dfs_post assets fuel) H1 Hinv0) as (Hinv1 & _).
    { intros e He. apply Hwd. rewrite Hxs. apply elem_of_app. by left. }
    assert (d ∈ depends a) as Hd.
    { rewrite Hxs. apply elem_of_app. right. by left. }
    destruct (dfs_post _ _ _ _ _ _ Hcall Hinv1) as (Hinv2 & _); [by apply Hwd|].
    destruct (dfs_loop _ _ _ _ _ _ (dfs_post assets fuel) H2 Hinv2) as (_ & Hg2 & _).
    { intros e He. apply Hwd. rewrite Hxs. apply elem_of_app. right. by right. }
    simpl. apply (grows_reported s2); [done|].
    eapply IH; [done|done|by apply Hwd| |done].
    intros m HmL Hm. apply Hn1, Exists_exists. eauto.
  - injection Hrun as <-. simpl in Hn.
    apply elem_of_union in Hn as [->%elem_of_singleton|Hn]; [done|].
    by destruct (Hwhite n HnL).
Qed.

Lemma knot_reported found n :
  n ∈ L → findCircularDependencies assets = Some found → found ≠ [].
Proof.
  intros HnL (st & Hrun & ->)%findCircularDependenciesFuel_run.
  destruct (dfsRoot_loop _ _ _ _ _ Hrun (dfsInit_inv assets)) as (_ & _ & Hall).
  assert (isNode assets n) as (an & -> & Han)%list_elem_of_fmap_1.
  { destruct (HL n HnL) as (b & _ & Hbn & Hreach).
    assert (∃ m, resolvedEdge assets n m) as [m (a & Ha & _)];
      [|by eapply findAsset_isNode].
    inversion Hreach as [|? m ? [Hnm _] _]; subst; eauto. }
  destruct (forEachM_transition _ (λ s, Exists (λ n, n ∈ visited s) L) _ _ _ Hrun)
    as (xs1 & x & xs2 & s1 & s2 & Hxs & H1 & Hcall & H2 & Hn1 & Hq2).
  { rewrite Exists_exists. intros (m & _ & Hm). simpl in Hm. set_solver. }
  { apply Exists_exists. exists (name an). split; [done|]. by apply Hall. }
  destruct (dfsRoot_loop _ _ _ _ _ H1 (dfsInit_inv assets)) as (Hinv1 & _).
  destruct (dfsRoot_post _ _ _ _ _ Hcall Hinv1) as (Hinv2 & _).
  destruct (dfsRoot_loop _ _ _ _ _ H2 Hinv2) as (_ & Hg2 & _).
  apply (grows_reported s2); [done|].
  unfold dfsRoot in Hcall. case_decide as Hx.
  - injection Hcall as <-. done.
  - eapply dfs_finds_knot; [done|done|apply walk_singleton| |done].
    intros m HmL Hm. apply Hn1, Exists_exists. eauto.
Qed.
End CycleDetectorComplete.

(** X4. The detector reports no cycle exactly when the dependency graph it
    traverses has none: some cycle is reported whenever a descriptor reaches
    its own name along declared dependencies, and only then. *)
Theorem no_cycle_reported_iff_acyclic (assets : list AssetInfo) :
  findCircularDependencies assets = Some [] ↔
  ∀ x, ¬ tc (resolvedEdge assets) x x.
Proof.
  destruct (findCircularDependenciesFuel_total assets (S (length assets)))
    as [_ [found Hfound]]; [lia|].
  split.
  - intros Hnone x [l Hl]%tc_walk.
    apply walk_knot in Hl.
    eapply (knot_reported assets (x :: l)); [done|by left|done|done].
  - intros Hacyclic. rewrite Hfound. f_equal.
    destruct found as [|c found]; [done|].
    pose proof (findCircularDependencies_good _ _ Hfound) as Hgood.
    apply Forall_cons in Hgood as [(Hlen & Hends & _ & Hw) _].
    destruct c as [|x c]; [simpl in Hlen; lia|].
    destruct (decide (c = [])) as [->|Hne]; [simpl in Hlen; lia|].
    destruct (exists_last Hne) as (l & y & ->). simpl in Hends.
    rewrite (app_comm_cons l [y] x), last_snoc in Hends. injection Hends as ->.
    destruct (Hacyclic y). by eapply walk_tc.
Qed.

(** ** The extractor on conventionally written files *)

Lemma append_nil_r (s : string) : s +:+ "" = s.
Proof. induction s as [|c s IH]; [done|]. rewrite append_cons. by f_equal. Qed.

Lemma stripPrefix_app p s : stripPrefix p (p +:+ s) = Some s.
Proof.
  induction p as [|c p IH]; [by destruct s|].
  rewrite append_cons. simpl. by rewrite Ascii.eqb_refl.
Qed.

Lemma stripPrefix_None_app v a b :
  stripPrefix v a = None → String.length v ≤ String.length a →
  stripPrefix v (a +:+ b) = None.
Proof.
  revert a. induction v as [|c v IH]; intros [|d a];
    rewrite ?append_cons; simpl; try done; [lia|].
  destruct (Ascii.eqb c d); [|done].
  intros Hnone Hlen. apply IH; [done|lia].
Qed.

Lemma stripPrefix_spec p s r : stripPrefix p s = Some r → s = p +:+ r.
Proof.
  revert s. induction p as [|c p IH]; intros [|d s]; simpl; try done.
  - by intros [= <-].
  - by intros [= <-].
  - destruct (Ascii.eqb_spec c d) as [->|]; [|done].
    intros Hr. rewrite append_cons. f_equal. by apply IH.
Qed.

Lemma upTo_app stop body post :
  allChars (λ c, negb (Ascii.eqb c stop)) body = true →
  upTo stop (body +:+ String stop post) = Some body.
Proof.
  induction body as [|c body IH].
  - intros _. rewrite append_nil. simpl. by rewrite Ascii.eqb_refl.
  - intros H. simpl in H. apply andb_true_iff in H as [Hc Hbody].
    rewrite append_cons. simpl.
    apply negb_true_iff in Hc. by rewrite Hc, (IH Hbody).
Qed.

Lemma upTo_spec stop s body :
  upTo stop s = Some body →
  allChars (λ c, negb (Ascii.eqb c stop)) body = true ∧
  ∃ post, s = body +:+ String stop post.
Proof.
  revert body. induction s as [|c s IH]; intros body; simpl; [done|].
  destruct (Ascii.eqb c stop) eqn:Hc.
  - intros [= <-]. split; [done|]. apply Ascii.eqb_eq in Hc as ->. by exists s.
  - destruct (upTo stop s) as [b|]; [|done]. intros [= <-].
    destruct (IH b eq_refl) as (Hb & post & ->). split.
    + simpl. by rewrite Hc, Hb.
    + by exists post.
Qed.

Lemma firstMatch_spec {A} (at_ : string → option A) content r :
  firstMatch at_ content = Some r →
  ∃ before here, content = before +:+ here ∧ at_ here = Some r.
Proof.
  induction content as [|c content IH]; simpl.
  - destruct (at_ "") eqn:Hat; [|done]. intros [= <-]. by exists "", "".
  - destruct (at_ (String c content)) eqn:Hat.
    + intros [= <-]. by exists "", (String c content).
    + intros (before & here & -> & Hhere)%IH. by exists (String c before), here.
Qed.

Lemma stripPrefix_Some_app v a r b :
  stripPrefix v a = Some r → stripPrefix v (a +:+ b) = Some (r +:+ b).
Proof. intros ->%stripPrefix_spec. by rewrite append_assoc, stripPrefix_app. Qed.

(** A search for an assignment to [variable] finds nothing where no
    assignment can begin. *)
Lemma firstMatch_after {A} (at_ : string → option A) variable before tail :
  (∀ s, stripPrefix variable s = None → at_ s = None) →
  (∀ c r, isSpaceChar c = false → Ascii.eqb c "=" = false →
          at_ (variable +:+ String c r) = None) →
  noEarlierAssignment variable before = true →
  firstMatch at_ (before +:+ variable +:+ tail)
  = firstMatch at_ (variable +:+ tail).
Proof.
  intros Hnone Hother. induction before as [|c before IH]; [done|].
  cbn [noEarlierAssignment]. intros [Hhere Hrest]%andb_true_iff.
  rewrite append_cons. cbn [firstMatch]. rewrite <- append_cons.
  assert (at_ (String c before +:+ variable +:+ tail) = None) as ->;
    [|by apply IH].
  destruct (stripPrefix variable (String c before)) as [[|d r]|] eqn:Hp; [done| |].
  - apply andb_true_iff in Hhere as [Hs He]. apply negb_true_iff in Hs, He.
    apply stripPrefix_spec in Hp. rewrite Hp, append_assoc, append_cons.
    by apply Hother.
  - destruct (stripPrefix variable (String c before +:+ variable)) eqn:Hq; [done|].
    apply Hnone. rewrite <- append_assoc. apply stripPrefix_None_app; [done|].
    rewrite append_length. lia.
Qed.

Lemma matchArrayAt_other variable c r :
  isSpaceChar c = false → Ascii.eqb c "=" = false →
  matchArrayAt variable (variable +:+ String c r) = None.
Proof.
  intros Hs He. unfold matchArrayAt. rewrite stripPrefix_app.
  cbn [span]. rewrite Hs. cbn [snd]. by rewrite He.
Qed.

Lemma isSpaceChar_stops_eq rest : stopsAt isSpaceChar (String "=" rest).
Proof. done. Qed.

Lemma isSpaceChar_stops_bracket rest : stopsAt isSpaceChar (String "[" rest).
Proof. done. Qed.

Lemma matchArrayAt_here variable ws1 ws2 body post :
  allChars isSpaceChar ws1 = true → allChars isSpaceChar ws2 = true →
  allChars notBracket body = true →
  matchArrayAt variable
    (variable +:+ ws1 +:+ "=" +:+ ws2 +:+ "[" +:+ body +:+ "]" +:+ post)
  = Some body.
Proof.
  intros H1 H2 Hbody. unfold matchArrayAt. rewrite stripPrefix_app.
  rewrite (span_app isSpaceChar ws1) by done. cbn [snd].
  rewrite append_cons, append_nil. change (Ascii.eqb "=" "=") with true. cbv iota.
  rewrite (span_app isSpaceChar ws2) by done. cbn [snd].
  rewrite append_cons, append_nil. change (Ascii.eqb "[" "[") with true. cbv iota.
  rewrite (append_cons "]" "" post), append_nil. by apply upTo_app.
Qed.

Lemma matchArrayAt_spec variable s body :
  matchArrayAt variable s = Some body →
  allChars notBracket body = true ∧
  ∃ ws post, s = variable +:+ ws +:+ "[" +:+ body +:+ "]" +:+ post.
Proof.
  unfold matchArrayAt. destruct (stripPrefix variable s) as [r1|] eqn:Hp; [|done].
  apply stripPrefix_spec in Hp as ->.
  destruct (span isSpaceChar r1) as [ws1 t1] eqn:H1.
  apply span_spec in H1 as (-> & _ & _). cbn [snd].
  destruct t1 as [|c2 r2]; [done|].
  destruct (Ascii.eqb_spec c2 "=") as [->|]; [|done].
  destruct (span isSpaceChar r2) as [ws2 t2] eqn:H2.
  apply span_spec in H2 as (-> & _ & _). cbn [snd].
  destruct t2 as [|c3 r3]; [done|].
  destruct (Ascii.eqb_spec c3 "[") as [->|]; [|done].
  intros (Hbody & post & ->)%upTo_spec. split; [done|].
  exists (ws1 +:+ "=" +:+ ws2), post. by string_norm.
Qed.

Lemma arrayMatch_here variable before ws1 ws2 body post :
  noEarlierAssignment variable before = true →
  allChars isSpaceChar ws1 = true → allChars isSpaceChar ws2 = true →
  allChars notBracket body = true →
  arrayMatch variable
    (before +:+ variable +:+ ws1 +:+ "=" +:+ ws2 +:+ "[" +:+ body +:+ "]" +:+ post)
  = Some body.
Proof.
  intros Hbefore H1 H2 Hbody. unfold arrayMatch.
  rewrite firstMatch_after;
    [|intros s Hs; unfold matchArrayAt; by rewrite Hs
     |apply matchArrayAt_other|done].
  assert (∀ s r, matchArrayAt variable s = Some r →
                 firstMatch (matchArrayAt variable) s = Some r) as Hfirst.
  { intros [|c s] r Hr; simpl; by rewrite Hr. }
  by apply Hfirst, matchArrayAt_here.
Qed.

Lemma dependsMatch_arrayMatch content :
  dependsMatch content = arrayMatch "$depends" content.
Proof.
  unfold arrayMatch. induction content as [|c content IH]; [done|].
  cbn [dependsMatch firstMatch].
  change (matchDependsAt (String c content))
    with (matchArrayAt "$depends" (String c content)).
  by rewrite IH.
Qed.

Lemma matchAt_separator c s :
  isSeparatorChar c = true → matchAt (String c s) = None.
Proof.
  unfold isSeparatorChar, notQuote. intros [Hq Hw]%andb_true_iff.
  apply negb_true_iff in Hq, Hw.
  unfold matchAt, matchQuoted, matchScoped. rewrite Hq. simpl. by rewrite Hw.
Qed.

Lemma extractDependencies_separator sep rest :
  allChars isSeparatorChar sep = true →
  extractDependencies (sep +:+ rest) = extractDependencies rest.
Proof.
  induction sep as [|c sep IH]; [done|]. simpl.
  intros [Hc Hsep]%andb_true_iff. rewrite append_cons.
  rewrite extractDependencies_skip by (by apply matchAt_separator). by apply IH.
Qed.

Lemma extractDependencies_items items trailer :
  wellSeparated items trailer →
  extractDependencies (renderItems items trailer) = Some (itemName <$> items.*2).
Proof.
  induction items as [|[sep i] items IH]; simpl.
  - intros Htrailer.
    rewrite <- (append_nil_r trailer), extractDependencies_separator by done.
    done.
  - intros (Hsep & Hi & Hrest).
    rewrite extractDependencies_separator by done.
    destruct i as [text|scope const]; simpl; rewrite !append_assoc.
    + destruct Hi as [Hne Htext].
      rewrite (extractDependencies_match _ _ _ (matchAt_quoted text _ Hne Htext)).
      rewrite (stripQuotes_quoted _ text) by done. by rewrite IH.
    + destruct Hi as (Hs & Hc & Hscope & Hconst & Hstop).
      rewrite (extractDependencies_match _ _ _
                 (matchAt_scoped scope const _ Hs Hc Hscope Hconst Hstop)).
      rewrite stripQuotes_scoped by (by exists scope, const). by rewrite IH.
Qed.

(** X5. A [$depends] array written in the usual way is read back exactly:
    when the first [$depends] of the file is followed by an equals sign and
    a bracketed list of single-quoted literals and [Scope::Constant]
    references set apart by commas and white space, the extracted
    dependencies are the literals' contents and the references' texts, in
    order. *)
Theorem depends_array_is_read_back (before ws1 ws2 trailer post : string)
    (items : list (string * Item)) :
  noEarlierAssignment "$depends" before = true →
  allChars isSpaceChar ws1 = true → allChars isSpaceChar ws2 = true →
  wellSeparated items trailer →
  allChars notBracket (renderItems items trailer) = true →
  parseDepends
    (before +:+ "$depends" +:+ ws1 +:+ "=" +:+ ws2 +:+ "["
       +:+ renderItems items trailer +:+ "]" +:+ post)
  = Some (itemName <$> items.*2).
Proof.
  intros Hbefore H1 H2 Hitems Hbody. unfold parseDepends.
  rewrite dependsMatch_arrayMatch, arrayMatch_here by done.
  by apply extractDependencies_items.
Qed.

Lemma sampleItems_wellSeparated : wellSeparated sampleItems ", ".
Proof. simpl. split_and!; done. Qed.

Lemma depends_array_is_read_back_witness :
  noEarlierAssignment "$depends" "class AppAsset { public " = true ∧
  allChars isSpaceChar " " = true ∧
  wellSeparated sampleItems ", " ∧
  allChars notBracket (renderItems sampleItems ", ") = true ∧
  parseDepends
    ("class AppAsset { public " +:+ "$depends" +:+ " " +:+ "=" +:+ " " +:+ "["
       +:+ renderItems sampleItems ", " +:+ "]" +:+ "; }")
  = Some ["yii\web\YiiAsset"; "JqueryAsset::class"].
Proof.
  split; [reflexivity|]. split; [reflexivity|].
  split; [exact sampleItems_wellSeparated|]. split; [reflexivity|].
  exact (depends_array_is_read_back "class AppAsset { public " " " " " ", " "; }"
           sampleItems eq_refl eq_refl eq_refl sampleItems_wellSeparated eq_refl).
Defined.

(** *** File lists *)

Lemma matchQuoted_shorter s m rest :
  matchQuoted s = Some (m, rest) → String.length rest < String.length s.
Proof.
  intros [Hshape ->]%matchQuoted_spec.
  assert (0 < String.length m) by (apply shape_nonempty; by left).
  rewrite append_length. lia.
Qed.

Lemma matchAllQuoted_total fuel : ∀ s,
  String.length s ≤ fuel → is_Some (matchAllQuoted fuel s).
Proof.
  induction fuel as [|fuel IH]; intros [|c s] Hlen;
    cbn [matchAllQuoted String.length] in *; [by eexists|lia|by eexists|].
  destruct (matchQuoted (String c s)) as [[m rest]|] eqn:Hm.
  - apply matchQuoted_shorter in Hm. cbn [String.length] in Hm.
    destruct (IH rest) as [ms ->]; [lia|]. by eexists.
  - apply IH. lia.
Qed.

Lemma matchAllQuoted_mono fuel : ∀ fuel' s ms,
  matchAllQuoted fuel s = Some ms → fuel ≤ fuel' →
  matchAllQuoted fuel' s = Some ms.
Proof.
  induction fuel as [|fuel IH]; intros fuel' [|c s] ms Hrun Hle;
    [by destruct fuel'|done|by destruct fuel'|].
  destruct fuel' as [|fuel']; [lia|]. cbn [matchAllQuoted] in *.
  destruct (matchQuoted (String c s)) as [[m rest]|].
  - destruct (matchAllQuoted fuel rest) as [ms'|] eqn:Hrest; [|done].
    by rewrite (IH fuel' rest ms' Hrest) by lia.
  - apply IH; [done|lia].
Qed.

Lemma matchAllQuoted_exact fuel s :
  String.length s ≤ fuel →
  matchAllQuoted fuel s = matchAllQuoted (String.length s) s.
Proof.
  intros Hlen.
  destruct (matchAllQuoted_total (String.length s) s) as [ms Hms]; [done|].
  rewrite Hms. by apply (matchAllQuoted_mono (String.length s)).
Qed.

Lemma extractFiles_match s m rest :
  matchQuoted s = Some (m, rest) →
  extractFiles s = cons (stripQuotes m) <$> extractFiles rest.
Proof.
  intros Hm. pose proof (matchQuoted_shorter _ _ _ Hm) as Hlen.
  unfold extractFiles. destruct s as [|c s]; [done|].
  cbn [String.length matchAllQuoted] in *. rewrite Hm.
  rewrite (matchAllQuoted_exact (String.length s) rest) by lia.
  by destruct (matchAllQuoted (String.length rest) rest).
Qed.

Lemma extractFiles_skip c s :
  matchQuoted (String c s) = None →
  extractFiles (String c s) = extractFiles s.
Proof.
  intros Hm. unfold extractFiles. cbn [String.length matchAllQuoted].
  by rewrite Hm.
Qed.

Lemma extractFiles_separator sep rest :
  allChars notQuote sep = true →
  extractFiles (sep +:+ rest) = extractFiles rest.
Proof.
  induction sep as [|c sep IH]; [done|].
  intros H. simpl in H. apply andb_true_iff in H as [Hc Hsep].
  rewrite append_cons, extractFiles_skip; [by apply IH|].
  unfold notQuote in Hc. apply negb_true_iff in Hc.
  unfold matchQuoted. by rewrite Hc.
Qed.

Lemma matchQuoted_here body rest :
  body ≠ "" → allChars notQuote body = true →
  matchQuoted ("'" +:+ body +:+ "'" +:+ rest) = Some ("'" +:+ body +:+ "'", rest).
Proof.
  intros Hne Hbody. pose proof (matchAt_quoted body rest Hne Hbody) as Hat.
  unfold matchAt in Hat. by destruct (matchQuoted _) as [r|].
Qed.

Lemma extractFiles_files files trailer :
  Forall (λ f, allChars notQuote f.1 = true ∧ f.2 ≠ "" ∧
               allChars notQuote f.2 = true) files →
  allChars notQuote trailer = true →
  extractFiles (renderFiles files trailer) = Some files.*2.
Proof.
  intros Hfiles Htrailer. induction Hfiles as [|[sep file] files (Hsep & Hne & Hfile) _ IH];
    simpl in *.
  - by rewrite <- (append_nil_r trailer), extractFiles_separator.
  - rewrite extractFiles_separator by done.
    rewrite (extractFiles_match _ _ _ (matchQuoted_here file _ Hne Hfile)).
    rewrite (stripQuotes_quoted _ file) by done. by rewrite IH.
Qed.

(** X6. A [$css] or [$js] array written in the usual way is read back
    exactly: when the first occurrence of the variable is followed by an
    equals sign and a bracketed list of single-quoted file names, set apart
    by any text without single quotes, the extracted list holds the file
    names in order. *)
Theorem file_array_is_read_back (variable before ws1 ws2 trailer post : string)
    (files : list (string * string)) :
  noEarlierAssignment variable before = true →
  allChars isSpaceChar ws1 = true → allChars isSpaceChar ws2 = true →
  Forall (λ f, allChars notQuote f.1 = true ∧ f.2 ≠ "" ∧
               allChars notQuote f.2 = true) files →
  allChars notQuote trailer = true →
  allChars notBracket (renderFiles files trailer) = true →
  parseFiles variable
    (before +:+ variable +:+ ws1 +:+ "=" +:+ ws2 +:+ "["
       +:+ renderFiles files trailer +:+ "]" +:+ post)
  = Some files.*2.
Proof.
  intros Hbefore H1 H2 Hfiles Htrailer Hbody. unfold parseFiles.
  rewrite arrayMatch_here by done. by apply extractFiles_files.
Qed.

Lemma sampleFiles_ok :
  Forall (λ f, allChars notQuote f.1 = true ∧ f.2 ≠ "" ∧
               allChars notQuote f.2 = true) sampleFiles.
Proof. repeat constructor; done. Qed.

Lemma file_array_is_read_back_witness :
  noEarlierAssignment "$css" "public $cssOptions = 0; public " = true ∧
  allChars isSpaceChar " " = true ∧
  allChars notQuote "" = true ∧
  allChars notBracket (renderFiles sampleFiles "") = true ∧
  parseFiles "$css"
    ("public $cssOptions = 0; public " +:+ "$css" +:+ " " +:+ "=" +:+ " " +:+ "["
       +:+ renderFiles sampleFiles "" +:+ "]" +:+ ";")
  = Some ["css/site.css"; "css/print.css"].
Proof.
  split; [reflexivity|]. split; [reflexivity|]. split; [reflexivity|].
  split; [reflexivity|].
  exact (file_array_is_read_back "$css" "public $cssOptions = 0; public "
           " " " " "" ";" sampleFiles eq_refl eq_refl eq_refl sampleFiles_ok
           eq_refl eq_refl).
Defined.

(** *** Scalar fields *)

Lemma matchScalarAt_other variable c r :
  isSpaceChar c = false → Ascii.eqb c "=" = false →
  matchScalarAt variable (variable +:+ String c r) = None.
Proof.
  intros Hs He. unfold matchScalarAt. rewrite stripPrefix_app.
  cbn [span]. rewrite Hs. cbn [snd]. by rewrite He.
Qed.

Lemma isQuoteChar_not_space q : isQuoteChar q = true → isSpaceChar q = false.
Proof.
  unfold isQuoteChar. intros [->%Ascii.eqb_eq| ->%Ascii.eqb_eq]%orb_true_iff; done.
Qed.

Lemma matchScalarAt_here variable ws1 ws2 q value q' post :
  allChars isSpaceChar ws1 = true → allChars isSpaceChar ws2 = true →
  isQuoteChar q = true → isQuoteChar q' = true →
  value ≠ "" → allChars (λ c, negb (isQuoteChar c)) value = true →
  matchScalarAt variable
    (variable +:+ ws1 +:+ "=" +:+ ws2 +:+ String q (value +:+ String q' post))
  = Some value.
Proof.
  intros H1 H2 Hq Hq' Hne Hvalue. unfold matchScalarAt. rewrite stripPrefix_app.
  rewrite (span_app isSpaceChar ws1) by done. cbn [snd].
  rewrite append_cons, append_nil. change (Ascii.eqb "=" "=") with true. cbv iota.
  rewrite (span_app isSpaceChar ws2) by (by try apply isQuoteChar_not_space).
  cbn [snd]. rewrite Hq.
  rewrite (span_app (λ c, negb (isQuoteChar c)) value (String q' post))
    by (by try (simpl; rewrite Hq')).
  by destruct value.
Qed.

Lemma matchScalarAt_spec variable s value :
  matchScalarAt variable s = Some value →
  value ≠ "" ∧ allChars (λ c, negb (isQuoteChar c)) value = true ∧
  occursIn value s.
Proof.
  unfold matchScalarAt. destruct (stripPrefix variable s) as [r1|] eqn:Hp; [|done].
  apply stripPrefix_spec in Hp as ->.
  destruct (span isSpaceChar r1) as [ws1 t1] eqn:H1.
  apply span_spec in H1 as (-> & _ & _). cbn [snd].
  destruct t1 as [|c2 r2]; [done|].
  destruct (Ascii.eqb_spec c2 "=") as [->|]; [|done].
  destruct (span isSpaceChar r2) as [ws2 t2] eqn:H2.
  apply span_spec in H2 as (-> & _ & _). cbn [snd].
  destruct t2 as [|c3 r3]; [done|].
  destruct (isQuoteChar c3); [|done].
  destruct (span (λ c, negb (isQuoteChar c)) r3) as [v t3] eqn:H3.
  apply span_spec in H3 as (-> & Hv & _).
  destruct v as [|v0 v]; [done|]. destruct t3 as [|c4 r4]; [done|].
  intros [= <-]. split_and!; [done|done|].
  exists (variable +:+ ws1 +:+ "=" +:+ ws2 +:+ String c3 ""), (String c4 r4).
  by string_norm.
Qed.

(** X7. A scalar field ([$basePath], [$baseUrl], [$sourcePath]) written in
    the usual way is read back exactly, whichever of the two quote
    characters opens and closes the value; and whatever the file holds, a
    value that is extracted is a non-empty piece of the file's text without
    quote characters of either kind. *)
Theorem scalar_field_is_read_back (variable : string) :
  (∀ before ws1 ws2 q value q' post,
     noEarlierAssignment variable before = true →
     allChars isSpaceChar ws1 = true → allChars isSpaceChar ws2 = true →
     isQuoteChar q = true → isQuoteChar q' = true →
     value ≠ "" → allChars (λ c, negb (isQuoteChar c)) value = true →
     scalarMatch variable
       (before +:+ variable +:+ ws1 +:+ "=" +:+ ws2
          +:+ String q (value +:+ String q' post))
     = Some value) ∧
  (∀ content value,
     scalarMatch variable content = Some value →
     value ≠ "" ∧ allChars (λ c, negb (isQuoteChar c)) value = true ∧
     occursIn value content).
Proof.
  split.
  - intros before ws1 ws2 q value q' post Hbefore H1 H2 Hq Hq' Hne Hvalue.
    unfold scalarMatch.
    rewrite firstMatch_after;
      [|intros s Hs; unfold matchScalarAt; by rewrite Hs
       |apply matchScalarAt_other|done].
    assert (∀ s r, matchScalarAt variable s = Some r →
                   firstMatch (matchScalarAt variable) s = Some r) as Hfirst.
    { intros [|c s] r Hr; simpl; by rewrite Hr. }
    by apply Hfirst, matchScalarAt_here.
  - intros content value (before & here & -> & Hhere)%firstMatch_spec.
    apply matchScalarAt_spec in Hhere as (Hne & Hvalue & Hocc).
    split_and!; [done|done|]. by apply occursIn_after.
Qed.

Lemma scalar_field_is_read_back_witness :
  noEarlierAssignment "$basePath" "class A { public " = true ∧
  isQuoteChar "'"%char = true ∧ isQuoteChar doubleQuote = true ∧
  "@webroot" ≠ "" ∧
  scalarMatch "$basePath"
    ("class A { public " +:+ "$basePath" +:+ " " +:+ "=" +:+ " "
       +:+ String "'" ("@webroot" +:+ String doubleQuote "; }"))
  = Some "@webroot".
Proof.
  assert ("@webroot" ≠ "") as Hne by discriminate.
  split; [reflexivity|]. split; [reflexivity|]. split; [reflexivity|].
  split; [exact Hne|].
  exact (proj1 (scalar_field_is_read_back "$basePath")
           "class A { public " " " " " "'"%char "@webroot" doubleQuote "; }"
           eq_refl eq_refl eq_refl eq_refl eq_refl Hne eq_refl).
Defined.

(** *** What extracted identifiers look like *)

Lemma allChars_occursIn p m s :
  occursIn m s → allChars p s = true → allChars p m = true.
Proof.
  intros (before & after & ->). rewrite !allChars_app. intros H.
  apply andb_true_iff in H as [_ H]. by apply andb_true_iff in H as [? _].
Qed.

Lemma occursIn_trans a b c : occursIn a b → occursIn b c → occursIn a c.
Proof.
  intros (p1 & q1 & ->) (p2 & q2 & ->).
  exists (p2 +:+ p1), (q1 +:+ q2). by string_norm.
Qed.

Lemma arrayMatch_spec variable content body :
  arrayMatch variable content = Some body →
  allChars notBracket body = true ∧ occursIn body content.
Proof.
  intros (before & here & -> & Hhere)%firstMatch_spec.
  apply matchArrayAt_spec in Hhere as (Hbody & ws & post & ->).
  split; [done|]. apply occursIn_after.
  exists (variable +:+ ws +:+ "["), ("]" +:+ post). by string_norm.
Qed.

(** X8. Whatever the file holds, the extraction of [$depends] returns, and
    every identifier it returns is a non-empty piece of the file's text that
    contains neither a single quote nor a closing bracket. *)
Theorem dependency_identifiers_are_clean (content : string) :
  ∃ deps,
    parseDepends content = Some deps ∧
    ∀ d, d ∈ deps →
         d ≠ "" ∧ allChars notQuote d = true ∧ allChars notBracket d = true ∧
         occursIn d content.
Proof.
  unfold parseDepends. rewrite dependsMatch_arrayMatch.
  destruct (arrayMatch "$depends" content) as [body|] eqn:Hbody.
  - apply arrayMatch_spec in Hbody as [Hclean Hocc].
    destruct (extractDependencies_sound body) as (ms & -> & Hms).
    eexists. split; [done|]. intros d (m & -> & Hm)%list_elem_of_fmap_1.
    rewrite Forall_forall in Hms. destruct (Hms m Hm) as [Hin Hshape].
    assert (d_in : occursIn (stripQuotes m) m ∧ stripQuotes m ≠ "" ∧
                   allChars notQuote (stripQuotes m) = true).
    { destruct Hshape as [(b & Hq & ->)|[Hs ->]].
      - destruct Hq as (-> & Hne & Hb). split_and!; [|done|done].
        exists "'", "'". done.
      - split_and!.
        + exists "", "". by rewrite append_nil, append_nil_r.
        + destruct Hs as (scope & const & -> & Hne & _). by destruct scope.
        + destruct Hs as (scope & const & -> & _ & _ & Hs & Hc).
          rewrite !allChars_app, (allChars_word_notQuote _ Hs),
            (allChars_word_notQuote _ Hc). done. }
    destruct d_in as (Hd & Hne & Hq).
    split_and!; [done|done| |].
    + eapply allChars_occursIn; [|exact Hclean]. by eapply occursIn_trans.
    + eapply occursIn_trans; [done|]. by eapply occursIn_trans.
  - exists []. split; [done|]. intros d Hd. by apply elem_of_nil in Hd.
Qed.

(** ** Claim about the extractor *)

Lemma allChars_word_notBracket s :
  allChars isWordChar s = true → allChars notBracket s = true.
Proof.
  induction s as [|c s IH]; [done|]. simpl.
  intros [Hc Hs]%andb_true_iff. rewrite (IH Hs), andb_true_r.
  destruct (Ascii.eqb_spec c "]") as [->|Hne]; [done|].
  unfold notBracket. by destruct (Ascii.eqb_spec c "]").
Qed.

Lemma arrayMatch_occurs variable content body :
  arrayMatch variable content = Some body → occursIn variable content.
Proof.
  intros (before & here & -> & Hhere)%firstMatch_spec.
  apply matchArrayAt_spec in Hhere as (_ & ws & post & ->).
  by exists before, (ws +:+ "[" +:+ body +:+ "]" +:+ post).
Qed.

Lemma parseDepends_dependsFile before ws1 ws2 listContent post :
  noEarlierAssignment "$depends" before = true →
  allChars isSpaceChar ws1 = true → allChars isSpaceChar ws2 = true →
  allChars notBracket listContent = true →
  parseDepends (dependsFile before ws1 ws2 listContent post)
  = extractDependencies listContent.
Proof.
  intros Hbefore Hws1 Hws2 Hlist. unfold parseDepends, dependsFile.
  by rewrite dependsMatch_arrayMatch,
    (arrayMatch_here "$depends" before ws1 ws2 listContent post).
Qed.

Lemma parseDepends_sound content :
  ∃ matches,
    parseDepends content = Some (stripQuotes <$> matches) ∧
    Forall (λ m, occursIn m content ∧
                 ((∃ body, isQuotedLiteral m body ∧ stripQuotes m = body) ∨
                  (isScopedConstant m ∧ stripQuotes m = m))) matches.
Proof.
  unfold parseDepends. rewrite dependsMatch_arrayMatch.
  destruct (arrayMatch "$depends" content) as [listContent|] eqn:Hlist.
  - apply arrayMatch_spec in Hlist as [_ Hocc].
    destruct (extractDependencies_sound listContent) as (matches & -> & Hms).
    exists matches. split; [done|].
    eapply Forall_impl; [exact Hms|]. intros m [Hm Hshape]. split; [|done].
    by eapply occursIn_trans.
  - by exists [].
Qed.

(** C8, as the code has it.  The dependency identifiers of a source file
    come from the occurrences of exactly two shapes in the list text of its
    first [$depends] assignment: a single-quoted string literal, recorded as
    its content without the quotes, and a [Scope::Constant] reference of
    word characters, recorded as its whole text.  Both shapes are recognised
    where they stand in the list, a position where neither starts is
    skipped, and a file that never mentions [$depends] has no
    dependencies. *)
Theorem depends_identifiers_have_two_shapes :
  (∀ content, ∃ matches,
     parseDepends content = Some (stripQuotes <$> matches) ∧
     Forall (λ m, occursIn m content ∧
                  ((∃ body, isQuotedLiteral m body ∧ stripQuotes m = body) ∨
                   (isScopedConstant m ∧ stripQuotes m = m))) matches) ∧
  (∀ content, ¬ occursIn "$depends" content → parseDepends content = Some []) ∧
  (∀ before ws1 ws2 post,
     noEarlierAssignment "$depends" before = true →
     allChars isSpaceChar ws1 = true → allChars isSpaceChar ws2 = true →
     (∀ body rest,
        body ≠ "" → allChars notQuote body = true →
        allChars notBracket body = true → allChars notBracket rest = true →
        parseDepends
          (dependsFile before ws1 ws2 ("'" +:+ body +:+ "'" +:+ rest) post)
        = cons body <$> parseDepends (dependsFile before ws1 ws2 rest post)) ∧
     (∀ scope const rest,
        scope ≠ "" → const ≠ "" →
        allChars isWordChar scope = true → allChars isWordChar const = true →
        stopsAt isWordChar rest → allChars notBracket rest = true →
        parseDepends
          (dependsFile before ws1 ws2 (scope +:+ "::" +:+ const +:+ rest) post)
        = cons (scope +:+ "::" +:+ const)
            <$> parseDepends (dependsFile before ws1 ws2 rest post)) ∧
     (∀ c rest,
        matchAt (String c rest) = None →
        notBracket c = true → allChars notBracket rest = true →
        parseDepends (dependsFile before ws1 ws2 (String c rest) post)
        = parseDepends (dependsFile before ws1 ws2 rest post)) ∧
     parseDepends (dependsFile before ws1 ws2 "" post) = Some []).
Proof.
  split_and!.
  - apply parseDepends_sound.
  - intros content Hno. unfold parseDepends. rewrite dependsMatch_arrayMatch.
    destruct (arrayMatch "$depends" content) as [body|] eqn:Hbody; [|done].
    by apply arrayMatch_occurs in Hbody.
  - intros before ws1 ws2 post Hbefore Hws1 Hws2. split_and!.
    + intros body rest Hne Hquote Hbody Hrest.
      rewrite !parseDepends_dependsFile; try done.
      * pose proof (extractDependencies_match _ _ _
                      (matchAt_quoted body rest Hne Hquote)) as Hrun.
        by rewrite (stripQuotes_quoted _ body) in Hrun.
      * by rewrite !allChars_app, Hbody, Hrest.
    + intros scope const rest Hs Hc Hscope Hconst Hstop Hrest.
      rewrite !parseDepends_dependsFile; try done.
      * pose proof (extractDependencies_match _ _ _
                      (matchAt_scoped scope const rest Hs Hc Hscope Hconst Hstop))
          as Hrun.
        by rewrite stripQuotes_scoped in Hrun by (by exists scope, const).
      * by rewrite !allChars_app, (allChars_word_notBracket _ Hscope),
          (allChars_word_notBracket _ Hconst), Hrest.
    + intros c rest Hnone Hc Hrest.
      rewrite !parseDepends_dependsFile; try done.
      * by apply extractDependencies_skip.
      * simpl. by rewrite Hc, Hrest.
    + by rewrite parseDepends_dependsFile.
Qed.

Lemma depends_identifiers_have_two_shapes_witness :
  noEarlierAssignment "$depends" "class AppAsset { public " = true ∧
  "yii\web\YiiAsset" ≠ "" ∧ allChars notQuote "yii\web\YiiAsset" = true ∧
  parseDepends
    (dependsFile "class AppAsset { public " " " " "
       ("'" +:+ "yii\web\YiiAsset" +:+ "'" +:+ ", JqueryAsset::class") "; }")
  = cons "yii\web\YiiAsset"
      <$> parseDepends
            (dependsFile "class AppAsset { public " " " " "
               ", JqueryAsset::class" "; }").
Proof.
  assert (noEarlierAssignment "$depends" "class AppAsset { public " = true)
    as Hbefore by reflexivity.
  assert ("yii\web\YiiAsset" ≠ "") as Hne by discriminate.
  assert (allChars notQuote "yii\web\YiiAsset" = true) as Hbody by reflexivity.
  split; [exact Hbefore|]. split; [exact Hne|]. split; [exact Hbody|].
  exact (proj1 (proj2 (proj2 depends_identifiers_have_two_shapes)
                  "class AppAsset { public " " " " " "; }"
                  Hbefore eq_refl eq_refl)
           "yii\web\YiiAsset" ", JqueryAsset::class" Hne Hbody eq_refl eq_refl).
Defined.

(** C8, as the specification words it, fails on the code: a string literal
    in double quotes is a quoted string literal, yet it is passed over, and
    a class reference is not reduced to the name it refers to: it is
    recorded from the last word before [::] on, constant included. *)
Lemma double_quoted_literal_is_not_recognised :
  parseDepends
    (dependsFile "public " " " " "
       (String doubleQuote "JqueryAsset" +:+ String doubleQuote "") ";")
  = Some [] ∧
  parseDepends
    (dependsFile "public " " " " " "\yii\web\JqueryAsset::class" ";")
  = Some ["JqueryAsset::class"] ∧
  ¬ (∀ q body,
       isQuoteChar q = true → body ≠ "" →
       allChars (λ c, negb (isQuoteChar c)) body = true →
       allChars notBracket body = true →
       parseDepends
         (dependsFile "public " " " " " (String q body +:+ String q "") ";")
       = Some [body]).
Proof.
  split; [by vm_compute|]. split; [by vm_compute|].
  intros Hclaim.
  specialize (Hclaim doubleQuote "JqueryAsset" eq_refl ltac:(discriminate)
                eq_refl eq_refl).
  vm_compute in Hclaim. discriminate.
Qed.

(** ** The bundle listing *)

Lemma pushGroup_keys_old key a groups :
  key ∈ groups.*1 → (pushGroup key a groups).*1 = groups.*1.
Proof.
  induction groups as [|[k ms] groups IH]; simpl; [by intros ?%elem_of_nil|].
  destruct (String.eqb_spec k key) as [->|Hne]; [done|].
  intros [?|Hin]%elem_of_cons; [done|]. simpl. f_equal. by apply IH.
Qed.

Lemma pushGroup_keys_new key a groups :
  key ∉ groups.*1 → (pushGroup key a groups).*1 = groups.*1 ++ [key].
Proof.
  induction groups as [|[k ms] groups IH]; simpl; [done|].
  intros Hnew. destruct (String.eqb_spec k key) as [->|Hne].
  - destruct Hnew. by left.
  - simpl. f_equal. apply IH. intros Hin. apply Hnew. by right.
Qed.

Lemma pushGroup_groupOf key a groups k :
  groupOf k (pushGroup key a groups)
  = if String.eqb key k then groupOf k groups ++ [a] else groupOf k groups.
Proof.
  induction groups as [|[k' ms] groups IH]; simpl.
  - by destruct (String.eqb key k).
  - destruct (String.eqb_spec k' key) as [->|Hne]; simpl.
    + by destruct (String.eqb key k).
    + destruct (String.eqb_spec k' k) as [->|Hne']; [|done].
      destruct (String.eqb_spec key k) as [->|]; done.
Qed.

Lemma pushGroup_nonempty key a groups :
  Forall (λ g, g.2 ≠ []) groups → Forall (λ g, g.2 ≠ []) (pushGroup key a groups).
Proof.
  induction 1 as [|[k ms] groups Hms Hrest IH]; simpl.
  - constructor; [done|constructor].
  - destruct (String.eqb k key).
    + constructor; [|done]. simpl. intros Hnil.
      by apply app_eq_nil in Hnil as [_ ?].
    + by constructor.
Qed.

Lemma groupOf_elem k ms groups :
  NoDup groups.*1 → (k, ms) ∈ groups → groupOf k groups = ms.
Proof.
  induction groups as [|[k' ms'] groups IH]; simpl; [by intros _ ?%elem_of_nil|].
  intros [Hk' Hnd]%NoDup_cons [[= <- <-]|Hin]%elem_of_cons.
  - by rewrite String.eqb_refl.
  - destruct (String.eqb_spec k' k) as [->|]; [|by apply IH].
    destruct Hk'. apply list_elem_of_fmap. by exists (k, ms).
Qed.

Section BundleListing.
Variable moduleFilter : option string.

Lemma groupStep_shown groups asset :
  groupStep moduleFilter groups asset
  = match shownBundles moduleFilter [asset] with
    | [] => groups
    | _ => pushGroup (moduleLabel asset) asset groups
    end.
Proof.
  unfold groupStep, shownBundles. destruct (truthy moduleFilter) as [f|]; [|done].
  simpl. by destruct (String.eqb (moduleLabel asset) f).
Qed.

Lemma shownBundles_cons asset assets :
  shownBundles moduleFilter (asset :: assets)
  = shownBundles moduleFilter [asset] ++ shownBundles moduleFilter assets.
Proof.
  unfold shownBundles. destruct (truthy moduleFilter) as [f|]; [|done].
  simpl. by destruct (String.eqb (moduleLabel asset) f).
Qed.

Lemma shownBundles_one asset :
  shownBundles moduleFilter [asset] = [] ∨
  shownBundles moduleFilter [asset] = [asset].
Proof.
  unfold shownBundles. destruct (truthy moduleFilter) as [f|]; [|by right].
  simpl. destruct (String.eqb (moduleLabel asset) f); auto.
Qed.

Lemma foldl_groupStep_spec assets : ∀ groups,
  NoDup groups.*1 → Forall (λ g, g.2 ≠ []) groups →
  NoDup (foldl (groupStep moduleFilter) groups assets).*1 ∧
  Forall (λ g, g.2 ≠ []) (foldl (groupStep moduleFilter) groups assets) ∧
  (∀ k, groupOf k (foldl (groupStep moduleFilter) groups assets)
        = groupOf k groups
          ++ filter (λ a, moduleLabel a = k) (shownBundles moduleFilter assets)) ∧
  (∀ k, k ∈ (foldl (groupStep moduleFilter) groups assets).*1 ↔
        k ∈ groups.*1 ∨ k ∈ moduleLabel <$> shownBundles moduleFilter assets).
Proof.
  induction assets as [|asset assets IH]; intros groups Hnd Hne.
  - cbn [foldl]. unfold shownBundles. split_and!; [done|done| |].
    + intros k. destruct (truthy moduleFilter); simpl; by rewrite app_nil_r.
    + intros k. destruct (truthy moduleFilter); simpl; set_solver.
  - cbn [foldl]. rewrite (shownBundles_cons asset assets), groupStep_shown.
    destruct (shownBundles_one asset) as [Hone|Hone]; rewrite !Hone; cbn [app].
    + by apply IH.
    + destruct (IH (pushGroup (moduleLabel asset) asset groups))
        as (Hnd' & Hne' & Hmem & Hkeys).
      * destruct (decide (moduleLabel asset ∈ groups.*1)) as [Hold|Hnew].
        -- by rewrite pushGroup_keys_old.
        -- rewrite pushGroup_keys_new by done.
           apply NoDup_app. split_and!; [done| |apply NoDup_singleton].
           intros x Hx ->%list_elem_of_singleton. done.
      * by apply pushGroup_nonempty.
      * split_and!; [done|done| |].
        -- intros k. rewrite Hmem, pushGroup_groupOf, filter_cons.
           destruct (String.eqb_spec (moduleLabel asset) k) as [->|Hne''].
           ++ rewrite decide_True by done. by rewrite <- app_assoc.
           ++ by rewrite decide_False.
        -- intros k. rewrite Hkeys.
           destruct (decide (moduleLabel asset ∈ groups.*1)) as [Hold|Hnew].
           ++ rewrite pushGroup_keys_old by done. set_solver.
           ++ rewrite pushGroup_keys_new by done. set_solver.
Qed.
End BundleListing.

(** X9. The listing groups the shown bundles by module label (the
    application for bundles without a module): the keys are pairwise
    distinct, no group is empty, every group holds exactly the shown bundles
    of its label in scan order, and every shown bundle's label is a key. *)
Theorem bundles_are_grouped_by_module (moduleFilter : option string)
    (assets : list AssetInfo) :
  let groups := byModule (listAssetBundles moduleFilter assets) in
  NoDup groups.*1 ∧
  (∀ k members, (k, members) ∈ groups →
     members ≠ [] ∧
     members = filter (λ a, moduleLabel a = k)
                      (shownBundles moduleFilter assets)) ∧
  (∀ a, a ∈ shownBundles moduleFilter assets → moduleLabel a ∈ groups.*1).
Proof.
  destruct (foldl_groupStep_spec moduleFilter assets [])
    as (Hnd & Hne & Hmem & Hkeys); [constructor|constructor|].
  change (byModule (listAssetBundles moduleFilter assets))
    with (foldl (groupStep moduleFilter) [] assets).
  cbv zeta. split_and!.
  - exact Hnd.
  - intros k members Hin. split.
    + rewrite Forall_forall in Hne. exact (Hne _ Hin).
    + rewrite <- (groupOf_elem k members _ Hnd Hin). by rewrite Hmem.
  - intros a Ha. apply Hkeys. right. by apply list_elem_of_fmap_2.
Qed.

Lemma pushGroup_size key a groups :
  sum_list (length <$> (pushGroup key a groups).*2)
  = S (sum_list (length <$> groups.*2)).
Proof.
  induction groups as [|[k ms] groups IH]; simpl; [done|].
  destruct (String.eqb k key); simpl.
  - rewrite length_app. simpl. lia.
  - unfold fmap in IH. rewrite IH. lia.
Qed.

Lemma foldl_groupStep_size moduleFilter assets : ∀ groups,
  sum_list (length <$> (foldl (groupStep moduleFilter) groups assets).*2)
  = sum_list (length <$> groups.*2) + length (shownBundles moduleFilter assets).
Proof.
  induction assets as [|asset assets IH]; intros groups.
  - cbn [foldl]. unfold shownBundles. destruct (truthy moduleFilter); simpl; lia.
  - cbn [foldl]. rewrite IH, (shownBundles_cons _ asset assets), groupStep_shown.
    destruct (shownBundles_one moduleFilter asset) as [Hone|Hone]; rewrite !Hone.
    + done.
    + rewrite pushGroup_size, length_app. simpl. lia.
Qed.

Lemma filter_split_length {A} (p q : A → bool) l :
  length (List.filter p l)
  = length (List.filter (λ a, p a && q a) l)
    + length (List.filter (λ a, p a && negb (q a)) l).
Proof.
  induction l as [|a l IH]; simpl; [done|].
  destruct (p a), (q a); simpl; lia.
Qed.

Lemma moduleLabel_module a m :
  m ≠ "" → m ≠ "app" → (moduleLabel a = m ↔ module a = Some m).
Proof.
  intros Hne Happ. unfold moduleLabel. destruct (module a) as [m'|].
  - destruct (String.eqb_spec m' "") as [->|]; split; congruence.
  - split; congruence.
Qed.

Lemma truthy_Some o m : truthy o = Some m → o = Some m ∧ m ≠ "".
Proof.
  unfold truthy. destruct o as [n|]; [|done].
  destruct (String.eqb_spec n ""); [done|]. by intros [= <-].
Qed.

(** X10. The groups of the listing hold every shown bundle exactly once.
    The count in the headline equals the number of bundles listed when no
    module is asked for, and when a module other than [app] is asked for;
    for the module [app] the listing also shows the bundles without a
    module, which the headline does not count. *)
Theorem headline_count_and_listing (moduleFilter : option string)
    (assets : list AssetInfo) :
  let listing := listAssetBundles moduleFilter assets in
  let listed := sum_list (length <$> (byModule listing).*2) in
  listed = length (shownBundles moduleFilter assets) ∧
  (truthy moduleFilter = None → headlineCount listing = listed) ∧
  (∀ m, truthy moduleFilter = Some m → m ≠ "app" →
        headlineCount listing = listed) ∧
  (truthy moduleFilter = Some "app" →
   listed = headlineCount listing
            + length (List.filter
                        (λ a, String.eqb (moduleLabel a) "app"
                              && negb (bool_decide (module a = Some "app")))
                        assets)).
Proof.
  cbv zeta.
  change (byModule (listAssetBundles moduleFilter assets))
    with (foldl (groupStep moduleFilter) [] assets).
  rewrite foldl_groupStep_size. simpl sum_list. rewrite Nat.add_0_l.
  unfold listAssetBundles, shownBundles. cbn [headlineCount].
  split_and!.
  - done.
  - by intros ->.
  - intros m Hm Happ. rewrite Hm. f_equal.
    apply truthy_Some in Hm as [_ Hne].
    apply List.filter_ext. intros a.
    destruct (String.eqb_spec (moduleLabel a) m) as [Hl|Hl].
    + apply bool_decide_eq_true. by apply moduleLabel_module.
    + apply bool_decide_eq_false. by rewrite <- moduleLabel_module.
  - intros ->.
    rewrite (filter_split_length _ (λ a, bool_decide (module a = Some "app"))).
    f_equal. f_equal. apply List.filter_ext. intros a.
    destruct (bool_decide_reflect (module a = Some "app")) as [Hm|Hm].
    + unfold moduleLabel. by rewrite Hm.
    + by rewrite andb_false_r.
Qed.

Lemma headline_count_and_listing_witness :
  truthy (Some "app") = Some "app" ∧
  headlineCount (listAssetBundles (Some "app") [appA; shopA]) = 0 ∧
  sum_list (length <$> (byModule (listAssetBundles (Some "app") [appA; shopA])).*2)
  = 0 + 1.
Proof.
  split; [reflexivity|]. split; [reflexivity|].
  exact (proj2 (proj2 (proj2 (headline_count_and_listing (Some "app") [appA; shopA])))
           eq_refl).
Defined.


(** ** The guard of [executeCommand] *)

Lemma includes_unfold s sub :
  includes s sub =
  match stripPrefix sub s with
  | Some _ => true
  | None => match s with
            | EmptyString => false
            | String _ s' => includes s' sub
            end
  end.
Proof. by destruct s. Qed.

Lemma includes_occursIn s sub : includes s sub = true ↔ occursIn sub s.
Proof.
  split.
  - induction s as [|c s IH]; rewrite includes_unfold;
      destruct (stripPrefix sub _) as [r|] eqn:E.
    + intros _. apply stripPrefix_spec in E. exists "", r. by rewrite append_nil.
    + done.
    + intros _. apply stripPrefix_spec in E. exists "", r. by rewrite append_nil.
    + intros H. destruct (IH H) as (b & a & ->).
      exists (String c b), a. by rewrite append_cons.
  - intros (b & a & ->). induction b as [|c b IH]; rewrite includes_unfold.
    + by rewrite append_nil, stripPrefix_app.
    + rewrite append_cons. by destruct (stripPrefix sub _).
Qed.

(** X11. [executeCommand] refuses a request exactly when the command text
    contains one of the three names [migrate/fresh], [migrate/down] and
    [cache/flush-all], at any position; neither the arguments nor the
    interactive flag take part in the decision, and a command line is passed
    to the shell only for a request that is not interactive. *)
Theorem dangerous_commands_are_blocked yiiScript command args interactive :
  (executeCommand yiiScript command args interactive = Blocked command
   ↔ ∃ d, d ∈ dangerousCommands ∧ occursIn d command) ∧
  (∀ fullCommand,
     executeCommand yiiScript command args interactive = Run fullCommand →
     interactive = false ∧ ∀ d, d ∈ dangerousCommands → ¬ occursIn d command).
Proof.
  unfold executeCommand.
  destruct (existsb (includes command) dangerousCommands) eqn:E.
  - apply existsb_exists in E as (d & Hd & Hinc).
    split; [|done]. split; [|done]. intros _. exists d.
    split; [by apply list_elem_of_In|by apply includes_occursIn].
  - assert (∀ d, d ∈ dangerousCommands → ¬ occursIn d command) as Hno.
    { intros d Hd Hocc. apply includes_occursIn in Hocc.
      assert (existsb (includes command) dangerousCommands = true); [|congruence].
      apply existsb_exists. exists d. split; [by apply list_elem_of_In|done]. }
    split.
    + split; [by destruct interactive|].
      intros (d & Hd & Hocc). by destruct (Hno d Hd).
    + intros full Hfull. by destruct interactive.
Qed.


(** ** The scan for bundle classes *)

Section ScanFacts.
Variable join : string → string → string.
Variable basename : string → string → string.

Lemma FsNode_nested_ind (P : FsNode → Prop) :
  (∀ content, P (FsFile content)) →
  (∀ readable files, Forall (λ e, P e.2) files → P (FsDir readable files)) →
  P FsBroken →
  ∀ node, P node.
Proof.
  intros Hfile Hdir Hbroken. fix IH 1.
  intros [content|readable files|]; [apply Hfile| |apply Hbroken].
  apply Hdir. induction files as [|[file node] files IHfiles]; constructor.
  - apply IH.
  - apply IHfiles.
Qed.

Lemma scanFiles_nil dirPath module :
  scanFiles join basename [] dirPath module = [].
Proof. done. Qed.

Lemma scanFiles_cons file node rest dirPath module :
  scanFiles join basename ((file, node) :: rest) dirPath module =
  match node with
  | FsBroken => []
  | FsDir _ _ =>
      findAssets join basename node (join dirPath file) module
        ++ scanFiles join basename rest dirPath module
  | FsFile content =>
      if isBundleFile file then
        match parseAssetFile (basename (join dirPath file) ".php")
                (join dirPath file) module content with
        | Some assetInfo => assetInfo :: scanFiles join basename rest dirPath module
        | None => scanFiles join basename rest dirPath module
        end
      else scanFiles join basename rest dirPath module
  end.
Proof. by destruct node. Qed.

Lemma findAssets_readable files dirPath module :
  findAssets join basename (FsDir true files) dirPath module =
  scanFiles join basename files dirPath module.
Proof. done. Qed.

Lemma findAssets_unreadable files dirPath module :
  findAssets join basename (FsDir false files) dirPath module = [].
Proof. done. Qed.

Lemma scanFiles_app before rest dirPath module :
  allStatable before →
  scanFiles join basename (before ++ rest) dirPath module =
  scanFiles join basename before dirPath module
    ++ scanFiles join basename rest dirPath module.
Proof.
  induction before as [|[file node] before IH]; intros Hok; [done|].
  assert (allStatable before) as Hok'.
  { intros e He. apply Hok. by right. }
  rewrite <- app_comm_cons, !scanFiles_cons, (IH Hok').
  destruct node as [content| |].
  - destruct (isBundleFile file); [|done].
    by destruct (parseAssetFile _ _ _ _).
  - by rewrite app_assoc.
  - by destruct (Hok (file, FsBroken) ltac:(left)).
Qed.

Lemma scanFiles_sound_step files dirPath module a :
  Forall (λ e, ∀ dirPath a,
            a ∈ findAssets join basename e.2 dirPath module →
            ∃ file text,
              fileAt join e.2 dirPath file (path a) (Some text) ∧
              isBundleFile file = true ∧
              parseAssetFile (basename (path a) ".php") (path a) module
                (Some text) = Some a) files →
  a ∈ scanFiles join basename files dirPath module →
  ∃ file node,
    (file, node) ∈ files ∧
    ((∃ text, node = FsFile (Some text) ∧ isBundleFile file = true ∧
              path a = join dirPath file ∧
              parseAssetFile (basename (path a) ".php") (path a) module
                (Some text) = Some a) ∨
     (∃ file' text,
        fileAt join node (join dirPath file) file' (path a) (Some text) ∧
        isBundleFile file' = true ∧
        parseAssetFile (basename (path a) ".php") (path a) module
          (Some text) = Some a)).
Proof.
  induction 1 as [|[file node] files Hnode _ IH]; [by intros ?%elem_of_nil|].
  rewrite scanFiles_cons. intros Ha.
  match goal with
  | |- ?G => assert (a ∈ scanFiles join basename files dirPath module → G)
      as Hrest
  end.
  { intros H. destruct (IH H) as (f & n & Hin & Hcase).
    exists f, n. split; [by right|exact Hcase]. }
  destruct node as [content|readable sub|].
  - destruct (isBundleFile file) eqn:Hfile; [|by apply Hrest].
    destruct (parseAssetFile _ _ _ content) as [b|] eqn:Hparse; [|by apply Hrest].
    apply elem_of_cons in Ha as [->|Ha]; [|by apply Hrest].
    assert (path b = join dirPath file) as Hpath.
    { unfold parseAssetFile in Hparse. destruct content as [text|]; [|done].
      simpl in Hparse.
      destruct (parseFiles "$css" text); [|done]. simpl in Hparse.
      destruct (parseFiles "$js" text); [|done]. simpl in Hparse.
      destruct (parseDepends text); [|done]. simpl in Hparse.
      by injection Hparse as <-. }
    destruct content as [text|]; [|done].
    exists file, (FsFile (Some text)). split; [by left|]. left. exists text.
    by rewrite Hpath.
  - apply elem_of_app in Ha as [Ha|Ha]; [|by apply Hrest].
    destruct (Hnode _ _ Ha) as (file' & text & Hat & Hfile & Hparse).
    exists file, (FsDir readable sub). split; [by left|]. right. by exists file', text.
  - by apply elem_of_nil in Ha.
Qed.

Lemma findAssets_sound module node :
  ∀ dirPath a,
    a ∈ findAssets join basename node dirPath module →
    ∃ file text,
      fileAt join node dirPath file (path a) (Some text) ∧
      isBundleFile file = true ∧
      parseAssetFile (basename (path a) ".php") (path a) module (Some text)
        = Some a.
Proof.
  induction node as [content|readable files IH|] using FsNode_nested_ind;
    intros dirPath a Ha; [by apply elem_of_nil in Ha| |by apply elem_of_nil in Ha].
  destruct readable; [|by apply elem_of_nil in Ha].
  rewrite findAssets_readable in Ha.
  destruct (scanFiles_sound_step _ _ _ _ IH Ha)
    as (file & node & Hin & [(text & -> & Hfile & Hpath & Hparse)
                            |(file' & text & Hat & Hfile & Hparse)]).
  - exists file, text. split; [|done]. rewrite Hpath. by constructor.
  - exists file', text. split; [|done]. by econstructor.
Qed.

End ScanFacts.


Lemma parseAssetFile_total className filePath owner text :
  ∃ a, parseAssetFile className filePath owner (Some text) = Some a ∧
       name a = className ∧ path a = filePath ∧ module a = owner.
Proof.
  unfold parseAssetFile. simpl.
  assert (∀ variable, is_Some (parseFiles variable text)) as Hfiles.
  { intros variable. unfold parseFiles.
    destruct (arrayMatch variable text) as [body|]; [|by eexists].
    unfold extractFiles.
    destruct (matchAllQuoted_total (String.length body) body) as [ms ->]; [done|].
    by eexists. }
  destruct (Hfiles "$css") as [cssFiles ->].
  destruct (Hfiles "$js") as [jsFiles ->]. simpl.
  assert (is_Some (parseDepends text)) as [deps ->].
  { unfold parseDepends. destruct (dependsMatch text) as [body|]; [|by eexists].
    unfold extractDependencies.
    destruct (matchAll_total (String.length body) body) as [ms ->]; [done|].
    by eexists. }
  simpl. by eexists.
Qed.

Lemma parseAssetFile_fields className filePath owner content a :
  parseAssetFile className filePath owner content = Some a →
  name a = className ∧ path a = filePath ∧ module a = owner.
Proof.
  destruct content as [text|]; [|done].
  destruct (parseAssetFile_total className filePath owner text)
    as (b & -> & Hb). by intros [= <-].
Qed.

Lemma healthy_dir readable files :
  healthy (FsDir readable files) = true ↔
  readable = true ∧ Forall (λ e, healthy e.2 = true) files.
Proof.
  cbn [healthy]. rewrite andb_true_iff.
  apply and_iff_compat_l.
  induction files as [|[file node] files IH]; [by split; [constructor|]|].
  rewrite andb_true_iff, IH, Forall_cons. done.
Qed.

Lemma healthy_allStatable files :
  Forall (λ e, healthy e.2 = true) files → allStatable files.
Proof.
  intros H e He Hbroken. rewrite Forall_forall in H.
  specialize (H e He). by rewrite Hbroken in H.
Qed.

Section ScanComplete.
Variable join : string → string → string.
Variable basename : string → string → string.

Lemma scanFiles_entry files dirPath module file node :
  Forall (λ e, healthy e.2 = true) files →
  (file, node) ∈ files →
  ∃ before after,
    scanFiles join basename files dirPath module =
    before ++ scanFiles join basename [(file, node)] dirPath module ++ after.
Proof.
  intros Hok (l1 & l2 & ->)%list_elem_of_split.
  apply Forall_app in Hok as [Hl1 Hl2].
  apply Forall_cons in Hl2 as [Hnode Hl2]. simpl in Hnode.
  rewrite (scanFiles_app _ _ l1); [|by apply healthy_allStatable].
  change ((file, node) :: l2) with ([(file, node)] ++ l2).
  rewrite (scanFiles_app _ _ [(file, node)]).
  - by eexists _, _.
  - apply healthy_allStatable. by constructor.
Qed.

Lemma findAssets_complete module node dirPath file p text :
  fileAt join node dirPath file p (Some text) →
  healthy node = true →
  isBundleFile file = true →
  ∃ a, a ∈ findAssets join basename node dirPath module ∧
       parseAssetFile (basename p ".php") p module (Some text) = Some a.
Proof.
  intros Hat. remember (Some text) as content eqn:Hcontent.
  induction Hat as [r files dirPath file content Hin
                   |r files dirPath sub subDir file p content Hin Hat IH];
    intros [-> Hfiles]%healthy_dir Hfile; subst content;
    rewrite findAssets_readable;
    destruct (scanFiles_entry files dirPath module _ _ Hfiles Hin)
      as (before & after & ->).
  - destruct (parseAssetFile_total (basename (join dirPath file) ".php")
                (join dirPath file) module text) as (a & Ha & _).
    exists a. split; [|done].
    rewrite scanFiles_cons, Hfile, Ha. set_solver.
  - rewrite Forall_forall in Hfiles. specialize (Hfiles _ Hin). simpl in Hfiles.
    destruct (IH eq_refl Hfiles Hfile) as (a & Ha & Hparse).
    exists a. split; [|done].
    rewrite scanFiles_cons. destruct subDir; [by inversion Hat| |done].
    set_solver.
Qed.

End ScanComplete.

(** X12. Every descriptor the scan returns was read from a file of the tree
    whose name ends in [Asset.php] or [Bundle.php]: its path is the path of
    that file, its name the base name of the path without [.php], and its
    module the one the scan was started with. *)
Theorem found_bundles_come_from_bundle_files join basename node dirPath owner a :
  a ∈ findAssets join basename node dirPath owner →
  name a = basename (path a) ".php" ∧ module a = owner ∧
  ∃ file text,
    fileAt join node dirPath file (path a) (Some text) ∧
    isBundleFile file = true ∧
    parseAssetFile (name a) (path a) owner (Some text) = Some a.
Proof.
  intros Ha.
  destruct (findAssets_sound join basename owner node dirPath a Ha)
    as (file & text & Hat & Hfile & Hparse).
  destruct (parseAssetFile_fields _ _ _ _ _ Hparse) as (Hname & _ & Hmodule).
  split_and!; [done|done|]. exists file, text. by rewrite Hname.
Qed.

Lemma found_bundles_come_from_bundle_files_witness :
  let a := {| name := "CartAsset"; path := "/p/modules/shop/widgets/CartAsset.php";
              module := Some "shop"; basePath := None; baseUrl := None;
              css := []; js := ["cart.js"]; depends := []; sourcePath := None |} in
  name a = simpleBasename (path a) ".php" ∧ module a = Some "shop" ∧
  ∃ file text,
    fileAt slashJoin sampleModule "/p/modules/shop" file (path a) (Some text) ∧
    isBundleFile file = true ∧
    parseAssetFile (name a) (path a) (Some "shop") (Some text) = Some a.
Proof.
  intros a.
  apply (found_bundles_come_from_bundle_files slashJoin simpleBasename
           sampleModule "/p/modules/shop" (Some "shop") a).
  vm_compute. right. left.
Defined.

(** X13. In a tree in which every directory can be listed and every entry
    examined, the scan misses nothing: each readable file whose name ends in
    [Asset.php] or [Bundle.php], at any depth, yields a descriptor with the
    path of the file. *)
Theorem healthy_tree_is_scanned_in_full join basename node dirPath owner
    file p text :
  healthy node = true →
  fileAt join node dirPath file p (Some text) →
  isBundleFile file = true →
  ∃ a, a ∈ findAssets join basename node dirPath owner ∧
       path a = p ∧ name a = basename p ".php" ∧ module a = owner ∧
       parseDepends text = Some (depends a).
Proof.
  intros Hok Hat Hfile.
  destruct (findAssets_complete join basename owner node dirPath file p text
              Hat Hok Hfile) as (a & Ha & Hparse).
  exists a. destruct (parseAssetFile_fields _ _ _ _ _ Hparse) as (? & ? & ?).
  split_and!; try done.
  unfold parseAssetFile in Hparse. simpl in Hparse.
  destruct (parseFiles "$css" text); [|done]. simpl in Hparse.
  destruct (parseFiles "$js" text); [|done]. simpl in Hparse.
  destruct (parseDepends text); [|done]. simpl in Hparse.
  by injection Hparse as <-.
Qed.

Lemma healthy_tree_is_scanned_in_full_witness :
  ∃ a, a ∈ findAssets slashJoin simpleBasename sampleWidgets
             "/p/modules/shop/widgets" (Some "shop") ∧
       path a = "/p/modules/shop/widgets/CartAsset.php" ∧
       name a = simpleBasename "/p/modules/shop/widgets/CartAsset.php" ".php" ∧
       module a = Some "shop" ∧
       parseDepends "class CartAsset { public $js = ['cart.js']; }"
         = Some (depends a).
Proof.
  apply (healthy_tree_is_scanned_in_full slashJoin simpleBasename sampleWidgets
           "/p/modules/shop/widgets" (Some "shop") "CartAsset.php").
  - reflexivity.
  - apply (fileHere slashJoin true _ "/p/modules/shop/widgets" "CartAsset.php").
    left.
  - reflexivity.
Defined.

(** X14. An entry on which [statSync] throws ends the scan of its directory:
    what was collected before it is returned, and the entries after it,
    whatever they are, contribute nothing. *)
Theorem scan_ends_at_first_failing_entry join basename before file after
    dirPath module :
  findAssets join basename (FsDir true (before ++ (file, FsBroken) :: after))
    dirPath module
  = findAssets join basename (FsDir true before) dirPath module.
Proof.
  rewrite !findAssets_readable.
  induction before as [|[file' node] before IH].
  - by rewrite app_nil_l, scanFiles_cons.
  - rewrite <- app_comm_cons, !scanFiles_cons, IH. done.
Qed.


Lemma child_elem entryName dir node :
  child entryName dir = Some node →
  node ≠ FsBroken ∧
  ∃ readable files, dir = FsDir readable files ∧ (entryName, node) ∈ files.
Proof.
  destruct dir as [|readable files|]; [done| |done]. simpl.
  destruct (List.find _ files) as [[file found]|] eqn:Hfind; [|done].
  apply find_some in Hfind as [Hin Heq]. simpl in Heq.
  apply String.eqb_eq in Heq as ->. apply list_elem_of_In in Hin.
  destruct found; intros [= <-]; (split; [done|by eexists _, _]).
Qed.

Lemma child_first entryName readable before node after :
  (∀ e, e ∈ before → e.1 ≠ entryName) →
  node ≠ FsBroken →
  child entryName (FsDir readable (before ++ (entryName, node) :: after))
  = Some node.
Proof.
  intros Hbefore Hnode. simpl.
  assert (List.find (λ e : string * FsNode, String.eqb e.1 entryName)
            (before ++ (entryName, node) :: after) = Some (entryName, node))
    as ->; [|by destruct node].
  induction before as [|e before IH]; simpl.
  - by rewrite String.eqb_refl.
  - destruct (String.eqb e.1 entryName) eqn:Heq.
    + apply String.eqb_eq in Heq. destruct (Hbefore e); [by left|done].
    + apply IH. intros e' He'. apply Hbefore. by right.
Qed.

(** X15. [findModuleAssets] scans the module directory recursively and then
    its [widgets] directory once more, so the bundles below
    [<module>/widgets] are returned twice, in the same order, whenever the
    first scan reaches that directory. *)
Theorem module_widget_bundles_are_listed_twice join basename before after
    readable widgetFiles modulePath moduleName :
  allStatable before →
  (∀ e, e ∈ before → e.1 ≠ "widgets") →
  ∃ others later,
    findModuleAssets join basename
      (FsDir true (before ++ ("widgets", FsDir readable widgetFiles) :: after))
      modulePath moduleName
    = others
        ++ findAssets join basename (FsDir readable widgetFiles)
             (join modulePath "widgets") (Some moduleName)
        ++ later
        ++ findAssets join basename (FsDir readable widgetFiles)
             (join modulePath "widgets") (Some moduleName).
Proof.
  intros Hok Hnames. unfold findModuleAssets.
  rewrite (child_first "widgets" true before (FsDir readable widgetFiles) after
             Hnames); [|done].
  rewrite findAssets_readable, (scanFiles_app _ _ before); [|done].
  rewrite scanFiles_cons.
  exists (scanFiles join basename before modulePath (Some moduleName)),
    (scanFiles join basename after modulePath (Some moduleName)).
  by rewrite <- !app_assoc.
Qed.

Lemma module_widget_bundles_are_listed_twice_witness :
  ∃ others later,
    findModuleAssets slashJoin simpleBasename sampleModule "/p/modules/shop" "shop"
    = others
        ++ findAssets slashJoin simpleBasename sampleWidgets
             (slashJoin "/p/modules/shop" "widgets") (Some "shop")
        ++ later
        ++ findAssets slashJoin simpleBasename sampleWidgets
             (slashJoin "/p/modules/shop" "widgets") (Some "shop").
Proof.
  apply (module_widget_bundles_are_listed_twice slashJoin simpleBasename
           [("ShopAsset.php",
             FsFile (Some "class ShopAsset { public $depends = ['A']; }"))]).
  - intros e [->|[]%elem_of_nil]%elem_of_cons. simpl. discriminate.
  - intros e [->|[]%elem_of_nil]%elem_of_cons. simpl. discriminate.
Defined.

Lemma findModuleAssets_sound join basename moduleDir modulePath moduleName a :
  a ∈ findModuleAssets join basename moduleDir modulePath moduleName →
  name a = basename (path a) ".php" ∧ module a = Some moduleName ∧
  ∃ file text,
    fileAt join moduleDir modulePath file (path a) (Some text) ∧
    isBundleFile file = true.
Proof.
  unfold findModuleAssets. intros [Ha|Ha]%elem_of_app.
  - destruct (findAssets_sound join basename _ _ _ _ Ha)
      as (file & text & Hat & Hfile & Hparse).
    destruct (parseAssetFile_fields _ _ _ _ _ Hparse) as (Hname & _ & Hmodule).
    split_and!; [done|done|]. by exists file, text.
  - destruct (child "widgets" moduleDir) as [widgetsDir|] eqn:Hchild;
      [|by apply elem_of_nil in Ha].
    apply child_elem in Hchild as (_ & readable & files & -> & Hin).
    destruct (findAssets_sound join basename _ _ _ _ Ha)
      as (file & text & Hat & Hfile & Hparse).
    destruct (parseAssetFile_fields _ _ _ _ _ Hparse) as (Hname & _ & Hmodule).
    split_and!; [done|done|]. exists file, text. split; [|done].
    by econstructor.
Qed.

(** X16. Every descriptor of the project-wide scan stems from a bundle file
    and carries the mark of the place it was found in: no module for a file
    below [assets], the name of the module directory for a file below
    [modules/<name>], and the module [widgets] for a file below the
    top-level [widgets] directory; its name is the base name of its path. *)
Theorem project_bundles_are_tagged_by_origin join basename project projectPath
    assets a :
  getAllAssets join basename project projectPath = Some assets →
  a ∈ assets →
  name a = basename (path a) ".php" ∧
  ∃ file text,
    isBundleFile file = true ∧
    match module a with
    | None =>
        ∃ dir, child "assets" project = Some dir ∧
               fileAt join dir (join projectPath "assets") file (path a)
                 (Some text)
    | Some m =>
        (m = "widgets" ∧
         ∃ dir, child "widgets" project = Some dir ∧
                fileAt join dir (join projectPath "widgets") file (path a)
                  (Some text)) ∨
        (∃ moduleNames moduleDir,
           child "modules" project = Some (FsDir true moduleNames) ∧
           (m, moduleDir) ∈ moduleNames ∧
           fileAt join moduleDir (join (join projectPath "modules") m) file
             (path a) (Some text))
    end.
Proof.
  unfold getAllAssets. intros Hget Ha.
  destruct (child "modules" project) as [modulesDir|] eqn:Hmodules.
  - destruct modulesDir as [|[] moduleNames|]; try done.
    simpl in Hget. injection Hget as <-.
    apply elem_of_app in Ha as [Ha|Ha]; [|apply elem_of_app in Ha as [Ha|Ha]].
    + destruct (child "assets" project) as [dir|] eqn:Hdir;
        [|by apply elem_of_nil in Ha].
      destruct (findAssets_sound join basename _ _ _ _ Ha)
        as (file & text & Hat & Hfile & Hparse).
      destruct (parseAssetFile_fields _ _ _ _ _ Hparse) as (Hname & _ & Hmodule).
      split; [done|]. exists file, text. split; [done|]. rewrite Hmodule.
      by exists dir.
    + apply list_elem_of_In, in_concat in Ha as (l & Hl & Ha).
      apply list_elem_of_In, list_elem_of_fmap in Hl as ([m moduleDir] & -> & Hin).
      apply list_elem_of_In in Ha. simpl in Ha.
      assert (a ∈ findModuleAssets join basename moduleDir
                    (join (join projectPath "modules") m) m) as Ha'.
      { destruct moduleDir; [done|done|by apply elem_of_nil in Ha]. }
      destruct (findModuleAssets_sound _ _ _ _ _ _ Ha')
        as (Hname & Hmodule & file & text & Hat & Hfile).
      split; [done|]. exists file, text. split; [done|]. rewrite Hmodule.
      right. by exists moduleNames, moduleDir.
    + destruct (child "widgets" project) as [dir|] eqn:Hdir;
        [|by apply elem_of_nil in Ha].
      destruct (findAssets_sound join basename _ _ _ _ Ha)
        as (file & text & Hat & Hfile & Hparse).
      destruct (parseAssetFile_fields _ _ _ _ _ Hparse) as (Hname & _ & Hmodule).
      split; [done|]. exists file, text. split; [done|]. rewrite Hmodule.
      left. split; [done|]. by exists dir.
  - simpl in Hget. injection Hget as <-.
    apply elem_of_app in Ha as [Ha|Ha].
    + destruct (child "assets" project) as [dir|] eqn:Hdir;
        [|by apply elem_of_nil in Ha].
      destruct (findAssets_sound join basename _ _ _ _ Ha)
        as (file & text & Hat & Hfile & Hparse).
      destruct (parseAssetFile_fields _ _ _ _ _ Hparse) as (Hname & _ & Hmodule).
      split; [done|]. exists file, text. split; [done|]. rewrite Hmodule.
      by exists dir.
    + destruct (child "widgets" project) as [dir|] eqn:Hdir;
        [|by apply elem_of_nil in Ha].
      destruct (findAssets_sound join basename _ _ _ _ Ha)
        as (file & text & Hat & Hfile & Hparse).
      destruct (parseAssetFile_fields _ _ _ _ _ Hparse) as (Hname & _ & Hmodule).
      split; [done|]. exists file, text. split; [done|]. rewrite Hmodule.
      left. split; [done|]. by exists dir.
Qed.


Lemma project_bundles_are_tagged_by_origin_witness :
  let a := {| name := "ShopAsset"; path := "/p/modules/shop/ShopAsset.php";
              module := Some "shop"; basePath := None; baseUrl := None;
              css := []; js := []; depends := ["A"]; sourcePath := None |} in
  name a = simpleBasename (path a) ".php" ∧
  ∃ file text,
    isBundleFile file = true ∧
    ((Some "shop" = Some "widgets" ∧
      ∃ dir, child "widgets" sampleProject = Some dir ∧
             fileAt slashJoin dir (slashJoin "/p" "widgets") file (path a)
               (Some text)) ∨
     (∃ moduleNames moduleDir,
        child "modules" sampleProject = Some (FsDir true moduleNames) ∧
        ("shop", moduleDir) ∈ moduleNames ∧
        fileAt slashJoin moduleDir (slashJoin (slashJoin "/p" "modules") "shop")
          file (path a) (Some text))).
Proof.
  intros a.
  destruct (project_bundles_are_tagged_by_origin slashJoin simpleBasename
              sampleProject "/p"
              (default [] (getAllAssets slashJoin simpleBasename sampleProject "/p"))
              a) as (Hname & file & text & Hfile & Horigin).
  - vm_compute. reflexivity.
  - vm_compute. right. left.
  - split; [exact Hname|]. exists file, text. split; [exact Hfile|].
    destruct Horigin as [(Hw & dir & Hdir & Hat)|Hmod].
    + left. split; [congruence|]. by exists dir.
    + right. exact Hmod.
Defined.
